(** * ColorClash: a shallow embedding of the combat simulation core

    The TypeScript sources embedded here are the [Character] entity, the four
    behaviour states ([IdleState], [MoveState], [AttackState], [HitState]),
    the [Hitbox] entity, the input commands, the [CollisionSystem], the
    [InputHandler] and the simulation part of the [GameEngine] (the frame,
    the victory check, the restart and the loop).

    Conventions of the embedding:
    - a JavaScript [number] is an exact rational ([Q]); NaN, the infinities
      and rounding are outside the model, so every statement below is over
      exact arithmetic.  Equality of numbers is [==] ([Qeq]) unless the two
      sides are computed by the same expression.  Two identities of exact
      arithmetic fail on IEEE doubles for some inputs: [(x - w) + w = x],
      by which a left-facing hitbox lies exactly beside the hurtbox of its
      owner (it matters only for a character that is its own opponent, a
      pair that [createMatchPlayers] never builds), and the halving in
      [resolveCharacterCollision] that brings two characters to exact edge
      contact (C9 is stated over exact arithmetic, as the specification
      states it);
    - objects that the program mutates through references (the two
      combatants held by the engine) live in a two-cell store, the [World];
      a reference is a [Ref] and a method of [Character] that only touches
      [this] is a function [Character -> Character] that the store lifts
      with [modify];
    - a property access through a [null] reference raises a [TypeError];
      code on such a path returns a [Completion];
    - [Subject.notify] synchronously hands the event to the observers of the
      emitting character; the embedding records the events each character
      has emitted, most recent first, in the field [notified]. *)

From Stdlib Require Import QArith Qminmax Lqa Lia Bool List String.
Import ListNotations.
Open Scope Q_scope.

Set Implicit Arguments.

(** ** Numbers *)

Definition Qltb (x y : Q) : bool := negb (Qle_bool y x).

(** ** Plain data: [types.ts] as used by the sources *)

Module Vector2.
Record t : Type := mk { x : Q; y : Q }.
End Vector2.

Module Rectangle.
Record t : Type := mk { x : Q; y : Q; width : Q; height : Q }.
End Rectangle.

Inductive PlayerId : Type := Player1 | Player2.

Definition PlayerId_toString (p : PlayerId) : string :=
  match p with Player1 => "Player1" | Player2 => "Player2" end%string.

Module AttackResult.
Record t : Type := mk { damage : Q; knockback : Vector2.t; hitStun : Q }.
End AttackResult.

(** ** [Hitbox] *)

Module Hitbox.
Record t : Type := mk {
    active : bool;
    x : Q; y : Q; width : Q; height : Q;
    ownerId : string;
    damage : Q
  }.

  (** [new Hitbox()] *)
Definition new : t := mk false 0 0 0 0 EmptyString 0.

Definition init (x' y' width' height' : Q) (ownerId' : string) (damage' : Q)
      (h : t) : t :=
    mk (active h) x' y' width' height' ownerId' damage'.

Definition set_active (b : bool) (h : t) : t :=
    mk b (x h) (y h) (width h) (height h) (ownerId h) (damage h).

Definition getRect (h : t) : Rectangle.t :=
    Rectangle.mk (x h) (y h) (width h) (height h).

Definition intersects (h : t) (other : Rectangle.t) : bool :=
    Qltb (x h) (Rectangle.x other + Rectangle.width other) &&
    Qltb (Rectangle.x other) (x h + width h) &&
    Qltb (y h) (Rectangle.y other + Rectangle.height other) &&
    Qltb (Rectangle.y other) (y h + height h).
End Hitbox.

(** ** [Character]: the fields *)

(** [InputFlags] of [Character.ts]. *)
Module InputFlags.
Record t : Type := mk {
    left : bool; right : bool; up : bool; down : bool;
    attack : bool; moving : bool
  }.
Definition none : t := mk false false false false false false.
End InputFlags.

(** The behaviour state a character is in: which of the four objects of
    [this.states] the field [currentState] refers to. *)
Inductive StateName : Type := Idle | Move | Attack | Hit.

(** The strategy a character uses: which of its two strategy objects
    ([fireModeStrategy], [waterModeStrategy]) [elementalMode] refers to. *)
Inductive ModeName : Type := Fire | Water.

(** The per-activation fields of the [AttackState] and [HitState] objects;
    [IdleState] and [MoveState] have none. *)
Module AttackStateData.
Record t : Type := mk { attackTimer : Q; hasHit : bool }.
End AttackStateData.

Module HitStateData.
Record t : Type := mk { stunTimer : Q; stunDuration : Q }.
End HitStateData.

Record CharacterStates : Type := mkStates {
  attack : AttackStateData.t;
  hit : HitStateData.t
}.

(** The two combatants of a match are the only [Character] objects. *)
Inductive Ref : Type := RefP1 | RefP2.

Definition Ref_eqb (a b : Ref) : bool :=
  match a, b with
  | RefP1, RefP1 | RefP2, RefP2 => true
  | _, _ => false
  end.

(** The events a [Character] hands to [notify]. *)
Inductive GameEvent : Type :=
| HealthChangeEvent (playerId : PlayerId) (currentHealth maxHealth damage : Q)
| ModeChangeEvent (playerId : PlayerId) (newMode : string).

(** [characterType] and [keyBindings] are identity data that no method of
    the simulation reads; they are left out.  [width], [height] and
    [maxHealth] are read-only fields initialised from the configuration and
    are accessors below. *)
Record Character : Type := mkCharacter {
  playerId : PlayerId;
  position : Vector2.t;
  velocity : Vector2.t;
  facingRight : bool;
  health : Q;
  attackCooldownTimer : Q;
  isAttacking : bool;
  isHitStunned : bool;
  lastHitStun : Q;
  attackHitbox : option Hitbox.t;
  isGrounded : bool;
  elementalMode : ModeName;
  currentState : StateName;
  states : CharacterStates;
  inputFlags : InputFlags.t;
  opponent : option Ref;
  notified : list GameEvent
}.

(** Field assignments. *)
Definition set_position (v : Vector2.t) (c : Character) : Character :=
  mkCharacter (playerId c) v (velocity c) (facingRight c) (health c)
    (attackCooldownTimer c) (isAttacking c) (isHitStunned c) (lastHitStun c)
    (attackHitbox c) (isGrounded c) (elementalMode c) (currentState c)
    (states c) (inputFlags c) (opponent c) (notified c).

Definition set_velocity (v : Vector2.t) (c : Character) : Character :=
  mkCharacter (playerId c) (position c) v (facingRight c) (health c)
    (attackCooldownTimer c) (isAttacking c) (isHitStunned c) (lastHitStun c)
    (attackHitbox c) (isGrounded c) (elementalMode c) (currentState c)
    (states c) (inputFlags c) (opponent c) (notified c).

Definition set_facingRight (b : bool) (c : Character) : Character :=
  mkCharacter (playerId c) (position c) (velocity c) b (health c)
    (attackCooldownTimer c) (isAttacking c) (isHitStunned c) (lastHitStun c)
    (attackHitbox c) (isGrounded c) (elementalMode c) (currentState c)
    (states c) (inputFlags c) (opponent c) (notified c).

Definition set_health (h : Q) (c : Character) : Character :=
  mkCharacter (playerId c) (position c) (velocity c) (facingRight c) h
    (attackCooldownTimer c) (isAttacking c) (isHitStunned c) (lastHitStun c)
    (attackHitbox c) (isGrounded c) (elementalMode c) (currentState c)
    (states c) (inputFlags c) (opponent c) (notified c).

Definition set_attackCooldownTimer (t : Q) (c : Character) : Character :=
  mkCharacter (playerId c) (position c) (velocity c) (facingRight c) (health c)
    t (isAttacking c) (isHitStunned c) (lastHitStun c)
    (attackHitbox c) (isGrounded c) (elementalMode c) (currentState c)
    (states c) (inputFlags c) (opponent c) (notified c).

Definition set_isAttacking (b : bool) (c : Character) : Character :=
  mkCharacter (playerId c) (position c) (velocity c) (facingRight c) (health c)
    (attackCooldownTimer c) b (isHitStunned c) (lastHitStun c)
    (attackHitbox c) (isGrounded c) (elementalMode c) (currentState c)
    (states c) (inputFlags c) (opponent c) (notified c).

Definition set_isHitStunned (b : bool) (c : Character) : Character :=
  mkCharacter (playerId c) (position c) (velocity c) (facingRight c) (health c)
    (attackCooldownTimer c) (isAttacking c) b (lastHitStun c)
    (attackHitbox c) (isGrounded c) (elementalMode c) (currentState c)
    (states c) (inputFlags c) (opponent c) (notified c).

Definition set_lastHitStun (t : Q) (c : Character) : Character :=
  mkCharacter (playerId c) (position c) (velocity c) (facingRight c) (health c)
    (attackCooldownTimer c) (isAttacking c) (isHitStunned c) t
    (attackHitbox c) (isGrounded c) (elementalMode c) (currentState c)
    (states c) (inputFlags c) (opponent c) (notified c).

Definition set_attackHitbox (h : option Hitbox.t) (c : Character) : Character :=
  mkCharacter (playerId c) (position c) (velocity c) (facingRight c) (health c)
    (attackCooldownTimer c) (isAttacking c) (isHitStunned c) (lastHitStun c)
    h (isGrounded c) (elementalMode c) (currentState c)
    (states c) (inputFlags c) (opponent c) (notified c).

Definition set_isGrounded (b : bool) (c : Character) : Character :=
  mkCharacter (playerId c) (position c) (velocity c) (facingRight c) (health c)
    (attackCooldownTimer c) (isAttacking c) (isHitStunned c) (lastHitStun c)
    (attackHitbox c) b (elementalMode c) (currentState c)
    (states c) (inputFlags c) (opponent c) (notified c).

Definition set_elementalMode (m : ModeName) (c : Character) : Character :=
  mkCharacter (playerId c) (position c) (velocity c) (facingRight c) (health c)
    (attackCooldownTimer c) (isAttacking c) (isHitStunned c) (lastHitStun c)
    (attackHitbox c) (isGrounded c) m (currentState c)
    (states c) (inputFlags c) (opponent c) (notified c).

Definition set_currentState (s : StateName) (c : Character) : Character :=
  mkCharacter (playerId c) (position c) (velocity c) (facingRight c) (health c)
    (attackCooldownTimer c) (isAttacking c) (isHitStunned c) (lastHitStun c)
    (attackHitbox c) (isGrounded c) (elementalMode c) s
    (states c) (inputFlags c) (opponent c) (notified c).

Definition set_states (s : CharacterStates) (c : Character) : Character :=
  mkCharacter (playerId c) (position c) (velocity c) (facingRight c) (health c)
    (attackCooldownTimer c) (isAttacking c) (isHitStunned c) (lastHitStun c)
    (attackHitbox c) (isGrounded c) (elementalMode c) (currentState c)
    s (inputFlags c) (opponent c) (notified c).

Definition set_inputFlags (f : InputFlags.t) (c : Character) : Character :=
  mkCharacter (playerId c) (position c) (velocity c) (facingRight c) (health c)
    (attackCooldownTimer c) (isAttacking c) (isHitStunned c) (lastHitStun c)
    (attackHitbox c) (isGrounded c) (elementalMode c) (currentState c)
    (states c) f (opponent c) (notified c).

Definition set_opponent (o : option Ref) (c : Character) : Character :=
  mkCharacter (playerId c) (position c) (velocity c) (facingRight c) (health c)
    (attackCooldownTimer c) (isAttacking c) (isHitStunned c) (lastHitStun c)
    (attackHitbox c) (isGrounded c) (elementalMode c) (currentState c)
    (states c) (inputFlags c) o (notified c).

(** [this.notify(e)]: the event reaches the observers of this character. *)
Definition notify (e : GameEvent) (c : Character) : Character :=
  mkCharacter (playerId c) (position c) (velocity c) (facingRight c) (health c)
    (attackCooldownTimer c) (isAttacking c) (isHitStunned c) (lastHitStun c)
    (attackHitbox c) (isGrounded c) (elementalMode c) (currentState c)
    (states c) (inputFlags c) (opponent c) (e :: notified c).

(** Assignments to one coordinate of [position] or [velocity]. *)
Definition set_position_x (v : Q) (c : Character) : Character :=
  set_position (Vector2.mk v (Vector2.y (position c))) c.
Definition set_position_y (v : Q) (c : Character) : Character :=
  set_position (Vector2.mk (Vector2.x (position c)) v) c.
Definition set_velocity_x (v : Q) (c : Character) : Character :=
  set_velocity (Vector2.mk v (Vector2.y (velocity c))) c.
Definition set_velocity_y (v : Q) (c : Character) : Character :=
  set_velocity (Vector2.mk (Vector2.x (velocity c)) v) c.

(** Assignments to the fields of the state objects. *)
Definition set_attackTimer (t : Q) (c : Character) : Character :=
  set_states
    (mkStates (AttackStateData.mk t (AttackStateData.hasHit (attack (states c))))
              (hit (states c))) c.
Definition set_hasHit (b : bool) (c : Character) : Character :=
  set_states
    (mkStates (AttackStateData.mk (AttackStateData.attackTimer (attack (states c))) b)
              (hit (states c))) c.
Definition set_stunTimer (t : Q) (c : Character) : Character :=
  set_states
    (mkStates (attack (states c))
              (HitStateData.mk t (HitStateData.stunDuration (hit (states c))))) c.
Definition set_stunDuration (t : Q) (c : Character) : Character :=
  set_states
    (mkStates (attack (states c))
              (HitStateData.mk (HitStateData.stunTimer (hit (states c))) t)) c.

Definition attackTimer (c : Character) : Q :=
  AttackStateData.attackTimer (attack (states c)).
Definition hasHit (c : Character) : bool :=
  AttackStateData.hasHit (attack (states c)).
Definition stunTimer (c : Character) : Q :=
  HitStateData.stunTimer (hit (states c)).
Definition stunDuration (c : Character) : Q :=
  HitStateData.stunDuration (hit (states c)).

(** ** The store of the two combatants *)

Record World : Type := mkWorld { player1 : Character; player2 : Character }.

Definition getC (r : Ref) (w : World) : Character :=
  match r with RefP1 => player1 w | RefP2 => player2 w end.

Definition setC (r : Ref) (c : Character) (w : World) : World :=
  match r with
  | RefP1 => mkWorld c (player2 w)
  | RefP2 => mkWorld (player1 w) c
  end.

(** Run a method that only touches [this] on the object behind [r]. *)
Definition modify (r : Ref) (f : Character -> Character) (w : World) : World :=
  setC r (f (getC r w)) w.

(** ** Completions: a method returns normally or throws *)

Inductive JsError : Type := TypeError.

Inductive Completion (A : Type) : Type :=
| Normal (a : A)
| Throw (e : JsError).
Arguments Normal {A} a.
Arguments Throw {A} e.

Definition bind {A B : Type} (m : Completion A) (k : A -> Completion B)
    : Completion B :=
  match m with
  | Normal a => k a
  | Throw e => Throw e
  end.

Notation "x <- m ;; k" := (bind m (fun x => k))
  (at level 61, m at next level, right associativity).

(** [o.f] for a reference [o] that may be [null]. *)
Definition deref {A : Type} (o : option A) : Completion A :=
  match o with
  | Some a => Normal a
  | None => Throw TypeError
  end.

(** ** Parts of the repository the embedding takes as parameters *)

(** Modelled from the spec: [constants/GameConfig.ts] is not among the
    sources; the constants the code imports from it are the fields of this
    record and every theorem holds for all their values. *)
Record GameConfig : Type := mkConfig {
  CHARACTER_WIDTH : Q;
  CHARACTER_HEIGHT : Q;
  GROUND_Y : Q;
  GRAVITY : Q;
  MAX_HEALTH : Q;
  ATTACK_COOLDOWN : Q;
  ATTACK_WIDTH : Q;
  ATTACK_HEIGHT : Q;
  CANVAS_WIDTH : Q;
  ATTACK_DURATION : Q;
  HIT_STUN_DURATION : Q;
  CHARACTER_SPEED : Q;
  JUMP_FORCE : Q;
  PLAYER1_START : Vector2.t;
  PLAYER2_START : Vector2.t
}.

Existing Class GameConfig.

(** Modelled from the spec: [patterns/strategy] ([IElementalMode],
    [FireModeStrategy], [WaterModeStrategy]) is not among the sources.  A
    strategy is the immutable constant set of the spec: a name, two
    multipliers, an attack function producing an [AttackResult] from the
    attacker and its opponent, and a defend function reducing an incoming
    damage.  Both functions read their arguments and change nothing. *)
Module IElementalMode.
Record t : Type := mk {
    name : string;
    damageMultiplier : Q;
    attackSpeedMultiplier : Q;
    attack : Character -> Character -> AttackResult.t;
    defend : Character -> Q -> Q
  }.
End IElementalMode.

(** The two strategy objects every [Character] constructs; the classes take
    no constructor argument, so the objects of the two combatants behave
    alike. *)
Class Strategies : Type := mkStrategies {
  fireModeStrategy : IElementalMode.t;
  waterModeStrategy : IElementalMode.t
}.

Definition isSome {A : Type} (o : option A) : bool :=
  match o with Some _ => true | None => false end.

(** ** The engine and the input handler *)

(** [GameState] of [types.ts], as [GameEngine] builds and reads it. *)
Module GameState.
Record t : Type := mk {
  isRunning : bool;
  isPaused : bool;
  winner : option PlayerId;
  roundTime : Q
}.
End GameState.

(** [KeyBindings]: the six key codes [InputHandler] reads. *)
Module KeyBindings.
Record t : Type := mk {
  left : string;
  right : string;
  up : string;
  down : string;
  attack : string;
  switchMode : string
}.
End KeyBindings.

(** Modelled from the spec: the two binding tables are constants of
    [constants/GameConfig.ts], which is not among the sources. *)
Class KeyConfig : Type := mkKeyConfig {
  PLAYER1_KEYS : KeyBindings.t;
  PLAYER2_KEYS : KeyBindings.t
}.

Definition PlayerId_eqb (a b : PlayerId) : bool :=
  match a, b with
  | Player1, Player1 | Player2, Player2 => true
  | _, _ => false
  end.

(** A JavaScript [Map]: the entries in insertion order, one per key.
    [set] on a key that is present replaces its value in place, [forEach]
    visits the entries in order. *)
Section JsMap.

Variables (K V : Type) (eqb : K -> K -> bool).

Fixpoint Map_get (m : list (K * V)) (k : K) : option V :=
  match m with
  | [] => None
  | (k', v) :: rest => if eqb k' k then Some v else Map_get rest k
  end.

Fixpoint Map_set (m : list (K * V)) (k : K) (v : V) : list (K * V) :=
  match m with
  | [] => [(k, v)]
  | (k', v') :: rest =>
      if eqb k' k then (k', v) :: rest else (k', v') :: Map_set rest k v
  end.

Fixpoint Map_delete (m : list (K * V)) (k : K) : list (K * V) :=
  match m with
  | [] => []
  | (k', v') :: rest =>
      if eqb k' k then rest else (k', v') :: Map_delete rest k
  end.

Fixpoint Map_forEach (T : Type) (f : V -> K -> T -> T) (m : list (K * V)) (s : T)
    : T :=
  match m with
  | [] => s
  | (k, v) :: rest => Map_forEach f rest (f v k s)
  end.

End JsMap.

(** [PlayerInput] of [InputHandler.ts]: [character] is a reference to one of
    the two combatants. *)
Module PlayerInput.
Record t : Type := mk { character : Ref; keyBindings : KeyBindings.t }.
End PlayerInput.

Module InputHandler.
Record t : Type := mk {
  players : list (PlayerId * PlayerInput.t);
  keyState : list (string * bool);
  switchModePressed : list (PlayerId * bool)
}.
Definition new : t := mk [] [] [].
End InputHandler.

(** The fields of [GameEngine] the simulation reads.  [player1] and
    [player2] are [null] until [init] assigns both; the canvas, the particle
    system, the HUD and the frame counter only feed the rendering and are
    left out. *)
Module GameEngine.
Record t : Type := mk {
  isRunning : bool;
  lastTime : Q;
  players : option World;
  inputHandler : InputHandler.t;
  gameState : GameState.t
}.
(** The engine as its constructor leaves it. *)
Definition new : t :=
  mk false 0 None InputHandler.new (GameState.mk false false None 0).
End GameEngine.

Section Simulation.

Context {cfg : GameConfig} {strategies : Strategies}.

(** *** [Character]: read-only fields and accessors *)

Definition width (_ : Character) : Q := CHARACTER_WIDTH cfg.
Definition height (_ : Character) : Q := CHARACTER_HEIGHT cfg.
Definition maxHealth (_ : Character) : Q := MAX_HEALTH cfg.

(** The strategy object [this.elementalMode] refers to. *)
Definition getElementalMode (c : Character) : IElementalMode.t :=
  match elementalMode c with
  | Fire => fireModeStrategy
  | Water => waterModeStrategy
  end.

Definition getModeName (c : Character) : string :=
  IElementalMode.name (getElementalMode c).

Definition getHurtbox (c : Character) : Rectangle.t :=
  Rectangle.mk (Vector2.x (position c)) (Vector2.y (position c))
               (width c) (height c).

Definition getAttackHitbox (c : Character) : option Hitbox.t := attackHitbox c.

Definition isDefeated (c : Character) : bool := Qle_bool (health c) 0.

(** *** [Character]: physics and cooldown *)

Definition applyGravity (deltaTime : Q) (c : Character) : Character :=
  if negb (isGrounded c)
  then set_velocity_y (Vector2.y (velocity c) + GRAVITY cfg * deltaTime) c
  else c.

Definition checkGroundCollision (c : Character) : Character :=
  let groundLevel := GROUND_Y cfg - height c in
  if Qle_bool groundLevel (Vector2.y (position c))
  then set_isGrounded true (set_velocity_y 0 (set_position_y groundLevel c))
  else set_isGrounded false c.

Definition checkBoundaries (c : Character) : Character :=
  let c1 :=
    if Qltb (Vector2.x (position c)) 0
    then set_velocity_x 0 (set_position_x 0 c)
    else c in
  if Qltb (CANVAS_WIDTH cfg) (Vector2.x (position c1) + width c1)
  then set_velocity_x 0 (set_position_x (CANVAS_WIDTH cfg - width c1) c1)
  else c1.

Definition canAttack (c : Character) : bool :=
  Qle_bool (attackCooldownTimer c) 0 && negb (isHitStunned c).

Definition startAttackCooldown (c : Character) : Character :=
  set_attackCooldownTimer
    (ATTACK_COOLDOWN cfg / IElementalMode.attackSpeedMultiplier (getElementalMode c))
    c.

(** *** [Character]: the attack hitbox *)

Definition updateAttackHitbox (c : Character) : Character :=
  match attackHitbox c with
  | None => c
  | Some hb =>
      let hitboxX :=
        if facingRight c
        then Vector2.x (position c) + width c
        else Vector2.x (position c) - ATTACK_WIDTH cfg in
      let hitboxY :=
        Vector2.y (position c) + height c / 2 - ATTACK_HEIGHT cfg / 2 in
      set_attackHitbox
        (Some (Hitbox.set_active true
                 (Hitbox.init hitboxX hitboxY (ATTACK_WIDTH cfg) (ATTACK_HEIGHT cfg)
                    (PlayerId_toString (playerId c))
                    (IElementalMode.damageMultiplier (getElementalMode c) * 10)
                    hb)))
        c
  end.

Definition createAttackHitbox (c : Character) : Character :=
  updateAttackHitbox (set_attackHitbox (Some Hitbox.new) c).

Definition removeAttackHitbox (c : Character) : Character :=
  match attackHitbox c with
  | Some _ => set_attackHitbox None c
  | None => c
  end.

(** *** The behaviour states: [enter], [exit], [canTransition] and the
    [update] of the states that only touch their own character *)

Definition IdleState_enter (c : Character) : Character := set_velocity_x 0 c.

Definition IdleState_update (deltaTime : Q) (c : Character) : Character :=
  checkGroundCollision (applyGravity deltaTime c).

Definition IdleState_exit (c : Character) : Character := c.

Definition IdleState_canTransition (c : Character) : option StateName :=
  if InputFlags.attack (inputFlags c) && canAttack c then Some Attack
  else if InputFlags.moving (inputFlags c) then Some Move
  else None.

Definition MoveState_enter (c : Character) : Character := c.

Definition MoveState_update (deltaTime : Q) (c : Character) : Character :=
  let moveX := 0 in
  let '(moveX, c) :=
    if InputFlags.left (inputFlags c)
    then (moveX - 1, set_facingRight false c) else (moveX, c) in
  let '(moveX, c) :=
    if InputFlags.right (inputFlags c)
    then (moveX + 1, set_facingRight true c) else (moveX, c) in
  let c := set_velocity_x (moveX * CHARACTER_SPEED cfg) c in
  let c :=
    if InputFlags.up (inputFlags c) && isGrounded c
    then set_isGrounded false (set_velocity_y (JUMP_FORCE cfg) c)
    else c in
  let c := applyGravity deltaTime c in
  let c := set_position_x
             (Vector2.x (position c) + Vector2.x (velocity c) * deltaTime) c in
  let c := set_position_y
             (Vector2.y (position c) + Vector2.y (velocity c) * deltaTime) c in
  checkBoundaries (checkGroundCollision c).

Definition MoveState_exit (c : Character) : Character := set_velocity_x 0 c.

Definition MoveState_canTransition (c : Character) : option StateName :=
  if InputFlags.attack (inputFlags c) && canAttack c then Some Attack
  else if negb (InputFlags.moving (inputFlags c)) then Some Idle
  else None.

Definition AttackState_enter (c : Character) : Character :=
  let c := set_attackTimer 0 c in
  let c := set_hasHit false c in
  let c := set_isAttacking true c in
  let c := startAttackCooldown c in
  createAttackHitbox c.

Definition AttackState_exit (c : Character) : Character :=
  removeAttackHitbox (set_isAttacking false c).

Definition AttackState_canTransition (c : Character) : option StateName :=
  if Qle_bool (ATTACK_DURATION cfg) (attackTimer c)
  then (if InputFlags.moving (inputFlags c) then Some Move else Some Idle)
  else None.

(** [a || b] on numbers: [a] unless it is falsy, that is, zero. *)
Definition number_or (a b : Q) : Q := if Qeq_bool a 0 then b else a.

Definition HitState_enter (c : Character) : Character :=
  let c := set_stunTimer 0 c in
  let c := set_stunDuration (number_or (lastHitStun c) (HIT_STUN_DURATION cfg)) c in
  set_isHitStunned true c.

Definition HitState_update (deltaTime : Q) (c : Character) : Character :=
  let c := set_stunTimer (stunTimer c + deltaTime * 1000) c in
  let c := set_velocity_x (Vector2.x (velocity c) * (9 # 10)) c in
  let c := applyGravity deltaTime c in
  let c := set_position_x
             (Vector2.x (position c) + Vector2.x (velocity c) * deltaTime) c in
  let c := set_position_y
             (Vector2.y (position c) + Vector2.y (velocity c) * deltaTime) c in
  checkBoundaries (checkGroundCollision c).

Definition HitState_exit (c : Character) : Character :=
  set_lastHitStun 0 (set_isHitStunned false c).

Definition HitState_canTransition (c : Character) : option StateName :=
  if Qle_bool (stunDuration c) (stunTimer c) then Some Idle else None.

(** Dynamic dispatch on the state object. *)
Definition State_enter (s : StateName) (c : Character) : Character :=
  match s with
  | Idle => IdleState_enter c
  | Move => MoveState_enter c
  | Attack => AttackState_enter c
  | Hit => HitState_enter c
  end.

Definition State_exit (s : StateName) (c : Character) : Character :=
  match s with
  | Idle => IdleState_exit c
  | Move => MoveState_exit c
  | Attack => AttackState_exit c
  | Hit => HitState_exit c
  end.

Definition State_canTransition (s : StateName) (c : Character) : option StateName :=
  match s with
  | Idle => IdleState_canTransition c
  | Move => MoveState_canTransition c
  | Attack => AttackState_canTransition c
  | Hit => HitState_canTransition c
  end.

(** *** [Character]: transitions, damage, mode switch, reset *)

Definition transitionTo (newState : StateName) (c : Character) : Character :=
  let c := State_exit (currentState c) c in
  let c := set_currentState newState c in
  State_enter (currentState c) c.

Definition toggleMode (m : ModeName) : ModeName :=
  match m with Fire => Water | Water => Fire end.

Definition switchElementalMode (c : Character) : Character :=
  if isAttacking c || isHitStunned c then c
  else
    let c := set_elementalMode (toggleMode (elementalMode c)) c in
    notify (ModeChangeEvent (playerId c) (IElementalMode.name (getElementalMode c))) c.

Definition takeDamage (attackResult : AttackResult.t) (c : Character) : Character :=
  let reducedDamage :=
    IElementalMode.defend (getElementalMode c) c (AttackResult.damage attackResult) in
  let c := set_health (Qmax 0 (health c - reducedDamage)) c in
  let c := set_velocity_x (Vector2.x (AttackResult.knockback attackResult)) c in
  let c := set_velocity_y (Vector2.y (AttackResult.knockback attackResult)) c in
  let c := set_lastHitStun (AttackResult.hitStun attackResult) c in
  let c := transitionTo Hit c in
  notify (HealthChangeEvent (playerId c) (health c) (maxHealth c) reducedDamage) c.

Definition reset (startPosition : Vector2.t) (c : Character) : Character :=
  let c := set_position startPosition c in
  let c := set_velocity (Vector2.mk 0 0) c in
  let c := set_health (MAX_HEALTH cfg) c in
  let c := set_isGrounded true c in
  let c := set_isAttacking false c in
  let c := set_isHitStunned false c in
  let c := set_attackCooldownTimer 0 c in
  let c := set_attackHitbox None c in
  let c := transitionTo Idle c in
  let c := set_inputFlags InputFlags.none c in
  notify (HealthChangeEvent (playerId c) (health c) (maxHealth c) 0) c.

(** [new Character(playerId, characterType, position, keyBindings, facingRight)] *)
Definition newCharacter (playerId : PlayerId) (position : Vector2.t)
    (facingRight : bool) : Character :=
  let c :=
    mkCharacter playerId position (Vector2.mk 0 0) facingRight (MAX_HEALTH cfg)
      0 false false 0 None true Fire Idle
      (mkStates (AttackStateData.mk 0 false)
                (HitStateData.mk 0 (HIT_STUN_DURATION cfg)))
      InputFlags.none None [] in
  State_enter (currentState c) c.

Definition setOpponent (o : Ref) (c : Character) : Character :=
  set_opponent (Some o) c.

(** *** Methods that reach the opponent through the store *)

(** [Character.checkAttackHit] on the object behind [self]. *)
Definition checkAttackHit (self : Ref) (w : World) : Completion (bool * World) :=
  let this := getC self w in
  if negb (isSome (attackHitbox this)) || negb (isSome (opponent this))
  then Normal (false, w)
  else
    opp <- deref (opponent this) ;;
    hb <- deref (attackHitbox this) ;;
    let opponentRect := getHurtbox (getC opp w) in
    if Hitbox.intersects hb opponentRect
    then
      let result :=
        IElementalMode.attack (getElementalMode this) this (getC opp w) in
      Normal (true, modify opp (takeDamage result) w)
    else Normal (false, w).

(** The part of [AttackState.update] before the hit check. *)
Definition AttackState_advance (deltaTime : Q) (c : Character) : Character :=
  let c := set_attackTimer (attackTimer c + deltaTime * 1000) c in
  let c := applyGravity deltaTime c in
  let c := set_position_y
             (Vector2.y (position c) + Vector2.y (velocity c) * deltaTime) c in
  let c := checkGroundCollision c in
  updateAttackHitbox c.

Definition AttackState_update (self : Ref) (deltaTime : Q) (w : World)
    : Completion World :=
  let w := modify self (AttackState_advance deltaTime) w in
  if negb (hasHit (getC self w))
  then
    r <- checkAttackHit self w ;;
    let '(hit, w) := r in
    if hit then Normal (modify self (set_hasHit true) w) else Normal w
  else Normal w.

Definition State_update (s : StateName) (self : Ref) (deltaTime : Q) (w : World)
    : Completion World :=
  match s with
  | Idle => Normal (modify self (IdleState_update deltaTime) w)
  | Move => Normal (modify self (MoveState_update deltaTime) w)
  | Attack => AttackState_update self deltaTime w
  | Hit => Normal (modify self (HitState_update deltaTime) w)
  end.

Definition tickCooldown (deltaTime : Q) (c : Character) : Character :=
  if Qltb 0 (attackCooldownTimer c)
  then set_attackCooldownTimer (attackCooldownTimer c - deltaTime * 1000) c
  else c.

(** [Character.update] on the object behind [self]. *)
Definition update (self : Ref) (deltaTime : Q) (w : World) : Completion World :=
  let w := modify self (tickCooldown deltaTime) w in
  w <- State_update (currentState (getC self w)) self deltaTime w ;;
  let this := getC self w in
  match State_canTransition (currentState this) this with
  | Some newState => Normal (modify self (transitionTo newState) w)
  | None => Normal w
  end.

(** *** [Command.ts] *)

Inductive Direction : Type := DirLeft | DirRight | DirUp | DirDown.

Inductive Command : Type :=
| MoveCommand (direction : Direction) (pressed : bool)
| AttackCommand (pressed : bool)
| SwitchModeCommand.

Definition MoveCommand_execute (direction : Direction) (pressed : bool)
    (c : Character) : Character :=
  let f := inputFlags c in
  let f :=
    match direction with
    | DirLeft =>
        InputFlags.mk pressed (InputFlags.right f) (InputFlags.up f)
          (InputFlags.down f) (InputFlags.attack f) (InputFlags.moving f)
    | DirRight =>
        InputFlags.mk (InputFlags.left f) pressed (InputFlags.up f)
          (InputFlags.down f) (InputFlags.attack f) (InputFlags.moving f)
    | DirUp =>
        InputFlags.mk (InputFlags.left f) (InputFlags.right f) pressed
          (InputFlags.down f) (InputFlags.attack f) (InputFlags.moving f)
    | DirDown =>
        InputFlags.mk (InputFlags.left f) (InputFlags.right f) (InputFlags.up f)
          pressed (InputFlags.attack f) (InputFlags.moving f)
    end in
  set_inputFlags
    (InputFlags.mk (InputFlags.left f) (InputFlags.right f) (InputFlags.up f)
       (InputFlags.down f) (InputFlags.attack f)
       (InputFlags.left f || InputFlags.right f || InputFlags.up f
        || InputFlags.down f))
    c.

Definition AttackCommand_execute (pressed : bool) (c : Character) : Character :=
  let f := inputFlags c in
  set_inputFlags
    (InputFlags.mk (InputFlags.left f) (InputFlags.right f) (InputFlags.up f)
       (InputFlags.down f) pressed (InputFlags.moving f))
    c.

Definition execute (cmd : Command) (c : Character) : Character :=
  match cmd with
  | MoveCommand d p => MoveCommand_execute d p c
  | AttackCommand p => AttackCommand_execute p c
  | SwitchModeCommand => switchElementalMode c
  end.

(** *** [CollisionSystem] *)

Definition checkAABB (a b : Rectangle.t) : bool :=
  Qltb (Rectangle.x a) (Rectangle.x b + Rectangle.width b) &&
  Qltb (Rectangle.x b) (Rectangle.x a + Rectangle.width a) &&
  Qltb (Rectangle.y a) (Rectangle.y b + Rectangle.height b) &&
  Qltb (Rectangle.y b) (Rectangle.y a + Rectangle.height a).

Definition checkCharacterCollision (a b : Character) : bool :=
  checkAABB (getHurtbox a) (getHurtbox b).

Definition resolveCharacterCollision (a b : Ref) (w : World) : World :=
  if negb (checkCharacterCollision (getC a w) (getC b w)) then w
  else
    let aBox := getHurtbox (getC a w) in
    let bBox := getHurtbox (getC b w) in
    let overlapX :=
      Qmin (Rectangle.x aBox + Rectangle.width aBox - Rectangle.x bBox)
           (Rectangle.x bBox + Rectangle.width bBox - Rectangle.x aBox) in
    let pushAmount := overlapX / 2 in
    if Qltb (Vector2.x (position (getC a w))) (Vector2.x (position (getC b w)))
    then
      let w := modify a (fun c => set_position_x (Vector2.x (position c) - pushAmount) c) w in
      modify b (fun c => set_position_x (Vector2.x (position c) + pushAmount) c) w
    else
      let w := modify a (fun c => set_position_x (Vector2.x (position c) + pushAmount) c) w in
      modify b (fun c => set_position_x (Vector2.x (position c) - pushAmount) c) w.

Definition getCollisionPoint (a b : Rectangle.t) : option Vector2.t :=
  if negb (checkAABB a b) then None
  else
    let overlapX := Qmax (Rectangle.x a) (Rectangle.x b) in
    let overlapY := Qmax (Rectangle.y a) (Rectangle.y b) in
    let overlapRight :=
      Qmin (Rectangle.x a + Rectangle.width a) (Rectangle.x b + Rectangle.width b) in
    let overlapBottom :=
      Qmin (Rectangle.y a + Rectangle.height a) (Rectangle.y b + Rectangle.height b) in
    Some (Vector2.mk ((overlapX + overlapRight) / 2) ((overlapY + overlapBottom) / 2)).

(** *** [CharacterFactory.createMatchPlayers] *)

Definition createPlayer (playerId : PlayerId) (customPosition : option Vector2.t)
    : Character :=
  let position :=
    match customPosition with
    | Some p => p
    | None =>
        match playerId with
        | Player1 => PLAYER1_START cfg
        | Player2 => PLAYER2_START cfg
        end
    end in
  let facingRight := match playerId with Player1 => true | Player2 => false end in
  newCharacter playerId (Vector2.mk (Vector2.x position) (Vector2.y position))
    facingRight.

Definition createMatchPlayers : World :=
  let w := mkWorld (createPlayer Player1 None) (createPlayer Player2 None) in
  let w := modify RefP1 (setOpponent RefP2) w in
  modify RefP2 (setOpponent RefP1) w.

(** *** The public operations a driver performs on the two combatants *)

Inductive Op : Type :=
| OpUpdate (r : Ref) (deltaTime : Q)
| OpTakeDamage (r : Ref) (attackResult : AttackResult.t)
| OpSwitchElementalMode (r : Ref)
| OpReset (r : Ref) (startPosition : Vector2.t)
| OpSetOpponent (r o : Ref)
| OpExecute (r : Ref) (cmd : Command)
| OpResolveCharacterCollision (a b : Ref).

Definition step (op : Op) (w : World) : Completion World :=
  match op with
  | OpUpdate r dt => update r dt w
  | OpTakeDamage r res => Normal (modify r (takeDamage res) w)
  | OpSwitchElementalMode r => Normal (modify r switchElementalMode w)
  | OpReset r p => Normal (modify r (reset p) w)
  | OpSetOpponent r o => Normal (modify r (setOpponent o) w)
  | OpExecute r cmd => Normal (modify r (execute cmd) w)
  | OpResolveCharacterCollision a b => Normal (resolveCharacterCollision a b w)
  end.

Fixpoint run (ops : list Op) (w : World) : Completion World :=
  match ops with
  | [] => Normal w
  | op :: rest => w' <- step op w ;; run rest w'
  end.

(** *** [InputHandler] *)

Context {keys : KeyConfig}.

Definition registerPlayer (character : Ref) (w : World) (h : InputHandler.t)
    : InputHandler.t :=
  let keyBindings :=
    match playerId (getC character w) with
    | Player1 => PLAYER1_KEYS
    | Player2 => PLAYER2_KEYS
    end in
  InputHandler.mk
    (Map_set PlayerId_eqb (InputHandler.players h) (playerId (getC character w))
       (PlayerInput.mk character keyBindings))
    (InputHandler.keyState h)
    (Map_set PlayerId_eqb (InputHandler.switchModePressed h)
       (playerId (getC character w)) false).

Definition unregisterPlayer (playerId : PlayerId) (h : InputHandler.t)
    : InputHandler.t :=
  InputHandler.mk
    (Map_delete PlayerId_eqb (InputHandler.players h) playerId)
    (InputHandler.keyState h)
    (Map_delete PlayerId_eqb (InputHandler.switchModePressed h) playerId).

Definition set_keyState (m : list (string * bool)) (h : InputHandler.t)
    : InputHandler.t :=
  InputHandler.mk (InputHandler.players h) m (InputHandler.switchModePressed h).

Definition set_switchModePressed (m : list (PlayerId * bool)) (h : InputHandler.t)
    : InputHandler.t :=
  InputHandler.mk (InputHandler.players h) (InputHandler.keyState h) m.

(** The command a key event means for one player, and the handler after the
    bookkeeping of the switch key. *)
Definition mapKeyToCommand (keyCode : string) (bindings : KeyBindings.t)
    (pressed : bool) (playerId : PlayerId) (h : InputHandler.t)
    : option Command * InputHandler.t :=
  if String.eqb keyCode (KeyBindings.left bindings) then
    (Some (MoveCommand DirLeft pressed), h)
  else if String.eqb keyCode (KeyBindings.right bindings) then
    (Some (MoveCommand DirRight pressed), h)
  else if String.eqb keyCode (KeyBindings.up bindings) then
    (Some (MoveCommand DirUp pressed), h)
  else if String.eqb keyCode (KeyBindings.down bindings) then
    (Some (MoveCommand DirDown pressed), h)
  else if String.eqb keyCode (KeyBindings.attack bindings) then
    (Some (AttackCommand pressed), h)
  else if String.eqb keyCode (KeyBindings.switchMode bindings) && pressed then
    let wasPressed :=
      match Map_get PlayerId_eqb (InputHandler.switchModePressed h) playerId with
      | Some b => b
      | None => false
      end in
    if negb wasPressed then
      (Some SwitchModeCommand,
       set_switchModePressed
         (Map_set PlayerId_eqb (InputHandler.switchModePressed h) playerId true) h)
    else (None, h)
  else (None, h).

Definition runCommand (command : option Command) (character : Ref) (w : World)
    : World :=
  match command with
  | Some c => modify character (execute c) w
  | None => w
  end.

Definition keyDownFor (code : string) (playerInput : PlayerInput.t)
    (playerId : PlayerId) (s : InputHandler.t * World) : InputHandler.t * World :=
  let '(command, h) :=
    mapKeyToCommand code (PlayerInput.keyBindings playerInput) true playerId (fst s) in
  (h, runCommand command (PlayerInput.character playerInput) (snd s)).

(** [isGameKey] only decides whether the browser's default action for the
    key is suppressed; the handler and the characters do not depend on it. *)
Definition handleKeyDown (code : string) (s : InputHandler.t * World)
    : InputHandler.t * World :=
  let h := set_keyState
             (Map_set String.eqb (InputHandler.keyState (fst s)) code true) (fst s) in
  Map_forEach (keyDownFor code) (InputHandler.players h) (h, snd s).

Definition keyUpFor (code : string) (playerInput : PlayerInput.t)
    (playerId : PlayerId) (s : InputHandler.t * World) : InputHandler.t * World :=
  let '(command, h) :=
    mapKeyToCommand code (PlayerInput.keyBindings playerInput) false playerId (fst s) in
  let w := runCommand command (PlayerInput.character playerInput) (snd s) in
  if String.eqb code (KeyBindings.switchMode (PlayerInput.keyBindings playerInput))
  then
    (set_switchModePressed
       (Map_set PlayerId_eqb (InputHandler.switchModePressed h) playerId false) h,
     w)
  else (h, w).

Definition handleKeyUp (code : string) (s : InputHandler.t * World)
    : InputHandler.t * World :=
  let h := set_keyState
             (Map_set String.eqb (InputHandler.keyState (fst s)) code false) (fst s) in
  Map_forEach (keyUpFor code) (InputHandler.players h) (h, snd s).

Definition isKeyPressed (keyCode : string) (h : InputHandler.t) : bool :=
  match Map_get String.eqb (InputHandler.keyState h) keyCode with
  | Some b => b
  | None => false
  end.

(** *** [GameEngine] *)

Definition set_gameState (g : GameState.t) (e : GameEngine.t) : GameEngine.t :=
  GameEngine.mk (GameEngine.isRunning e) (GameEngine.lastTime e)
    (GameEngine.players e) (GameEngine.inputHandler e) g.

Definition set_players (w : World) (e : GameEngine.t) : GameEngine.t :=
  GameEngine.mk (GameEngine.isRunning e) (GameEngine.lastTime e)
    (Some w) (GameEngine.inputHandler e) (GameEngine.gameState e).

Definition set_winner (p : PlayerId) (g : GameState.t) : GameState.t :=
  GameState.mk (GameState.isRunning g) (GameState.isPaused g) (Some p)
    (GameState.roundTime g).

(** [init]; the subscription of the HUD to the two characters is part of
    the presentation and left out, as are the console messages. *)
Definition GameEngine_init (e : GameEngine.t) : GameEngine.t :=
  let w := createMatchPlayers in
  let h := registerPlayer RefP1 w (GameEngine.inputHandler e) in
  let h := registerPlayer RefP2 w h in
  GameEngine.mk (GameEngine.isRunning e) (GameEngine.lastTime e) (Some w) h
    (GameState.mk true false None 0).

(** [showVictory] writes to the console and arms the timer that calls
    [restart] three seconds later; the timer is the driver's business. *)
Definition checkVictory (e : GameEngine.t) : GameEngine.t :=
  match GameEngine.players e with
  | None => e
  | Some w =>
      let g := GameEngine.gameState e in
      if isDefeated (getC RefP1 w) && negb (isSome (GameState.winner g)) then
        set_gameState (set_winner Player2 g) e
      else if isDefeated (getC RefP2 w) && negb (isSome (GameState.winner g)) then
        set_gameState (set_winner Player1 g) e
      else e
  end.

(** [update]: the particle system, the HUD tick and
    [checkAndSpawnHitParticles] read the characters and draw; they change
    neither the characters nor the game state. *)
Definition GameEngine_update (deltaTime : Q) (e : GameEngine.t)
    : Completion GameEngine.t :=
  match GameEngine.players e with
  | None => Normal e
  | Some w =>
      let g := GameEngine.gameState e in
      let e := set_gameState
                 (GameState.mk (GameState.isRunning g) (GameState.isPaused g)
                    (GameState.winner g) (GameState.roundTime g + deltaTime)) e in
      w <- update RefP1 deltaTime w ;;
      w <- update RefP2 deltaTime w ;;
      let w := resolveCharacterCollision RefP1 RefP2 w in
      Normal (checkVictory (set_players w e))
  end.

Definition restart (e : GameEngine.t) : GameEngine.t :=
  match GameEngine.players e with
  | None => e
  | Some w =>
      let w := modify RefP1 (reset (PLAYER1_START cfg)) w in
      let w := modify RefP2 (reset (PLAYER2_START cfg)) w in
      set_gameState (GameState.mk true false None 0) (set_players w e)
  end.

(** One call of [gameLoop]; the frame counter, [render] and the request
    for the next animation frame are left to the driver. *)
Definition gameLoop (currentTime : Q) (e : GameEngine.t) : Completion GameEngine.t :=
  if negb (GameEngine.isRunning e) then Normal e
  else
    let deltaTime := (currentTime - GameEngine.lastTime e) / 1000 in
    let e := GameEngine.mk (GameEngine.isRunning e) currentTime
               (GameEngine.players e) (GameEngine.inputHandler e)
               (GameEngine.gameState e) in
    let cappedDelta := Qmin deltaTime (1 # 10) in
    if negb (GameState.isPaused (GameEngine.gameState e))
    then GameEngine_update cappedDelta e
    else Normal e.

Definition togglePause (e : GameEngine.t) : GameEngine.t :=
  let g := GameEngine.gameState e in
  set_gameState
    (GameState.mk (GameState.isRunning g) (negb (GameState.isPaused g))
       (GameState.winner g) (GameState.roundTime g)) e.

(** ** Vocabulary of the statements *)

(** The width of the intersection of the horizontal extents of two
    rectangles. *)
Definition overlapWidth (a b : Rectangle.t) : Q :=
  Qmin (Rectangle.x a + Rectangle.width a) (Rectangle.x b + Rectangle.width b)
  - Qmax (Rectangle.x a) (Rectangle.x b).

(** The end of [Character.update]: the transition the current state asks
    for, if any. *)
Definition applyTransition (c : Character) : Character :=
  match State_canTransition (currentState c) c with
  | Some newState => transitionTo newState c
  | None => c
  end.

(** The [update] of the three states that only touch their own character. *)
Definition localUpdate (s : StateName) (deltaTime : Q) (c : Character) : Character :=
  match s with
  | Idle => IdleState_update deltaTime c
  | Move => MoveState_update deltaTime c
  | Attack => c
  | Hit => HitState_update deltaTime c
  end.

Definition stable (P : Character -> Prop) (f : Character -> Character) : Prop :=
  forall c, P c -> P (f c).

Definition inAttack (c : Character) : bool :=
  match currentState c with Attack => true | _ => false end.

Definition hitboxInv (c : Character) : Prop :=
  isSome (attackHitbox c) = inAttack c.

Definition isAttackState (s : StateName) : bool :=
  match s with Attack => true | _ => false end.

(** *** The physics of a frame and the combat fields

    Gravity, integration, ground and boundary checks, the cooldown tick and
    the repositioning of the hitbox change the transform, the timers and the
    geometry of the hitbox; they leave the following fields as they are. *)
Definition combat (c : Character) :=
  (playerId c, health c, isAttacking c, isHitStunned c, lastHitStun c,
   isSome (attackHitbox c), elementalMode c, currentState c, hasHit c,
   inputFlags c, opponent c, notified c).

Definition sameCombat (c c' : Character) : Prop := combat c = combat c'.

(** A predicate on the combat fields is kept by the physics. *)
Definition combatOnly (P : Character -> Prop) : Prop :=
  forall c c', sameCombat c c' -> P c -> P c'.

Definition healthInv (c : Character) : Prop :=
  0 <= health c /\ health c <= maxHealth c.

(** Both strategies reduce every incoming damage to a non-negative
    number. *)
Definition defendNonNegative : Prop :=
  forall (c c' : Character) (d : Q),
    0 <= IElementalMode.defend (getElementalMode c) c' d.

(** The precondition of the health bounds at the one [takeDamage] call an
    [update] frame of [self] can make.  If the frame starts in the Attack
    state and, at the hit check, [hasHit] is unset and the hitbox overlaps
    the hurtbox of the opponent, then the reduced damage that the active
    mode of the opponent returns for the damage of this attack is not
    negative.  Nothing is asked of any other damage, character or mode. *)
Definition hitDamageNonNegative (self : Ref) (deltaTime : Q) (w : World) : Prop :=
  let w2 := modify self (AttackState_advance deltaTime)
              (modify self (tickCooldown deltaTime) w) in
  let this := getC self w2 in
  currentState (getC self w) = Attack ->
  hasHit this = false ->
  forall opp hb,
    opponent this = Some opp ->
    attackHitbox this = Some hb ->
    Hitbox.intersects hb (getHurtbox (getC opp w2)) = true ->
    0 <= IElementalMode.defend (getElementalMode (getC opp w2)) (getC opp w2)
           (AttackResult.damage
              (IElementalMode.attack (getElementalMode this) this (getC opp w2))).

(** The update frames of one stay in the Attack state: [update] is called
    with the given elapsed times for as long as the frame starts in the
    Attack state. *)
Fixpoint attackFrames (self : Ref) (deltaTimes : list Q) (w : World)
    : Completion World :=
  match deltaTimes with
  | [] => Normal w
  | deltaTime :: rest =>
      if isAttackState (currentState (getC self w))
      then w' <- update self deltaTime w ;; attackFrames self rest w'
      else Normal w
  end.

(** How many events the two characters have emitted so far.  [takeDamage]
    emits exactly one, and nothing else that an [update] frame calls emits
    any, so the growth of this number over a frame is the number of
    [takeDamage] calls of the frame. *)
Definition emitted (w : World) : nat :=
  (List.length (notified (getC RefP1 w)) + List.length (notified (getC RefP2 w)))%nat.

Definition isUpdateOf (a : Ref) (op : Op) : bool :=
  match op with
  | OpUpdate r _ => Ref_eqb r a
  | _ => false
  end.

(** The hits dealt in one activation of the Attack state of [a]: the
    driver performs [ops]; the activation lasts as long as [a] is in the
    Attack state when an operation starts, and every [update] frame of [a]
    in it contributes the events emitted during the frame. *)
Fixpoint activationHits (a : Ref) (ops : list Op) (w : World) : nat :=
  match ops with
  | [] => 0%nat
  | op :: rest =>
      if isAttackState (currentState (getC a w))
      then
        match step op w with
        | Normal w' =>
            ((if isUpdateOf a op then emitted w' - emitted w else 0)
             + activationHits a rest w')%nat
        | Throw _ => 0%nat
        end
      else 0%nat
  end.

(** A call fails fast when it throws. *)
Definition failsFast {A : Type} (m : Completion A) : Prop :=
  exists e, m = Throw e.


(** [g] has the same value on [c] and on [c']. *)
Definition keeps {A : Type} (g : Character -> A) (c c' : Character) : Prop :=
  g c = g c'.


(** The hitbox [updateAttackHitbox] gives a character that has one: flush
    against the side the character faces, centred on its height. *)
Definition attackHitboxOf (c : Character) : Hitbox.t :=
  Hitbox.mk true
    (if facingRight c
     then Vector2.x (position c) + width c
     else Vector2.x (position c) - ATTACK_WIDTH cfg)
    (Vector2.y (position c) + height c / 2 - ATTACK_HEIGHT cfg / 2)
    (ATTACK_WIDTH cfg) (ATTACK_HEIGHT cfg)
    (PlayerId_toString (playerId c))
    (IElementalMode.damageMultiplier (getElementalMode c) * 10).

(** The hitbox of a character, when it has one, is where
    [updateAttackHitbox] puts it. *)
Definition hitboxTracks (c : Character) : Prop :=
  forall hb, attackHitbox c = Some hb -> hb = attackHitboxOf c.

(** A character at the hit check of an Attack frame: after the cooldown
    tick and the part of [AttackState.update] before the check. *)
Definition atHitCheck (deltaTime : Q) (c : Character) : Character :=
  AttackState_advance deltaTime (tickCooldown deltaTime c).


(** After [checkGroundCollision]: the character is not below the ground
    line (y grows downwards) and [isGrounded] says whether it stands on
    it. *)
Definition groundOK (c : Character) : Prop :=
  Vector2.y (position c) <= GROUND_Y cfg - height c /\
  (isGrounded c = true <-> Vector2.y (position c) == GROUND_Y cfg - height c).

(** After [checkBoundaries]: the hurtbox is inside the canvas. *)
Definition boundsOK (c : Character) : Prop :=
  0 <= Vector2.x (position c) /\
  Vector2.x (position c) + width c <= CANVAS_WIDTH cfg.


(** The moving flag is the disjunction of the four direction flags. *)
Definition movingInv (c : Character) : Prop :=
  InputFlags.moving (inputFlags c) =
    InputFlags.left (inputFlags c) || InputFlags.right (inputFlags c)
    || InputFlags.up (inputFlags c) || InputFlags.down (inputFlags c).

Definition isReset (op : Op) : bool :=
  match op with OpReset _ _ => true | _ => false end.

(** [P] survives the operation, when the operation is a [reset]. *)
Definition resetKeeps (P : Character -> Prop) (op : Op) : Prop :=
  match op with
  | OpReset _ p => forall c, P c -> P (reset p c)
  | _ => True
  end.

(** The branch of [mapKeyToCommand] a key code selects under a binding
    table: the first binding, in the order of the tests, that equals it. *)
Inductive KeyRole : Type :=
| RoleMove (d : Direction)
| RoleAttack
| RoleSwitchMode
| RoleNone.

Definition keyRole (keyCode : string) (bindings : KeyBindings.t) : KeyRole :=
  if String.eqb keyCode (KeyBindings.left bindings) then RoleMove DirLeft
  else if String.eqb keyCode (KeyBindings.right bindings) then RoleMove DirRight
  else if String.eqb keyCode (KeyBindings.up bindings) then RoleMove DirUp
  else if String.eqb keyCode (KeyBindings.down bindings) then RoleMove DirDown
  else if String.eqb keyCode (KeyBindings.attack bindings) then RoleAttack
  else if String.eqb keyCode (KeyBindings.switchMode bindings) then RoleSwitchMode
  else RoleNone.

Definition directionFlag (d : Direction) (f : InputFlags.t) : bool :=
  match d with
  | DirLeft => InputFlags.left f
  | DirRight => InputFlags.right f
  | DirUp => InputFlags.up f
  | DirDown => InputFlags.down f
  end.

(** The key-down of [code] has nothing left to do for one registered
    player: the flag it raises is up, or the switch key is marked held. *)
Definition settled (code : string) (playerInput : PlayerInput.t)
    (playerId : PlayerId) (s : InputHandler.t * World) : Prop :=
  let f := inputFlags (getC (PlayerInput.character playerInput) (snd s)) in
  match keyRole code (PlayerInput.keyBindings playerInput) with
  | RoleMove d => directionFlag d f = true /\ InputFlags.moving f = true
  | RoleAttack => InputFlags.attack f = true
  | RoleSwitchMode =>
      Map_get PlayerId_eqb (InputHandler.switchModePressed (fst s)) playerId
        = Some true
  | RoleNone => True
  end.

(** What key-down events only ever add to: raised flags and held switch
    keys. *)
Definition heldMore (s s' : InputHandler.t * World) : Prop :=
  InputHandler.players (fst s') = InputHandler.players (fst s) /\
  InputHandler.keyState (fst s') = InputHandler.keyState (fst s) /\
  (forall k,
     Map_get PlayerId_eqb (InputHandler.switchModePressed (fst s)) k = Some true ->
     Map_get PlayerId_eqb (InputHandler.switchModePressed (fst s')) k = Some true) /\
  forall r,
    (forall d,
       directionFlag d (inputFlags (getC r (snd s))) = true /\
       InputFlags.moving (inputFlags (getC r (snd s))) = true ->
       directionFlag d (inputFlags (getC r (snd s'))) = true /\
       InputFlags.moving (inputFlags (getC r (snd s'))) = true) /\
    (InputFlags.attack (inputFlags (getC r (snd s))) = true ->
     InputFlags.attack (inputFlags (getC r (snd s'))) = true).

(** What a key event leaves alone: every field of a character but the input
    flags, the elemental mode and the emitted events. *)
Definition body (c : Character) :=
  (playerId c, position c, velocity c, facingRight c, health c,
   attackCooldownTimer c, isAttacking c, isHitStunned c, lastHitStun c,
   attackHitbox c, isGrounded c, currentState c, states c, opponent c).

End Simulation.

(** * A concrete match

    Sample values for the parameters, to run the embedding on: an arena 800
    wide with the ground at y = 400, characters of 50 by 80, attacks that
    last 300 ms.  The Fire strategy hits harder and defends less than the
    Water strategy. *)

Definition sampleConfig : GameConfig :=
  mkConfig 50 80 400 980 100 500 60 40 800 300 300 200 (-400)
    (Vector2.mk 100 320) (Vector2.mk 650 320).

Definition sampleAttack (damageMultiplier push stun : Q)
    (attacker _opponent : Character) : AttackResult.t :=
  AttackResult.mk (10 * damageMultiplier)
    (Vector2.mk (if facingRight attacker then push else - push) (-100))
    stun.

Definition sampleFire : IElementalMode.t :=
  IElementalMode.mk "Fire" (3 # 2) (3 # 2) (sampleAttack (3 # 2) 200 300)
    (fun _ d => Qmax 0 d).

Definition sampleWater : IElementalMode.t :=
  IElementalMode.mk "Water" (4 # 5) (4 # 5) (sampleAttack (4 # 5) 100 200)
    (fun _ d => Qmax 0 (d * (7 # 10))).

(** The two sample strategies of a character. *)
Definition sampleStrategies : Strategies := mkStrategies sampleFire sampleWater.

Definition sampleRun (ops : list Op) (w : World) : World :=
  match @run sampleConfig sampleStrategies ops w with
  | Normal w' => w'
  | Throw _ => w
  end.

(** Two fresh characters on the ground at the given x positions, the first
    facing right and the second facing left. *)
Definition freshWorld (x1 x2 : Q) : World :=
  mkWorld
    (@newCharacter sampleConfig sampleStrategies Player1 (Vector2.mk x1 320) true)
    (@newCharacter sampleConfig sampleStrategies Player2 (Vector2.mk x2 320) false).

(** The same with each the opponent of the other. *)
Definition pairedWorld (x1 x2 : Q) : World :=
  sampleRun [OpSetOpponent RefP1 RefP2; OpSetOpponent RefP2 RefP1] (freshWorld x1 x2).

(** The second character stands within reach of the first. *)
Definition closeWorld : World := pairedWorld 100 160.

(** The first character has started an attack. *)
Definition startAttack : list Op :=
  [OpExecute RefP1 (AttackCommand true); OpUpdate RefP1 (1 # 10)].

Definition attacking : World := sampleRun startAttack closeWorld.

(** The same without any opponent assigned. *)
Definition loneAttacker : World := sampleRun startAttack (freshWorld 100 160).

(** The second character walks to the left. *)
Definition movingVictim : Character :=
  getC RefP2
    (sampleRun [OpExecute RefP2 (MoveCommand DirLeft true); OpUpdate RefP2 (1 # 10)]
       closeWorld).

(** The second character has just been hit by the attack of the first. *)
Definition stunnedVictim : Character :=
  getC RefP2 (sampleRun [OpUpdate RefP1 (1 # 10)] attacking).

Definition heavyBlow : AttackResult.t :=
  AttackResult.mk 15 (Vector2.mk 200 (-100)) 500.

Definition fourFrames : list Op :=
  [OpUpdate RefP1 (1 # 10); OpUpdate RefP1 (1 # 10);
   OpUpdate RefP1 (1 # 10); OpUpdate RefP1 (1 # 10)].

(** The hurtboxes overlap by 20. *)
Definition overlappingWorld : World := pairedWorld 100 130.

(** Both characters at x = 100. *)
Definition stackedWorld : World := pairedWorld 100 100.

(** The second character is stunned by the attack of the first. *)
Definition stunnedWorld : World := sampleRun [OpUpdate RefP1 (1 # 10)] attacking.

(** The second character walks to the left. *)
Definition walkingWorld : World :=
  sampleRun [OpExecute RefP2 (MoveCommand DirLeft true); OpUpdate RefP2 (1 # 10)]
    closeWorld.

(** The bindings the engine announces: WASD, F and G for the first player,
    the arrow keys, K and L for the second. *)
Definition sampleKeys : KeyConfig :=
  mkKeyConfig
    (KeyBindings.mk "KeyA" "KeyD" "KeyW" "KeyS" "KeyF" "KeyG")
    (KeyBindings.mk "ArrowLeft" "ArrowRight" "ArrowUp" "ArrowDown" "KeyK" "KeyL").

(** Strategies that scale the incoming damage and do not clamp it, as a
    multiplicative defence does: a negative damage would be reduced to a
    negative number. *)
Definition scalingFire : IElementalMode.t :=
  IElementalMode.mk "Fire" (3 # 2) (3 # 2) (sampleAttack (3 # 2) 200 300)
    (fun _ d => d * (9 # 10)).

Definition scalingWater : IElementalMode.t :=
  IElementalMode.mk "Water" (4 # 5) (4 # 5) (sampleAttack (4 # 5) 100 200)
    (fun _ d => d * (7 # 10)).

Definition scalingStrategies : Strategies := mkStrategies scalingFire scalingWater.

(** The close pair with these strategies, the first character attacking. *)
Definition scaledFight : World :=
  match @run sampleConfig scalingStrategies
          ([OpSetOpponent RefP1 RefP2; OpSetOpponent RefP2 RefP1] ++ startAttack)
          (mkWorld
             (@newCharacter sampleConfig scalingStrategies Player1
                (Vector2.mk 100 320) true)
             (@newCharacter sampleConfig scalingStrategies Player2
                (Vector2.mk 160 320) false))
  with
  | Normal w' => w'
  | Throw _ => closeWorld
  end.

(** The engine after [init]. *)
Definition sampleEngine : GameEngine.t :=
  @GameEngine_init sampleConfig sampleStrategies sampleKeys GameEngine.new.

(** The engine in the middle of a round: the first character attacks. *)
Definition fightingEngine : GameEngine.t := set_players attacking sampleEngine.

(** * Properties *)

(** Keep rational arithmetic folded when simplifying record accesses. *)
Arguments Qplus : simpl never.
Arguments Qminus : simpl never.
Arguments Qmult : simpl never.
Arguments Qdiv : simpl never.
Arguments Qopp : simpl never.
Arguments Qle_bool : simpl never.
Arguments Qeq_bool : simpl never.
Arguments Qltb : simpl never.
Arguments Qmax : simpl never.
Arguments Qmin : simpl never.

Section Properties.

Context {cfg : GameConfig} {strategies : Strategies}.

(** ** Numbers and the store *)

Lemma Qltb_iff (x y : Q) : Qltb x y = true <-> x < y.
Proof.
  unfold Qltb. rewrite negb_true_iff.
  destruct (Qle_bool y x) eqn:E.
  - apply Qle_bool_iff in E. split; [discriminate | intro; lra].
  - split; [intros _ | reflexivity].
    destruct (Qlt_le_dec x y) as [H | H]; [exact H |].
    apply Qle_bool_iff in H. congruence.
Qed.

Lemma Qltb_false_iff (x y : Q) : Qltb x y = false <-> y <= x.
Proof.
  unfold Qltb. rewrite negb_false_iff. apply Qle_bool_iff.
Qed.

Lemma Ref_eqb_eq (a b : Ref) : Ref_eqb a b = true <-> a = b.
Proof. destruct a, b; simpl; split; congruence. Qed.

Lemma Ref_eqb_refl (a : Ref) : Ref_eqb a a = true.
Proof. destruct a; reflexivity. Qed.

Lemma Ref_eqb_neq (a b : Ref) : Ref_eqb a b = false <-> a <> b.
Proof. destruct a, b; simpl; split; congruence. Qed.

Lemma getC_setC_same (r : Ref) (c : Character) (w : World) :
  getC r (setC r c w) = c.
Proof. destruct r; reflexivity. Qed.

Lemma getC_setC_other (r r' : Ref) (c : Character) (w : World) :
  r <> r' -> getC r' (setC r c w) = getC r' w.
Proof. destruct r, r'; simpl; congruence. Qed.

Lemma getC_modify_same (r : Ref) f (w : World) :
  getC r (modify r f w) = f (getC r w).
Proof. apply getC_setC_same. Qed.

Lemma getC_modify_other (r r' : Ref) f (w : World) :
  r <> r' -> getC r' (modify r f w) = getC r' w.
Proof. apply getC_setC_other. Qed.

Lemma setC_getC (r : Ref) (w : World) : setC r (getC r w) w = w.
Proof. destruct r, w; reflexivity. Qed.

(** ** Collision system *)

Lemma checkAABB_true (a b : Rectangle.t) :
  checkAABB a b = true <->
  Rectangle.x a < Rectangle.x b + Rectangle.width b /\
  Rectangle.x a + Rectangle.width a > Rectangle.x b /\
  Rectangle.y a < Rectangle.y b + Rectangle.height b /\
  Rectangle.y a + Rectangle.height a > Rectangle.y b.
Proof.
  unfold checkAABB. rewrite !andb_true_iff, !Qltb_iff. tauto.
Qed.

(** C7: [checkAABB a b] is true exactly when the four strict inequalities
    hold together, and rectangles whose edges only touch
    ([a.x + a.width == b.x]) do not collide.  No assumption on the signs of
    the widths and heights is needed.  [Hitbox.intersects] is the same test
    on the rectangle of the hitbox. *)
Theorem checkAABB_spec (a b : Rectangle.t) :
  (checkAABB a b = true <->
     Rectangle.x a < Rectangle.x b + Rectangle.width b /\
     Rectangle.x a + Rectangle.width a > Rectangle.x b /\
     Rectangle.y a < Rectangle.y b + Rectangle.height b /\
     Rectangle.y a + Rectangle.height a > Rectangle.y b) /\
  (Rectangle.x a + Rectangle.width a == Rectangle.x b -> checkAABB a b = false) /\
  (forall h : Hitbox.t, Hitbox.intersects h b = checkAABB (Hitbox.getRect h) b).
Proof.
  split; [apply checkAABB_true |]. split.
  - intro Htouch. apply not_true_is_false. rewrite checkAABB_true.
    intros (_ & H & _). lra.
  - intro h. reflexivity.
Qed.

(** [lra] knows no division: write [x / 2] as [x * (1 # 2)]. *)
Ltac halves := unfold Qdiv in *; change (/ 2) with (1 # 2) in *.

Ltac split_min_max :=
  repeat match goal with
  | |- context [Qmin ?x ?y] =>
      let H := fresh "Hmin" in let E := fresh "Emin" in
      destruct (Q.min_spec x y) as [[H E] | [H E]]; rewrite E; clear E
  | |- context [Qmax ?x ?y] =>
      let H := fresh "Hmax" in let E := fresh "Emax" in
      destruct (Q.max_spec x y) as [[H E] | [H E]]; rewrite E; clear E
  end.

(** With equal widths, the quantity the resolution halves is the width of
    the intersection of the two horizontal extents. *)
Lemma overlapX_is_overlapWidth (a b : Character) :
  Qmin (Rectangle.x (getHurtbox a) + Rectangle.width (getHurtbox a)
          - Rectangle.x (getHurtbox b))
       (Rectangle.x (getHurtbox b) + Rectangle.width (getHurtbox b)
          - Rectangle.x (getHurtbox a))
  == overlapWidth (getHurtbox a) (getHurtbox b).
Proof.
  unfold overlapWidth, getHurtbox, width; simpl.
  split_min_max; lra.
Qed.

Lemma collision_overlap_pos (a b : Character) :
  checkCharacterCollision a b = true ->
  0 < overlapWidth (getHurtbox a) (getHurtbox b).
Proof.
  unfold checkCharacterCollision. rewrite checkAABB_true.
  unfold overlapWidth, getHurtbox, width; simpl.
  intros (H1 & H2 & _). split_min_max; lra.
Qed.

Lemma resolveCharacterCollision_unfold (a b : Ref) (w : World) :
  a <> b ->
  checkCharacterCollision (getC a w) (getC b w) = true ->
  let pushAmount :=
    Qmin (Rectangle.x (getHurtbox (getC a w)) + Rectangle.width (getHurtbox (getC a w))
            - Rectangle.x (getHurtbox (getC b w)))
         (Rectangle.x (getHurtbox (getC b w)) + Rectangle.width (getHurtbox (getC b w))
            - Rectangle.x (getHurtbox (getC a w))) / 2 in
  let w' := resolveCharacterCollision a b w in
  if Qltb (Vector2.x (position (getC a w))) (Vector2.x (position (getC b w)))
  then getC a w' = set_position_x (Vector2.x (position (getC a w)) - pushAmount) (getC a w) /\
       getC b w' = set_position_x (Vector2.x (position (getC b w)) + pushAmount) (getC b w)
  else getC a w' = set_position_x (Vector2.x (position (getC a w)) + pushAmount) (getC a w) /\
       getC b w' = set_position_x (Vector2.x (position (getC b w)) - pushAmount) (getC b w).
Proof.
  intros Hab Hcol. cbv zeta. unfold resolveCharacterCollision.
  rewrite Hcol. cbv [negb].
  destruct (Qltb _ _);
    (split;
     [ rewrite getC_modify_other by congruence; rewrite getC_modify_same; reflexivity
     | rewrite getC_modify_same; rewrite getC_modify_other by congruence; reflexivity ]).
Qed.

(** C8: when the hurtboxes of two distinct combatants overlap,
    [resolveCharacterCollision] moves each of them by half the horizontal
    overlap (which is positive) along x only: [a] to the left and [b] to the
    right when [a.position.x < b.position.x], and [a] to the right and [b] to
    the left otherwise, ties included.  Nothing but [position.x] changes, so
    y positions and velocities are kept.  When the hurtboxes do not overlap
    the store is returned as it is. *)
Theorem resolveCharacterCollision_spec (a b : Ref) (w : World) :
  a <> b ->
  let A := getC a w in
  let B := getC b w in
  let w' := resolveCharacterCollision a b w in
  let half := overlapWidth (getHurtbox A) (getHurtbox B) / 2 in
  (checkCharacterCollision A B = true ->
     0 < half /\
     (Vector2.x (position A) < Vector2.x (position B) ->
        Vector2.x (position (getC a w')) == Vector2.x (position A) - half /\
        Vector2.x (position (getC b w')) == Vector2.x (position B) + half) /\
     (Vector2.x (position B) <= Vector2.x (position A) ->
        Vector2.x (position (getC a w')) == Vector2.x (position A) + half /\
        Vector2.x (position (getC b w')) == Vector2.x (position B) - half) /\
     getC a w' = set_position_x (Vector2.x (position (getC a w'))) A /\
     getC b w' = set_position_x (Vector2.x (position (getC b w'))) B /\
     Vector2.y (position (getC a w')) = Vector2.y (position A) /\
     Vector2.y (position (getC b w')) = Vector2.y (position B) /\
     velocity (getC a w') = velocity A /\
     velocity (getC b w') = velocity B) /\
  (checkCharacterCollision A B = false -> w' = w).
Proof.
  intros Hab A B w' half. split.
  - intro Hcol.
    pose proof (collision_overlap_pos _ _ Hcol) as Hpos.
    pose proof (overlapX_is_overlapWidth A B) as Hov.
    pose proof (resolveCharacterCollision_unfold w Hab Hcol) as Hres.
    cbv zeta in Hres. fold A B w' in Hres.
    subst half.
    set (ov := overlapWidth (getHurtbox A) (getHurtbox B)) in *.
    set (ovx := Qmin _ _) in *.
    clearbody ov ovx. halves.
    assert (Hhalf : 0 < ov * (1 # 2)) by lra.
    split; [exact Hhalf |].
    destruct (Qltb (Vector2.x (position A)) (Vector2.x (position B))) eqn:Hlt;
      destruct Hres as [Ha Hb]; rewrite Ha, Hb; simpl.
    + apply Qltb_iff in Hlt.
      repeat split; try reflexivity; try lra; intro; lra.
    + apply Qltb_false_iff in Hlt.
      repeat split; try reflexivity; try lra; intro; lra.
  - intro Hcol. unfold w', resolveCharacterCollision. fold A B. rewrite Hcol.
    reflexivity.
Qed.


(** C9: two distinct combatants at the same x with overlapping hurtboxes
    are separated by one run of [resolveCharacterCollision] by half the
    overlap each, in opposite directions ([a] to the right, [b] to the
    left); the overlap is the whole character width.  Afterwards the right
    edge of [b] is exactly the left edge of [a], which [checkAABB] does not
    count as a collision, so a second run returns the store unchanged. *)
Theorem resolveCharacterCollision_identical_x (a b : Ref) (w : World) :
  a <> b ->
  Vector2.x (position (getC a w)) == Vector2.x (position (getC b w)) ->
  checkCharacterCollision (getC a w) (getC b w) = true ->
  let w1 := resolveCharacterCollision a b w in
  let half := overlapWidth (getHurtbox (getC a w)) (getHurtbox (getC b w)) / 2 in
  0 < half /\
  half == CHARACTER_WIDTH cfg / 2 /\
  Vector2.x (position (getC a w1)) == Vector2.x (position (getC a w)) + half /\
  Vector2.x (position (getC b w1)) == Vector2.x (position (getC b w)) - half /\
  Rectangle.x (getHurtbox (getC b w1)) + Rectangle.width (getHurtbox (getC b w1))
    == Rectangle.x (getHurtbox (getC a w1)) /\
  checkCharacterCollision (getC a w1) (getC b w1) = false /\
  resolveCharacterCollision a b w1 = w1.
Proof.
  intros Hab Hx Hcol w1 half.
  pose proof (collision_overlap_pos _ _ Hcol) as Hpos.
  pose proof (overlapX_is_overlapWidth (getC a w) (getC b w)) as Hov.
  pose proof (resolveCharacterCollision_unfold w Hab Hcol) as Hres.
  cbv zeta in Hres. fold w1 in Hres.
  assert (Hnlt : Qltb (Vector2.x (position (getC a w)))
                      (Vector2.x (position (getC b w))) = false)
    by (apply Qltb_false_iff; rewrite Hx; apply Qle_refl).
  rewrite Hnlt in Hres. destruct Hres as [Ea Eb].
  assert (Ha : Vector2.x (position (getC a w1))
               == Vector2.x (position (getC a w)) + half).
  { rewrite Ea. simpl. unfold half. rewrite <- Hov. reflexivity. }
  assert (Hb : Vector2.x (position (getC b w1))
               == Vector2.x (position (getC b w)) - half).
  { rewrite Eb. simpl. unfold half. rewrite <- Hov. reflexivity. }
  assert (Hpos' : 0 < half).
  { unfold half. clearbody w1. halves. lra. }
  clear Ea Eb Hov.
  assert (Hhalf : half == CHARACTER_WIDTH cfg / 2).
  { unfold half, overlapWidth, getHurtbox, width; simpl.
    halves. split_min_max; lra. }
  assert (Hedge :
    Rectangle.x (getHurtbox (getC b w1)) + Rectangle.width (getHurtbox (getC b w1))
    == Rectangle.x (getHurtbox (getC a w1))).
  { unfold getHurtbox, width; simpl. clearbody half w1. halves. lra. }
  assert (Hsep : checkCharacterCollision (getC a w1) (getC b w1) = false).
  { apply not_true_is_false. unfold checkCharacterCollision.
    rewrite checkAABB_true. intros (H1 & _). lra. }
  repeat split; try assumption.
  unfold resolveCharacterCollision. rewrite Hsep. reflexivity.
Qed.

(** ** The shape of one [update] frame *)

Lemma modify_id (r : Ref) (w : World) : modify r (fun c => c) w = w.
Proof. apply setC_getC. Qed.

Lemma modify_modify (r : Ref) f g (w : World) :
  modify r g (modify r f w) = modify r (fun c => g (f c)) w.
Proof. destruct r; reflexivity. Qed.

Lemma checkAttackHit_cases (self : Ref) (w : World) :
  checkAttackHit self w = Normal (false, w) \/
  exists opp hb,
    opponent (getC self w) = Some opp /\
    attackHitbox (getC self w) = Some hb /\
    Hitbox.intersects hb (getHurtbox (getC opp w)) = true /\
    checkAttackHit self w =
      Normal (true,
              modify opp
                (takeDamage
                   (IElementalMode.attack (getElementalMode (getC self w))
                      (getC self w) (getC opp w)))
                w).
Proof.
  unfold checkAttackHit.
  destruct (attackHitbox (getC self w)) as [hb |] eqn:Hhb; simpl; [| now left].
  destruct (opponent (getC self w)) as [opp |] eqn:Hopp; simpl; [| now left].
  destruct (Hitbox.intersects hb (getHurtbox (getC opp w))) eqn:Hint; [| now left].
  right. exists opp, hb. repeat split; assumption.
Qed.

Lemma AttackState_update_cases (self : Ref) (deltaTime : Q) (w : World) :
  let w1 := modify self (AttackState_advance deltaTime) w in
  AttackState_update self deltaTime w = Normal w1 \/
  exists opp res,
    hasHit (getC self w1) = false /\
    opponent (getC self w1) = Some opp /\
    AttackState_update self deltaTime w =
      Normal (modify self (set_hasHit true) (modify opp (takeDamage res) w1)).
Proof.
  intro w1. unfold AttackState_update. fold w1.
  destruct (hasHit (getC self w1)) eqn:Hhas; simpl; [now left |].
  destruct (checkAttackHit_cases self w1) as [E | (opp & hb & Hopp & _ & _ & E)];
    rewrite E; simpl.
  - now left.
  - right. eexists opp, _. repeat split. exact Hopp.
Qed.

Lemma currentState_tickCooldown (deltaTime : Q) (c : Character) :
  currentState (tickCooldown deltaTime c) = currentState c.
Proof. unfold tickCooldown. destruct (Qltb _ _); reflexivity. Qed.

Lemma update_end (self : Ref) (w : World) :
  match State_canTransition (currentState (getC self w)) (getC self w) with
  | Some newState => Normal (modify self (transitionTo newState) w)
  | None => Normal w
  end = Normal (modify self applyTransition w).
Proof.
  unfold applyTransition, modify.
  destruct (State_canTransition _ _); [reflexivity |].
  now rewrite setC_getC.
Qed.

(** One frame of [update] is one of three sequences of method calls. *)
Lemma update_cases (self : Ref) (deltaTime : Q) (w : World) :
  let s := currentState (getC self w) in
  let w1 := modify self (tickCooldown deltaTime) w in
  (s <> Attack /\
   update self deltaTime w =
     Normal (modify self applyTransition
               (modify self (localUpdate s deltaTime) w1)))
  \/
  (s = Attack /\
   update self deltaTime w =
     Normal (modify self applyTransition
               (modify self (AttackState_advance deltaTime) w1)))
  \/
  (s = Attack /\
   exists opp res,
     hasHit (getC self (modify self (AttackState_advance deltaTime) w1)) = false /\
     opponent (getC self (modify self (AttackState_advance deltaTime) w1)) = Some opp /\
     update self deltaTime w =
       Normal (modify self applyTransition
                 (modify self (set_hasHit true)
                    (modify opp (takeDamage res)
                       (modify self (AttackState_advance deltaTime) w1))))).
Proof.
  intros s w1. unfold update. fold w1.
  assert (Hs : currentState (getC self w1) = s).
  { unfold w1. rewrite getC_modify_same. apply currentState_tickCooldown. }
  rewrite Hs.
  destruct s eqn:Es; cbn [State_update bind localUpdate].
  - left. split; [discriminate |]. exact (update_end self _).
  - left. split; [discriminate |]. exact (update_end self _).
  - right.
    destruct (AttackState_update_cases self deltaTime w1)
      as [E | (opp & res & Hhas & Hopp & E)]; rewrite E; cbn [bind].
    + left. split; [reflexivity |]. exact (update_end self _).
    + right. split; [reflexivity |]. exists opp, res.
      split; [exact Hhas |]. split; [exact Hopp |]. exact (update_end self _).
  - left. split; [discriminate |]. exact (update_end self _).
Qed.

(** [update] always returns: no path of the frame dereferences [null]. *)
Lemma update_total (self : Ref) (deltaTime : Q) (w : World) :
  exists w', update self deltaTime w = Normal w'.
Proof.
  destruct (update_cases self deltaTime w)
    as [[_ E] | [[_ E] | [_ (opp & res & _ & _ & E)]]]; rewrite E; eauto.
Qed.

Lemma step_total (op : Op) (w : World) : exists w', step op w = Normal w'.
Proof. destruct op; simpl; eauto using update_total. Qed.

Lemma run_total (ops : list Op) (w : World) : exists w', run ops w = Normal w'.
Proof.
  revert w. induction ops as [| op rest IH]; intro w; simpl; [eauto |].
  destruct (step_total op w) as [w' E]. rewrite E. simpl. apply IH.
Qed.

(** *** Predicates that every method called in a frame preserves *)

Lemma modify_stable (P : Character -> Prop) f (r x : Ref) (w : World) :
  stable P f -> P (getC x w) -> P (getC x (modify r f w)).
Proof.
  intros Hf Hx. destruct (Ref_eqb r x) eqn:E.
  - apply Ref_eqb_eq in E. subst. rewrite getC_modify_same. now apply Hf.
  - apply Ref_eqb_neq in E. now rewrite getC_modify_other.
Qed.

Section Stable.

Variable P : Character -> Prop.

Hypothesis stable_tickCooldown : forall dt, stable P (tickCooldown dt).
Hypothesis stable_localUpdate : forall s dt, stable P (localUpdate s dt).
Hypothesis stable_advance : forall dt, stable P (AttackState_advance dt).
Hypothesis stable_takeDamage : forall res, stable P (takeDamage res).
Hypothesis stable_hasHit : stable P (set_hasHit true).
Hypothesis stable_applyTransition : stable P applyTransition.

Lemma update_stable (self x : Ref) (deltaTime : Q) (w : World) :
    P (getC x w) ->
    exists w', update self deltaTime w = Normal w' /\ P (getC x w').
  Proof.
    intro Hx.
    destruct (update_cases self deltaTime w)
      as [[_ E] | [[_ E] | [_ (opp & res & _ & _ & E)]]];
      rewrite E; eexists; (split; [reflexivity |]);
      repeat (apply modify_stable; auto).
  Qed.

End Stable.

(** ** The attack hitbox exists exactly in the Attack state *)

Lemma hitboxInv_iff (c : Character) :
  hitboxInv c <-> (attackHitbox c <> None <-> currentState c = Attack).
Proof.
  unfold hitboxInv, inAttack.
  destruct (attackHitbox c), (currentState c); simpl; split; intros;
    try reflexivity; try discriminate;
    try (split; congruence);
    match goal with
    | H : _ <-> _ |- _ => destruct H as [H1 H2]
    end;
    try (exfalso; assert (X : Some t <> None) by discriminate;
         specialize (H1 X); discriminate);
    try (exfalso; apply H2; reflexivity).
Qed.

(** Unfold the methods of [Character] down to field assignments. *)
Ltac unfold_methods :=
  unfold applyTransition, localUpdate, takeDamage, reset, switchElementalMode,
    execute, MoveCommand_execute, AttackCommand_execute, setOpponent,
    transitionTo, State_canTransition, State_enter, State_exit,
    IdleState_canTransition, MoveState_canTransition,
    AttackState_canTransition, HitState_canTransition,
    IdleState_enter, IdleState_exit, IdleState_update,
    MoveState_enter, MoveState_exit, MoveState_update,
    AttackState_enter, AttackState_exit, AttackState_advance,
    HitState_enter, HitState_exit, HitState_update,
    createAttackHitbox, updateAttackHitbox, removeAttackHitbox,
    startAttackCooldown, tickCooldown, checkBoundaries, checkGroundCollision,
    applyGravity in *.

Ltac split_ifs :=
  repeat (simpl;
          match goal with
          | |- context [if ?b then _ else _] => destruct b eqn:?
          | |- context [match ?o with Some _ => _ | None => _ end] =>
              destruct o eqn:?
          end).

(** Evaluate the methods on a character given by its fields. *)
Ltac eval_methods :=
  cbv beta iota zeta delta
    [applyTransition localUpdate takeDamage reset switchElementalMode
     execute MoveCommand_execute AttackCommand_execute setOpponent
     transitionTo State_enter State_exit
     IdleState_enter IdleState_exit MoveState_enter MoveState_exit
     AttackState_enter AttackState_exit HitState_enter HitState_exit
     createAttackHitbox updateAttackHitbox removeAttackHitbox
     startAttackCooldown toggleMode notify isSome isAttackState
     set_position set_velocity set_facingRight set_health
     set_attackCooldownTimer set_isAttacking set_isHitStunned set_lastHitStun
     set_attackHitbox set_isGrounded set_elementalMode set_currentState
     set_states set_inputFlags set_opponent
     set_position_x set_position_y set_velocity_x set_velocity_y
     set_attackTimer set_hasHit set_stunTimer set_stunDuration
     attackTimer hasHit stunTimer stunDuration
     playerId position velocity facingRight health attackCooldownTimer
     isAttacking isHitStunned lastHitStun attackHitbox isGrounded
     elementalMode currentState states inputFlags opponent notified
     attack hit AttackStateData.attackTimer AttackStateData.hasHit
     HitStateData.stunTimer HitStateData.stunDuration
     Vector2.x Vector2.y].

Lemma sameCombat_refl c : sameCombat c c.
Proof. reflexivity. Qed.

Lemma sameCombat_trans c1 c2 c3 :
  sameCombat c1 c2 -> sameCombat c2 c3 -> sameCombat c1 c3.
Proof. unfold sameCombat; congruence. Qed.

Ltac step_same :=
  intros c c' H; unfold sameCombat in *; rewrite H; clear H;
  destruct c'; unfold combat; unfold_methods; split_ifs; reflexivity.

Lemma same_set_position v : forall c c', sameCombat c c' -> sameCombat c (set_position v c').
Proof. step_same. Qed.
Lemma same_set_velocity v : forall c c', sameCombat c c' -> sameCombat c (set_velocity v c').
Proof. step_same. Qed.
Lemma same_set_position_x v : forall c c', sameCombat c c' -> sameCombat c (set_position_x v c').
Proof. step_same. Qed.
Lemma same_set_position_y v : forall c c', sameCombat c c' -> sameCombat c (set_position_y v c').
Proof. step_same. Qed.
Lemma same_set_velocity_x v : forall c c', sameCombat c c' -> sameCombat c (set_velocity_x v c').
Proof. step_same. Qed.
Lemma same_set_velocity_y v : forall c c', sameCombat c c' -> sameCombat c (set_velocity_y v c').
Proof. step_same. Qed.
Lemma same_set_facingRight b : forall c c', sameCombat c c' -> sameCombat c (set_facingRight b c').
Proof. step_same. Qed.
Lemma same_set_isGrounded b : forall c c', sameCombat c c' -> sameCombat c (set_isGrounded b c').
Proof. step_same. Qed.
Lemma same_set_attackTimer v : forall c c', sameCombat c c' -> sameCombat c (set_attackTimer v c').
Proof. step_same. Qed.
Lemma same_set_stunTimer v : forall c c', sameCombat c c' -> sameCombat c (set_stunTimer v c').
Proof. step_same. Qed.
Lemma same_applyGravity dt : forall c c', sameCombat c c' -> sameCombat c (applyGravity dt c').
Proof. step_same. Qed.
Lemma same_checkGroundCollision : forall c c', sameCombat c c' -> sameCombat c (checkGroundCollision c').
Proof. step_same. Qed.
Lemma same_checkBoundaries : forall c c', sameCombat c c' -> sameCombat c (checkBoundaries c').
Proof. step_same. Qed.
Lemma same_updateAttackHitbox : forall c c', sameCombat c c' -> sameCombat c (updateAttackHitbox c').
Proof. step_same. Qed.
Lemma same_tickCooldown dt : forall c c', sameCombat c c' -> sameCombat c (tickCooldown dt c').
Proof. step_same. Qed.

Ltac same_step :=
  lazymatch goal with
  | H : sameCombat ?c ?x |- sameCombat ?c ?x => exact H
  | |- sameCombat ?c ?c => apply sameCombat_refl
  | |- sameCombat _ (set_position _ _) => apply same_set_position
  | |- sameCombat _ (set_velocity _ _) => apply same_set_velocity
  | |- sameCombat _ (set_position_x _ _) => apply same_set_position_x
  | |- sameCombat _ (set_position_y _ _) => apply same_set_position_y
  | |- sameCombat _ (set_velocity_x _ _) => apply same_set_velocity_x
  | |- sameCombat _ (set_velocity_y _ _) => apply same_set_velocity_y
  | |- sameCombat _ (set_facingRight _ _) => apply same_set_facingRight
  | |- sameCombat _ (set_isGrounded _ _) => apply same_set_isGrounded
  | |- sameCombat _ (set_attackTimer _ _) => apply same_set_attackTimer
  | |- sameCombat _ (set_stunTimer _ _) => apply same_set_stunTimer
  | |- sameCombat _ (applyGravity _ _) => apply same_applyGravity
  | |- sameCombat _ (checkGroundCollision _) => apply same_checkGroundCollision
  | |- sameCombat _ (checkBoundaries _) => apply same_checkBoundaries
  | |- sameCombat _ (updateAttackHitbox _) => apply same_updateAttackHitbox
  | |- sameCombat _ (tickCooldown _ _) => apply same_tickCooldown
  | |- sameCombat ?c (let x := ?E in @?B x) =>
      lazymatch type of E with
      | Character =>
          let H := fresh "H" in
          assert (H : sameCombat c E);
          [ | change (sameCombat c (B E)); revert H; generalize E;
              let c1 := fresh "c" in intros c1 H; cbv beta ]
      | _ => change (sameCombat c (B E)); cbv beta
      end
  | |- sameCombat _ (if ?b then _ else _) => destruct b
  | |- sameCombat _ (match (if ?b then _ else _) with pair _ _ => _ end) =>
      destruct b; cbv iota
  end.

(** Walk through a method body one assignment at a time. *)
Ltac same_chain := repeat same_step.

Lemma same_IdleState_update dt c : sameCombat c (IdleState_update dt c).
Proof. unfold IdleState_update. same_chain. Qed.

Lemma same_MoveState_update dt c : sameCombat c (MoveState_update dt c).
Proof. unfold MoveState_update. same_chain. Qed.

Lemma same_HitState_update dt c : sameCombat c (HitState_update dt c).
Proof. unfold HitState_update. same_chain. Qed.

Lemma same_AttackState_advance dt c : sameCombat c (AttackState_advance dt c).
Proof. unfold AttackState_advance. same_chain. Qed.

Lemma same_localUpdate s dt c : sameCombat c (localUpdate s dt c).
Proof.
  destruct s; simpl;
    auto using same_IdleState_update, same_MoveState_update,
      same_HitState_update, sameCombat_refl.
Qed.

Lemma combatOnly_tickCooldown P dt : combatOnly P -> stable P (tickCooldown dt).
Proof. intros HP c Hc. eapply HP; [| exact Hc]. apply same_tickCooldown, sameCombat_refl. Qed.

Lemma combatOnly_localUpdate P s dt : combatOnly P -> stable P (localUpdate s dt).
Proof. intros HP c Hc. eapply HP; [| exact Hc]. apply same_localUpdate. Qed.

Lemma combatOnly_advance P dt : combatOnly P -> stable P (AttackState_advance dt).
Proof. intros HP c Hc. eapply HP; [| exact Hc]. apply same_AttackState_advance. Qed.

(** *** What a transition does to the fields the claims are about *)

Lemma transitionTo_fields (newState : StateName) (c : Character) :
  let c' := transitionTo newState c in
  currentState c' = newState /\
  isSome (attackHitbox c') =
    (if isAttackState newState then true
     else if isAttackState (currentState c) then false
     else isSome (attackHitbox c)) /\
  hasHit c' = (if isAttackState newState then false else hasHit c) /\
  health c' = health c /\
  notified c' = notified c /\
  opponent c' = opponent c /\
  playerId c' = playerId c /\
  elementalMode c' = elementalMode c /\
  position c' = position c /\
  inputFlags c' = inputFlags c.
Proof.
  destruct c as [pid pos vel fr hp cd att stun lhs hb gr mode st sts fl opp ntf].
  destruct newState, st, hb; eval_methods; repeat split; reflexivity.
Qed.

Lemma takeDamage_fields (attackResult : AttackResult.t) (c : Character) :
  let reducedDamage :=
    IElementalMode.defend (getElementalMode c) c (AttackResult.damage attackResult) in
  let c' := takeDamage attackResult c in
  health c' = Qmax 0 (health c - reducedDamage) /\
  currentState c' = Hit /\
  isSome (attackHitbox c') =
    (if isAttackState (currentState c) then false else isSome (attackHitbox c)) /\
  hasHit c' = hasHit c /\
  notified c' =
    HealthChangeEvent (playerId c) (Qmax 0 (health c - reducedDamage))
      (maxHealth c) reducedDamage :: notified c /\
  opponent c' = opponent c /\
  playerId c' = playerId c /\
  elementalMode c' = elementalMode c /\
  position c' = position c /\
  inputFlags c' = inputFlags c /\
  isHitStunned c' = true /\
  velocity c' =
    match currentState c with
    | Move => Vector2.mk 0 (Vector2.y (AttackResult.knockback attackResult))
    | _ => Vector2.mk (Vector2.x (AttackResult.knockback attackResult))
                      (Vector2.y (AttackResult.knockback attackResult))
    end /\
  lastHitStun c' =
    match currentState c with
    | Hit => 0
    | _ => AttackResult.hitStun attackResult
    end /\
  stunTimer c' = 0 /\
  stunDuration c' = number_or (lastHitStun c') (HIT_STUN_DURATION cfg).
Proof.
  destruct c as [pid pos vel fr hp cd att stun lhs hb gr mode st sts fl opp ntf].
  destruct st, hb; eval_methods; repeat split; reflexivity.
Qed.

Lemma switchElementalMode_fields (c : Character) :
  let c' := switchElementalMode c in
  currentState c' = currentState c /\
  attackHitbox c' = attackHitbox c /\
  hasHit c' = hasHit c /\
  health c' = health c /\
  opponent c' = opponent c /\
  position c' = position c.
Proof.
  destruct c as [pid pos vel fr hp cd att stun lhs hb gr mode st sts fl opp ntf].
  cbv zeta; unfold switchElementalMode; simpl.
  destruct (att || stun); simpl; repeat split; reflexivity.
Qed.

Lemma execute_fields (cmd : Command) (c : Character) :
  let c' := execute cmd c in
  currentState c' = currentState c /\
  attackHitbox c' = attackHitbox c /\
  hasHit c' = hasHit c /\
  health c' = health c /\
  opponent c' = opponent c /\
  position c' = position c.
Proof.
  destruct cmd as [d p | p |]; [| | apply switchElementalMode_fields];
    destruct c; cbv zeta; simpl; repeat split; reflexivity.
Qed.

Lemma reset_fields (startPosition : Vector2.t) (c : Character) :
  let c' := reset startPosition c in
  currentState c' = Idle /\
  attackHitbox c' = None /\
  hasHit c' = hasHit c /\
  health c' = MAX_HEALTH cfg /\
  opponent c' = opponent c /\
  position c' = startPosition /\
  notified c' =
    HealthChangeEvent (playerId c) (MAX_HEALTH cfg) (maxHealth c) 0 :: notified c.
Proof.
  destruct c as [pid pos vel fr hp cd att stun lhs hb gr mode st sts fl opp ntf].
  destruct st; eval_methods; repeat split; reflexivity.
Qed.

(** ** C3: the hitbox invariant *)

Lemma hitboxInv_combatOnly : combatOnly hitboxInv.
Proof.
  intros c c' H. unfold sameCombat, combat in H. unfold hitboxInv, inAttack.
  injection H as _ _ _ _ _ Hhb _ Hst _ _ _ _. now rewrite Hhb, Hst.
Qed.

Lemma hitboxInv_transitionTo ns : stable hitboxInv (transitionTo ns).
Proof.
  intros c H. unfold hitboxInv, inAttack in *.
  destruct (transitionTo_fields ns c) as (Hst & Hhb & _). cbv zeta in *.
  rewrite Hst, Hhb, H. destruct ns, (currentState c); reflexivity.
Qed.

Lemma hitboxInv_applyTransition : stable hitboxInv applyTransition.
Proof.
  intros c H. unfold applyTransition.
  destruct (State_canTransition _ _); [now apply hitboxInv_transitionTo | exact H].
Qed.

Lemma hitboxInv_takeDamage res : stable hitboxInv (takeDamage res).
Proof.
  intros c H. unfold hitboxInv, inAttack in *.
  destruct (takeDamage_fields res c) as (_ & Hst & Hhb & _). cbv zeta in *.
  rewrite Hst, Hhb, H. destruct (currentState c); reflexivity.
Qed.

Lemma hitboxInv_set_hasHit b : stable hitboxInv (set_hasHit b).
Proof. intros c H. exact H. Qed.

Lemma hitboxInv_switchElementalMode : stable hitboxInv switchElementalMode.
Proof.
  intros c H. unfold hitboxInv, inAttack in *.
  destruct (switchElementalMode_fields c) as (Hst & Hhb & _). cbv zeta in *.
  now rewrite Hst, Hhb.
Qed.

Lemma hitboxInv_execute cmd : stable hitboxInv (execute cmd).
Proof.
  intros c H. unfold hitboxInv, inAttack in *.
  destruct (execute_fields cmd c) as (Hst & Hhb & _). cbv zeta in *.
  now rewrite Hst, Hhb.
Qed.

Lemma hitboxInv_reset p : stable hitboxInv (reset p).
Proof.
  intros c _. unfold hitboxInv, inAttack.
  destruct (reset_fields p c) as (Hst & Hhb & _). cbv zeta in *.
  now rewrite Hst, Hhb.
Qed.

Lemma hitboxInv_setOpponent o : stable hitboxInv (setOpponent o).
Proof. intros c H. exact H. Qed.

Lemma hitboxInv_resolve (a b x : Ref) (w : World) :
  hitboxInv (getC x w) -> hitboxInv (getC x (resolveCharacterCollision a b w)).
Proof.
  intro H. unfold resolveCharacterCollision.
  destruct (negb _); [exact H |].
  destruct (Qltb _ _); cbv zeta;
    repeat (apply modify_stable; [intros c Hc; exact Hc |]); exact H.
Qed.

Lemma hitboxInv_update (self x : Ref) (dt : Q) (w : World) :
  hitboxInv (getC x w) ->
  exists w', update self dt w = Normal w' /\ hitboxInv (getC x w').
Proof.
  apply update_stable.
  - intro. apply combatOnly_tickCooldown, hitboxInv_combatOnly.
  - intros. apply combatOnly_localUpdate, hitboxInv_combatOnly.
  - intro. apply combatOnly_advance, hitboxInv_combatOnly.
  - apply hitboxInv_takeDamage.
  - apply hitboxInv_set_hasHit.
  - apply hitboxInv_applyTransition.
Qed.

Lemma hitboxInv_step (op : Op) (x : Ref) (w : World) :
  hitboxInv (getC x w) ->
  exists w', step op w = Normal w' /\ hitboxInv (getC x w').
Proof.
  intro H. destruct op; simpl.
  - now apply hitboxInv_update.
  - eexists; split; [reflexivity |]. apply modify_stable; auto using hitboxInv_takeDamage.
  - eexists; split; [reflexivity |]. apply modify_stable; auto using hitboxInv_switchElementalMode.
  - eexists; split; [reflexivity |]. apply modify_stable; auto using hitboxInv_reset.
  - eexists; split; [reflexivity |]. apply modify_stable; auto using hitboxInv_setOpponent.
  - eexists; split; [reflexivity |]. apply modify_stable; auto using hitboxInv_execute.
  - eexists; split; [reflexivity |]. now apply hitboxInv_resolve.
Qed.

Lemma hitboxInv_run (ops : list Op) (w : World) :
  (forall r, hitboxInv (getC r w)) ->
  exists w', run ops w = Normal w' /\ forall r, hitboxInv (getC r w').
Proof.
  revert w. induction ops as [| op rest IH]; intros w H; simpl.
  - eauto.
  - destruct (hitboxInv_step op RefP1 w (H RefP1)) as (w1 & E1 & H1).
    destruct (hitboxInv_step op RefP2 w (H RefP2)) as (w2 & E2 & H2).
    rewrite E1 in E2. injection E2 as <-.
    rewrite E1. simpl. apply IH. intros [|]; assumption.
Qed.

Lemma hitboxInv_newCharacter (pid : PlayerId) (pos : Vector2.t) (fr : bool) :
  hitboxInv (newCharacter pid pos fr).
Proof. reflexivity. Qed.

(** C3: start from two freshly constructed characters and perform any
    sequence of public operations ([update], [takeDamage],
    [switchElementalMode], [reset], and also [setOpponent], the input
    commands and the body-collision resolution).  The sequence runs to the
    end, and in the store it leaves, each character has an attack hitbox if
    and only if its current state is Attack. *)
Theorem hitbox_iff_attack_state
    (pid1 pid2 : PlayerId) (pos1 pos2 : Vector2.t) (fr1 fr2 : bool)
    (ops : list Op) :
  exists w',
    run ops (mkWorld (newCharacter pid1 pos1 fr1) (newCharacter pid2 pos2 fr2))
      = Normal w' /\
    forall r : Ref,
      attackHitbox (getC r w') <> None <-> currentState (getC r w') = Attack.
Proof.
  destruct (hitboxInv_run ops
              (mkWorld (newCharacter pid1 pos1 fr1) (newCharacter pid2 pos2 fr2)))
    as (w' & E & H).
  - intros [|]; apply hitboxInv_newCharacter.
  - exists w'. split; [exact E |]. intro r. apply hitboxInv_iff, H.
Qed.

(** ** C2: the health bounds *)

Lemma healthInv_combatOnly : combatOnly healthInv.
Proof.
  intros c c' H. unfold sameCombat, combat in H. unfold healthInv, maxHealth.
  injection H as _ Hh _ _ _ _ _ _ _ _ _ _. now rewrite Hh.
Qed.

Lemma healthInv_applyTransition : stable healthInv applyTransition.
Proof.
  intros c H. unfold applyTransition.
  destruct (State_canTransition _ _) as [ns |]; [| exact H].
  destruct (transitionTo_fields ns c) as (_ & _ & _ & Hh & _). cbv zeta in Hh.
  unfold healthInv, maxHealth in *. now rewrite Hh.
Qed.

Lemma takeDamage_health (res : AttackResult.t) (c : Character) :
  0 <= IElementalMode.defend (getElementalMode c) c (AttackResult.damage res) ->
  0 <= health c ->
  0 <= health (takeDamage res c) /\ health (takeDamage res c) <= health c.
Proof.
  intros Hd Hh.
  destruct (takeDamage_fields res c) as (E & _). cbv zeta in E. rewrite E.
  split_min_max; split; lra.
Qed.

(** The frames of [update], with the [takeDamage] call of a frame that hits
    spelled out: the attack result is the one the mode of the attacker
    computes at the hit check. *)
Lemma update_hit_cases (self : Ref) (deltaTime : Q) (w : World) :
  let w1 := modify self (tickCooldown deltaTime) w in
  let w2 := modify self (AttackState_advance deltaTime) w1 in
  (exists f,
     (f = localUpdate (currentState (getC self w)) deltaTime \/
      f = AttackState_advance deltaTime) /\
     update self deltaTime w =
       Normal (modify self applyTransition (modify self f w1)))
  \/
  (currentState (getC self w) = Attack /\
   hasHit (getC self w2) = false /\
   exists opp hb,
     opponent (getC self w2) = Some opp /\
     attackHitbox (getC self w2) = Some hb /\
     Hitbox.intersects hb (getHurtbox (getC opp w2)) = true /\
     update self deltaTime w =
       Normal (modify self applyTransition
                 (modify self (set_hasHit true)
                    (modify opp
                       (takeDamage
                          (IElementalMode.attack (getElementalMode (getC self w2))
                             (getC self w2) (getC opp w2)))
                       w2)))).
Proof.
  intros w1 w2. unfold update. fold w1.
  assert (Hs : currentState (getC self w1) = currentState (getC self w)).
  { unfold w1. rewrite getC_modify_same. apply currentState_tickCooldown. }
  rewrite Hs.
  destruct (currentState (getC self w)) eqn:Es; cbn [State_update bind].
  1, 2, 4:
    (left; eexists; split; [left; reflexivity |]; exact (update_end self _)).
  unfold AttackState_update. fold w2.
  destruct (hasHit (getC self w2)) eqn:Hhas; cbn [negb bind].
  - left. eexists. split; [right; reflexivity |]. exact (update_end self _).
  - destruct (checkAttackHit_cases self w2)
      as [E | (opp & hb & Hopp & Hhb & Hint & E)]; rewrite E; cbn [bind].
    + left. eexists. split; [right; reflexivity |]. exact (update_end self _).
    + right. split; [reflexivity |]. split; [reflexivity |].
      exists opp, hb. repeat split; try assumption.
      exact (update_end self _).
Qed.

(** [takeDamage] keeps the bounds whenever the reduced damage of this call
    is not negative. *)
Lemma healthInv_takeDamage_at (res : AttackResult.t) (c : Character) :
  0 <= IElementalMode.defend (getElementalMode c) c (AttackResult.damage res) ->
  healthInv c -> healthInv (takeDamage res c).
Proof.
  intros Hd [H0 Hmax].
  destruct (takeDamage_health res c Hd H0) as [H1 H2].
  unfold healthInv, maxHealth in *. split; [exact H1 | lra].
Qed.

(** C2: a character whose health is within [0, maxHealth] is still within
    these bounds after any [update] frame of either combatant (which
    returns) and after [takeDamage], as soon as the reduced damage that the
    active mode of the victim returns at that call is not negative: for
    [takeDamage] the reduced damage of the call itself, for [update] the one
    of the hit the frame lands, if it lands one.  Nothing is assumed about
    the strategies at any other damage.  [takeDamage] sets the health to
    [max(0, health - reducedDamage)], which is not negative and not above
    the health before. *)
Theorem health_bounds_preserved :
  (forall (self x : Ref) (deltaTime : Q) (w : World),
     hitDamageNonNegative self deltaTime w ->
     healthInv (getC x w) ->
     exists w', update self deltaTime w = Normal w' /\ healthInv (getC x w')) /\
  (forall (attackResult : AttackResult.t) (c : Character),
     0 <= IElementalMode.defend (getElementalMode c) c
            (AttackResult.damage attackResult) ->
     healthInv c ->
     healthInv (takeDamage attackResult c) /\
     health (takeDamage attackResult c) =
       Qmax 0 (health c
               - IElementalMode.defend (getElementalMode c) c
                   (AttackResult.damage attackResult)) /\
     0 <= health (takeDamage attackResult c) /\
     health (takeDamage attackResult c) <= health c).
Proof.
  split.
  - intros self x dt w Hhit Hx.
    assert (H1 : healthInv (getC x (modify self (tickCooldown dt) w))).
    { apply modify_stable; [| exact Hx].
      apply combatOnly_tickCooldown, healthInv_combatOnly. }
    destruct (update_hit_cases self dt w)
      as [(f & Hf & E) | (Hs & Hhas & opp & hb & Hopp & Hhb & Hint & E)];
      rewrite E; eexists; (split; [reflexivity |]);
      (apply modify_stable; [apply healthInv_applyTransition |]).
    + apply modify_stable; [| exact H1].
      destruct Hf as [-> | ->];
        [apply combatOnly_localUpdate | apply combatOnly_advance];
        apply healthInv_combatOnly.
    + apply modify_stable; [intros c H; exact H |].
      assert (H2 : healthInv
                     (getC x (modify self (AttackState_advance dt)
                                (modify self (tickCooldown dt) w)))).
      { apply modify_stable; [| exact H1].
        apply combatOnly_advance, healthInv_combatOnly. }
      destruct (Ref_eqb opp x) eqn:Eo.
      * apply Ref_eqb_eq in Eo. subst x. rewrite getC_modify_same.
        apply healthInv_takeDamage_at; [| exact H2].
        exact (Hhit Hs Hhas opp hb Hopp Hhb Hint).
      * apply Ref_eqb_neq in Eo. rewrite getC_modify_other by exact Eo.
        exact H2.
  - intros res c Hd H. split; [now apply healthInv_takeDamage_at |].
    destruct (takeDamage_fields res c) as (E & _). cbv zeta in E.
    split; [exact E |].
    apply takeDamage_health; [exact Hd | apply H].
Qed.

(** ** Frames of the Attack state *)

(** The same as [update_stable] for a frame that starts in the Attack
    state: the [update] of the other three states is not called. *)
Lemma update_stable_attack (P : Character -> Prop)
    (self x : Ref) (deltaTime : Q) (w : World) :
  currentState (getC self w) = Attack ->
  (forall dt, stable P (tickCooldown dt)) ->
  (forall dt, stable P (AttackState_advance dt)) ->
  (forall res, stable P (takeDamage res)) ->
  stable P (set_hasHit true) ->
  stable P applyTransition ->
  P (getC x w) ->
  exists w', update self deltaTime w = Normal w' /\ P (getC x w').
Proof.
  intros Hs H1 H2 H3 H4 H5 Hx.
  destruct (update_cases self deltaTime w)
    as [[Hn _] | [[_ E] | [_ (opp & res & _ & _ & E)]]];
    [ congruence | | ];
    rewrite E; eexists; (split; [reflexivity |]);
    repeat (apply modify_stable; auto).
Qed.

Lemma AttackState_advance_position_x (deltaTime : Q) (c : Character) :
  Vector2.x (position (AttackState_advance deltaTime c)) = Vector2.x (position c).
Proof.
  destruct c as [pid pos vel fr hp cd att stun lhs hb gr mode st sts fl opp ntf].
  unfold AttackState_advance, applyGravity, checkGroundCollision, updateAttackHitbox.
  eval_methods.
  destruct (negb gr); eval_methods;
    destruct (Qle_bool _ _); eval_methods; destruct hb; reflexivity.
Qed.

Lemma tickCooldown_position (deltaTime : Q) (c : Character) :
  position (tickCooldown deltaTime c) = position c.
Proof. unfold tickCooldown. destruct (Qltb _ _); reflexivity. Qed.

Lemma applyTransition_position (c : Character) :
  position (applyTransition c) = position c.
Proof.
  unfold applyTransition. destruct (State_canTransition _ _) as [ns |]; [| reflexivity].
  destruct (transitionTo_fields ns c) as (_ & _ & _ & _ & _ & _ & _ & _ & E & _).
  exact E.
Qed.

Lemma takeDamage_position (res : AttackResult.t) (c : Character) :
  position (takeDamage res c) = position c.
Proof.
  destruct (takeDamage_fields res c) as (_ & _ & _ & _ & _ & _ & _ & _ & E & _).
  exact E.
Qed.

Lemma update_attack_position_x (self : Ref) (deltaTime : Q) (w : World) :
  currentState (getC self w) = Attack ->
  exists w',
    update self deltaTime w = Normal w' /\
    Vector2.x (position (getC self w')) = Vector2.x (position (getC self w)).
Proof.
  intro Hs.
  apply update_stable_attack
    with (P := fun c => Vector2.x (position c) = Vector2.x (position (getC self w)));
    try assumption; try reflexivity.
  - intros dt c H. now rewrite tickCooldown_position.
  - intros dt c H. now rewrite AttackState_advance_position_x.
  - intros res c H. now rewrite takeDamage_position.
  - intros c H. exact H.
  - intros c H. now rewrite applyTransition_position.
Qed.

(** C10: [AttackState.update] returns and leaves [position.x] of its
    character as it was, for every elapsed time; [MoveState.exit] zeroes
    [velocity.x], so a character that goes from Move to Attack enters the
    attack with no horizontal velocity; and after any number of the
    character's own [update] frames that start in the Attack state,
    [position.x] is what it was at the first of them. *)
Theorem attack_keeps_position_x (self : Ref) (w : World) :
  (forall deltaTime : Q,
     exists w',
       AttackState_update self deltaTime w = Normal w' /\
       Vector2.x (position (getC self w')) = Vector2.x (position (getC self w))) /\
  (forall c : Character,
     Vector2.x (velocity (MoveState_exit c)) = 0 /\
     (currentState c = Move ->
      Vector2.x (velocity (transitionTo Attack c)) = 0)) /\
  (forall deltaTimes : list Q,
     exists w',
       attackFrames self deltaTimes w = Normal w' /\
       Vector2.x (position (getC self w')) = Vector2.x (position (getC self w))).
Proof.
  split; [| split].
  - intro dt.
    destruct (AttackState_update_cases self dt w)
      as [E | (opp & res & _ & _ & E)]; rewrite E; eexists;
      (split; [reflexivity |]).
    + rewrite getC_modify_same. apply AttackState_advance_position_x.
    + rewrite getC_modify_same.
      change (Vector2.x (position
                (getC self (modify opp (takeDamage res)
                              (modify self (AttackState_advance dt) w))))
              = Vector2.x (position (getC self w))).
      apply modify_stable
        with (P := fun c => Vector2.x (position c) = Vector2.x (position (getC self w))).
      * intros c H. now rewrite takeDamage_position.
      * rewrite getC_modify_same. apply AttackState_advance_position_x.
  - intro c. split; [reflexivity |].
    destruct c as [pid pos vel fr hp cd att stun lhs hb gr mode st sts fl opp ntf].
    simpl. intros ->. eval_methods. reflexivity.
  - intro dts. revert w. induction dts as [| dt rest IH]; intro w; simpl.
    + eauto.
    + destruct (currentState (getC self w)) eqn:Hs; simpl; eauto.
      destruct (update_attack_position_x self dt w Hs) as (w1 & E & Hx).
      rewrite E. simpl.
      destruct (IH w1) as (w2 & E2 & Hx2).
      exists w2. split; [exact E2 | congruence].
Qed.

(** ** C1: at most one hit per Attack activation *)

Lemma emitted_modify_same (r : Ref) f (w : World) :
  notified (f (getC r w)) = notified (getC r w) ->
  emitted (modify r f w) = emitted w.
Proof.
  intro H. unfold emitted.
  destruct r; cbn [modify setC getC player1 player2] in *; now rewrite H.
Qed.

Lemma emitted_modify_takeDamage (r : Ref) (res : AttackResult.t) (w : World) :
  emitted (modify r (takeDamage res) w) = S (emitted w).
Proof.
  destruct (takeDamage_fields res (getC r w)) as (_ & _ & _ & _ & E & _).
  cbv zeta in E. unfold emitted.
  destruct r; cbn [modify setC getC player1 player2] in *; rewrite E;
    cbn [List.length]; lia.
Qed.

Lemma sameCombat_fields (c c' : Character) :
  sameCombat c c' ->
  currentState c' = currentState c /\ hasHit c' = hasHit c /\
  notified c' = notified c.
Proof.
  intro H. unfold sameCombat, combat in H.
  injection H as _ _ _ _ _ _ _ Hst Hh _ _ Hn. now rewrite Hst, Hh, Hn.
Qed.

Lemma same_frame_start (dt : Q) (c : Character) :
  sameCombat c (AttackState_advance dt (tickCooldown dt c)).
Proof.
  eapply sameCombat_trans; [| apply same_AttackState_advance].
  apply same_tickCooldown, sameCombat_refl.
Qed.

Lemma applyTransition_notified (c : Character) :
  notified (applyTransition c) = notified c.
Proof.
  unfold applyTransition. destruct (State_canTransition _ _) as [ns |]; [| reflexivity].
  destruct (transitionTo_fields ns c) as (_ & _ & _ & _ & E & _). exact E.
Qed.

Lemma applyTransition_hasHit (c : Character) :
  currentState c = Attack \/ currentState c = Hit ->
  hasHit (applyTransition c) = hasHit c.
Proof.
  intro Hs. unfold applyTransition.
  assert (Hns : forall ns, State_canTransition (currentState c) c = Some ns ->
                           isAttackState ns = false).
  { intros ns. destruct Hs as [-> | ->]; simpl;
      unfold AttackState_canTransition, HitState_canTransition;
      repeat match goal with
             | |- context [if ?b then _ else _] => destruct b
             end; intro E; inversion E; reflexivity. }
  destruct (State_canTransition _ _) as [ns |]; [| reflexivity].
  destruct (transitionTo_fields ns c) as (_ & _ & E & _). cbv zeta in E.
  rewrite E. now rewrite (Hns ns eq_refl).
Qed.

Lemma takeDamage_hasHit (res : AttackResult.t) (c : Character) :
  hasHit (takeDamage res c) = hasHit c.
Proof.
  destruct (takeDamage_fields res c) as (_ & _ & _ & E & _). exact E.
Qed.

Lemma takeDamage_currentState (res : AttackResult.t) (c : Character) :
  currentState (takeDamage res c) = Hit.
Proof.
  destruct (takeDamage_fields res c) as (_ & E & _). exact E.
Qed.

Lemma modify_other_keeps (P : Character -> Prop) f (r x : Ref) (w : World) :
  r <> x -> P (getC x w) -> P (getC x (modify r f w)).
Proof. intros Hr H. now rewrite getC_modify_other. Qed.

(** One [update] frame of the attacker in the Attack state either emits
    nothing and keeps [hasHit], or emits one event, in which case [hasHit]
    was false before the frame and is true after it. *)
Lemma update_attack_hits (a : Ref) (dt : Q) (w : World) :
  currentState (getC a w) = Attack ->
  exists w',
    update a dt w = Normal w' /\
    ((emitted w' = emitted w /\ hasHit (getC a w') = hasHit (getC a w)) \/
     (emitted w' = S (emitted w) /\ hasHit (getC a w) = false /\
      hasHit (getC a w') = true)).
Proof.
  intro Hs.
  destruct (sameCombat_fields (same_frame_start dt (getC a w))) as (Hst & Hh & Hn).
  destruct (update_cases a dt w)
    as [[Hne _] | [[_ E] | [_ (opp & res & Hhas & _ & E)]]];
    [congruence | |]; rewrite E; eexists; (split; [reflexivity |]).
  - left. rewrite !modify_modify. split.
    + apply emitted_modify_same. now rewrite applyTransition_notified.
    + rewrite getC_modify_same. rewrite applyTransition_hasHit; [exact Hh |].
      left. congruence.
  - right.
    rewrite modify_modify in Hhas. rewrite getC_modify_same in Hhas.
    split; [| split].
    + rewrite emitted_modify_same by (now rewrite applyTransition_notified).
      rewrite emitted_modify_same by reflexivity.
      rewrite emitted_modify_takeDamage. f_equal.
      rewrite modify_modify. now apply emitted_modify_same.
    + congruence.
    + rewrite getC_modify_same, getC_modify_same.
      rewrite applyTransition_hasHit; [reflexivity |].
      change (currentState (getC a (modify opp (takeDamage res)
                 (modify a (AttackState_advance dt) (modify a (tickCooldown dt) w))))
              = Attack \/
              currentState (getC a (modify opp (takeDamage res)
                 (modify a (AttackState_advance dt) (modify a (tickCooldown dt) w))))
              = Hit).
      destruct (Ref_eqb opp a) eqn:Eo.
      * apply Ref_eqb_eq in Eo. subst opp. right.
        rewrite getC_modify_same. apply takeDamage_currentState.
      * apply Ref_eqb_neq in Eo. left.
        rewrite getC_modify_other by exact Eo.
        rewrite modify_modify, getC_modify_same. congruence.
Qed.

(** Every other operation leaves the [hasHit] flag of [a] as it is. *)
Lemma step_other_hasHit (a : Ref) (op : Op) (w : World) :
  isUpdateOf a op = false ->
  exists w', step op w = Normal w' /\ hasHit (getC a w') = hasHit (getC a w).
Proof.
  intro Hop.
  set (P := fun c => hasHit c = hasHit (getC a w)).
  assert (HP : P (getC a w)) by reflexivity.
  assert (Htd : forall res, stable P (takeDamage res)).
  { intros res c Hc. unfold P in *. now rewrite takeDamage_hasHit. }
  change (exists w', step op w = Normal w' /\ P (getC a w')).
  destruct op as [r dt | r res | r | r p | r o | r cmd | x y]; simpl in *.
  - apply Ref_eqb_neq in Hop.
    destruct (update_cases r dt w)
      as [[_ E] | [[_ E] | [_ (opp & res & _ & _ & E)]]];
      rewrite E; eexists; (split; [reflexivity |]);
      repeat first [ apply modify_other_keeps; [exact Hop |]
                   | apply modify_stable; [apply Htd |] ]; exact HP.
  - eexists; split; [reflexivity |]. apply modify_stable; auto.
  - eexists; split; [reflexivity |]. apply modify_stable; auto.
    intros c Hc. unfold P in *. rewrite <- Hc. apply switchElementalMode_fields.
  - eexists; split; [reflexivity |]. apply modify_stable; auto.
    intros c Hc. unfold P in *. rewrite <- Hc. apply reset_fields.
  - eexists; split; [reflexivity |]. apply modify_stable; auto.
    intros c Hc. exact Hc.
  - eexists; split; [reflexivity |]. apply modify_stable; auto.
    intros c Hc. unfold P in *. rewrite <- Hc. apply execute_fields.
  - eexists; split; [reflexivity |]. unfold resolveCharacterCollision.
    destruct (negb _); [exact HP |].
    destruct (Qltb _ _); cbv zeta;
      repeat (apply modify_stable; [intros c Hc; exact Hc |]); exact HP.
Qed.

Lemma activationHits_bound (a : Ref) (ops : list Op) (w : World) :
  (activationHits a ops w <= if hasHit (getC a w) then 0 else 1)%nat.
Proof.
  revert w. induction ops as [| op rest IH]; intro w; simpl.
  - destruct (hasHit _); lia.
  - destruct (currentState (getC a w)) eqn:Hs; simpl;
      try (destruct (hasHit _); lia).
    destruct (isUpdateOf a op) eqn:Hop.
    + destruct op as [r dt | | | | | |]; simpl in Hop; try discriminate.
      apply Ref_eqb_eq in Hop. subst r. simpl.
      destruct (update_attack_hits a dt w Hs)
        as (w' & E & [[He Hh] | (He & Hh & Hh')]);
        rewrite E; specialize (IH w').
      * rewrite He, Hh in *. destruct (hasHit (getC a w)); lia.
      * rewrite Hh. rewrite Hh' in IH. rewrite He. lia.
    + destruct (step_other_hasHit a op w Hop) as (w' & E & Hh).
      rewrite E. specialize (IH w'). rewrite Hh in IH. simpl. exact IH.
Qed.

(** C1: [AttackState.enter] resets [hasHit]; in one activation of the
    Attack state of a character, whatever the driver does and however many
    [update] frames of the attacker the activation has, the frames invoke
    [takeDamage] at most once in total; and once [hasHit] is set, no frame
    of the activation invokes it. *)
Theorem attack_hits_at_most_once (a : Ref) (ops : list Op) (w : World) :
  (forall c : Character, hasHit (AttackState_enter c) = false) /\
  (activationHits a ops w <= 1)%nat /\
  (activationHits a ops w <= if hasHit (getC a w) then 0 else 1)%nat.
Proof.
  split.
  - intro c.
    destruct c as [pid pos vel fr hp cd att stun lhs hb gr mode st sts fl opp ntf].
    eval_methods. reflexivity.
  - pose proof (activationHits_bound a ops w) as H.
    split; [| exact H]. destruct (hasHit _); lia.
Qed.

(** ** C4: switching the elemental mode *)

(** C4: while [isAttacking] or [isHitStunned] is set,
    [switchElementalMode] returns normally and changes nothing: the mode is
    kept and no event is emitted.  When neither flag is set, the mode is
    toggled between Fire and Water, exactly one mode-change event carrying
    the player and the name of the new mode is emitted, no other field
    changes, and a second call right after restores the original mode. *)
Theorem switchElementalMode_spec (c : Character) :
  (isAttacking c = true \/ isHitStunned c = true -> switchElementalMode c = c) /\
  (isAttacking c = false -> isHitStunned c = false ->
     let c' := switchElementalMode c in
     (elementalMode c = Fire -> elementalMode c' = Water) /\
     (elementalMode c = Water -> elementalMode c' = Fire) /\
     notified c' =
       ModeChangeEvent (playerId c) (IElementalMode.name (getElementalMode c'))
         :: notified c /\
     c' = notify (ModeChangeEvent (playerId c)
                    (IElementalMode.name (getElementalMode c')))
            (set_elementalMode (toggleMode (elementalMode c)) c) /\
     elementalMode (switchElementalMode c') = elementalMode c /\
     notified (switchElementalMode c') =
       ModeChangeEvent (playerId c) (IElementalMode.name (getElementalMode c))
         :: notified c').
Proof.
  destruct c as [pid pos vel fr hp cd att stun lhs hb gr mode st sts fl opp ntf].
  unfold switchElementalMode, getElementalMode. simpl. split.
  - intros [-> | ->]; [reflexivity | now rewrite orb_true_r].
  - intros -> ->. simpl. destruct mode; repeat split; congruence.
Qed.

(** ** C6: hit checking without an opponent *)

(** C6, as the code has it: on a character with no opponent assigned,
    [checkAttackHit] returns [false] and leaves the store as it is; it does
    not throw.  The guard [!this.attackHitbox || !this.opponent] answers
    before the opponent is dereferenced. *)
Theorem checkAttackHit_without_opponent (self : Ref) (w : World) :
  opponent (getC self w) = None ->
  checkAttackHit self w = Normal (false, w) /\
  ~ failsFast (checkAttackHit self w).
Proof.
  intro Hopp.
  assert (E : checkAttackHit self w = Normal (false, w)).
  { unfold checkAttackHit. rewrite Hopp.
    destruct (attackHitbox (getC self w)); reflexivity. }
  split; [exact E |]. rewrite E. intros [e He]. discriminate.
Qed.


(** * Further properties of the code *)

(** ** [CollisionSystem]: geometry *)

(** X1: [getCollisionPoint] answers [null] exactly when [checkAABB] sees no
    overlap; for rectangles with non-negative sizes that overlap, the point
    it returns lies in both rectangles, and it is the same point (up to
    [==]) whichever rectangle comes first. *)
Theorem getCollisionPoint_inside (a b : Rectangle.t) :
  0 <= Rectangle.width a -> 0 <= Rectangle.height a ->
  0 <= Rectangle.width b -> 0 <= Rectangle.height b ->
  (getCollisionPoint a b = None <-> checkAABB a b = false) /\
  (forall p, getCollisionPoint a b = Some p ->
     (Rectangle.x a <= Vector2.x p <= Rectangle.x a + Rectangle.width a) /\
     (Rectangle.x b <= Vector2.x p <= Rectangle.x b + Rectangle.width b) /\
     (Rectangle.y a <= Vector2.y p <= Rectangle.y a + Rectangle.height a) /\
     (Rectangle.y b <= Vector2.y p <= Rectangle.y b + Rectangle.height b) /\
     exists q, getCollisionPoint b a = Some q /\
               Vector2.x q == Vector2.x p /\ Vector2.y q == Vector2.y p).
Proof.
  intros Hwa Hha Hwb Hhb. split.
  - unfold getCollisionPoint. destruct (checkAABB a b); simpl; split;
      congruence.
  - intros p Hp. unfold getCollisionPoint in Hp.
    destruct (checkAABB a b) eqn:Hab; simpl in Hp; [| discriminate].
    injection Hp as <-.
    assert (Hba : checkAABB b a = true).
    { apply checkAABB_true. apply checkAABB_true in Hab. intuition. }
    apply checkAABB_true in Hab. destruct Hab as (H1 & H2 & H3 & H4).
    cbn [Vector2.x Vector2.y].
    repeat split;
      try (halves; split_min_max; lra).
    unfold getCollisionPoint. rewrite Hba. simpl.
    eexists. split; [reflexivity |].
    cbn [Vector2.x Vector2.y]. split; halves; split_min_max; lra.
Qed.

(** X2: the overlap test does not depend on the order of its arguments, and
    a rectangle overlaps itself exactly when its width and height are
    positive. *)
Theorem checkAABB_symmetric (a b : Rectangle.t) :
  checkAABB a b = checkAABB b a /\
  (checkAABB a a = true <-> 0 < Rectangle.width a /\ 0 < Rectangle.height a).
Proof.
  split.
  - unfold checkAABB.
    destruct (Qltb (Rectangle.x a) _), (Qltb (Rectangle.x b) _),
             (Qltb (Rectangle.y a) _), (Qltb (Rectangle.y b) _); reflexivity.
  - rewrite checkAABB_true. split.
    + intros (H1 & _ & H3 & _). split; lra.
    + intros [H1 H2]. repeat split; lra.
Qed.

Lemma resolve_keeps_sides_once (a b : Ref) (w : World) :
  a <> b ->
  let w1 := resolveCharacterCollision a b w in
  (Vector2.x (position (getC a w)) < Vector2.x (position (getC b w)) ->
     Vector2.x (position (getC a w1)) <= Vector2.x (position (getC a w)) /\
     Vector2.x (position (getC b w)) <= Vector2.x (position (getC b w1))) /\
  (Vector2.x (position (getC b w)) <= Vector2.x (position (getC a w)) ->
     Vector2.x (position (getC b w1)) <= Vector2.x (position (getC b w)) /\
     Vector2.x (position (getC a w)) <= Vector2.x (position (getC a w1))).
Proof.
  intros Hab w1.
  destruct (checkCharacterCollision (getC a w) (getC b w)) eqn:Hcol.
  2: { unfold w1, resolveCharacterCollision. rewrite Hcol. cbn [negb].
       split; intros _; split; apply Qle_refl. }
  pose proof (resolveCharacterCollision_unfold w Hab Hcol) as Hres.
  cbv zeta in Hres. fold w1 in Hres.
  pose proof (collision_overlap_pos _ _ Hcol) as Hpos.
  rewrite <- overlapX_is_overlapWidth in Hpos.
  set (p := Qmin _ _) in *.
  set (ax := Vector2.x (position (getC a w))) in *.
  set (bx := Vector2.x (position (getC b w))) in *.
  destruct (Qltb ax bx) eqn:Hlt; destruct Hres as [Ea Eb]; rewrite Ea, Eb;
    cbn [position set_position_x set_position Vector2.x Vector2.y];
    fold ax bx; clearbody p ax bx w1;
    [apply Qltb_iff in Hlt | apply Qltb_false_iff in Hlt];
    halves; split; intros H; split; lra.
Qed.

(** X3: collision resolution keeps the two combatants on their sides.
    However often [resolveCharacterCollision] runs on two distinct
    combatants, the one that started strictly to the left is never moved to
    the right and stays strictly to the left of the other, which is never
    moved to the left; when [a] does not start to the left of [b], [a] is
    never moved to the left, [b] never to the right, and [b] does not get
    past [a].  The pushes only go outwards, so the distance between the two
    never shrinks. *)
Theorem resolveCharacterCollision_keeps_sides (a b : Ref) (n : nat) (w : World) :
  a <> b ->
  let w' := Nat.iter n (resolveCharacterCollision a b) w in
  (Vector2.x (position (getC a w)) < Vector2.x (position (getC b w)) ->
     Vector2.x (position (getC a w')) <= Vector2.x (position (getC a w)) /\
     Vector2.x (position (getC b w)) <= Vector2.x (position (getC b w')) /\
     Vector2.x (position (getC a w')) < Vector2.x (position (getC b w'))) /\
  (Vector2.x (position (getC b w)) <= Vector2.x (position (getC a w)) ->
     Vector2.x (position (getC b w')) <= Vector2.x (position (getC b w)) /\
     Vector2.x (position (getC a w)) <= Vector2.x (position (getC a w')) /\
     Vector2.x (position (getC b w')) <= Vector2.x (position (getC a w'))).
Proof.
  intros Hab. cbv zeta. induction n as [| n IH].
  - change (Nat.iter 0 (resolveCharacterCollision a b) w) with w.
    split; intro H; repeat split; try apply Qle_refl; exact H.
  - change (Nat.iter (S n) (resolveCharacterCollision a b) w)
      with (resolveCharacterCollision a b
              (Nat.iter n (resolveCharacterCollision a b) w)).
    destruct IH as [IHlt IHge].
    destruct (resolve_keeps_sides_once (Nat.iter n (resolveCharacterCollision a b) w) Hab)
      as [Slt Sge].
    cbv zeta in Slt, Sge.
    set (wn := Nat.iter n (resolveCharacterCollision a b) w) in *.
    set (w1 := resolveCharacterCollision a b wn) in *.
    clearbody w1 wn.
    split; intro H.
    + destruct (IHlt H) as (I1 & I2 & I3).
      destruct (Slt I3) as (S1 & S2).
      repeat split; lra.
    + destruct (IHge H) as (I1 & I2 & I3).
      destruct (Sge I3) as (S1 & S2).
      repeat split; lra.
Qed.

(** ** The behaviour states, frame by frame *)

(** Evaluate a whole state update on a character given by its fields,
    splitting on every test of the body. *)
Ltac eval_physics :=
  cbv beta iota zeta delta
    [localUpdate IdleState_update MoveState_update HitState_update
     AttackState_advance applyGravity checkGroundCollision checkBoundaries
     tickCooldown updateAttackHitbox width height
     set_position set_velocity set_facingRight set_health
     set_attackCooldownTimer set_isAttacking set_isHitStunned set_lastHitStun
     set_attackHitbox set_isGrounded set_elementalMode set_currentState
     set_states set_inputFlags set_opponent
     set_position_x set_position_y set_velocity_x set_velocity_y
     set_attackTimer set_hasHit set_stunTimer set_stunDuration
     attackTimer hasHit stunTimer stunDuration
     playerId position velocity facingRight health attackCooldownTimer
     isAttacking isHitStunned lastHitStun attackHitbox isGrounded
     elementalMode currentState states inputFlags opponent notified
     attack hit AttackStateData.attackTimer AttackStateData.hasHit
     HitStateData.stunTimer HitStateData.stunDuration
     InputFlags.left InputFlags.right InputFlags.up InputFlags.down
     InputFlags.attack InputFlags.moving
     Vector2.x Vector2.y].

Ltac split_tests :=
  repeat (eval_physics;
          match goal with
          | |- context [if ?b then _ else _] => destruct b eqn:?
          | |- context [match ?o with Some _ => _ | None => _ end] =>
              destruct o eqn:?
          end);
  eval_physics.

Lemma keeps_trans {A : Type} (g : Character -> A) (c1 c2 c3 : Character) :
  keeps g c1 c2 -> keeps g c2 c3 -> keeps g c1 c3.
Proof. unfold keeps; congruence. Qed.

(** One assignment or one physics call on a character given by its fields
    keeps [g]. *)
Ltac keeps_call :=
  let c0 := fresh "c" in
  intro c0;
  destruct c0 as [? ? ? ? ? ? ? ? ? ? ? ? ? [[? ?] [? ?]] [? ? ? ? ? ?] ? ?];
  unfold keeps; split_tests; reflexivity.

(** Walk through a method body one assignment at a time, as [same_chain]
    does, for any view [g] of the character. *)
Ltac keeps_step :=
  lazymatch goal with
  | H : keeps ?g ?c ?x |- keeps ?g ?c ?x => exact H
  | |- keeps ?g ?c ?c => reflexivity
  | |- keeps ?g ?c (let x := ?E in @?B x) =>
      lazymatch type of E with
      | Character =>
          let H := fresh "H" in
          assert (H : keeps g c E);
          [ | change (keeps g c (B E)); revert H; generalize E;
              let c1 := fresh "c" in intros c1 H; cbv beta ]
      | _ => change (keeps g c (B E)); cbv beta
      end
  | |- keeps _ _ (if ?b then _ else _) => destruct b
  | |- keeps _ _ (match (if ?b then _ else _) with pair _ _ => _ end) =>
      destruct b; cbv iota
  | |- keeps ?g ?c (?f ?X) =>
      lazymatch type of X with
      | Character =>
          apply (@keeps_trans _ g c X (f X)); [ | generalize X; keeps_call ]
      end
  end.

Ltac keeps_chain := repeat keeps_step.

(** The cooldown and the fields of the state objects after the physics of
    one frame. *)
Lemma localUpdate_timers (s : StateName) (dt : Q) (c : Character) :
  attackCooldownTimer (localUpdate s dt c) = attackCooldownTimer c /\
  attackTimer (localUpdate s dt c) = attackTimer c /\
  stunDuration (localUpdate s dt c) = stunDuration c /\
  stunTimer (localUpdate s dt c) =
    match s with Hit => stunTimer c + dt * 1000 | _ => stunTimer c end.
Proof.
  assert (H1 : keeps (fun c => (attackCooldownTimer c, attackTimer c, stunDuration c))
                 c (localUpdate s dt c)).
  { destruct s; unfold localUpdate, IdleState_update, MoveState_update,
      HitState_update; keeps_chain. }
  assert (H2 : stunTimer (localUpdate s dt c) =
               match s with Hit => stunTimer c + dt * 1000 | _ => stunTimer c end).
  { destruct s; unfold localUpdate.
    - symmetry. change (keeps stunTimer c (IdleState_update dt c)).
      unfold IdleState_update. keeps_chain.
    - symmetry. change (keeps stunTimer c (MoveState_update dt c)).
      unfold MoveState_update. keeps_chain.
    - reflexivity.
    - transitivity (stunTimer (set_stunTimer (stunTimer c + dt * 1000) c));
        [| destruct c as [? ? ? ? ? ? ? ? ? ? ? ? ? [[? ?] [? ?]] ? ? ?];
           reflexivity].
      symmetry.
      change (keeps stunTimer (set_stunTimer (stunTimer c + dt * 1000) c)
                (HitState_update dt c)).
      unfold HitState_update. keeps_chain. }
  unfold keeps in H1. injection H1 as E1 E2 E3.
  repeat split; congruence.
Qed.

(** *** The frame of one character, as a function of the store before it *)

Lemma Qltb_irrefl (x y : Q) : x == y -> Qltb x y = false.
Proof. intro H. apply Qltb_false_iff. rewrite H. apply Qle_refl. Qed.

(** In exact arithmetic the hitbox of a character lies beside its hurtbox. *)
Lemma no_self_intersect (c : Character) :
  Hitbox.intersects (attackHitboxOf c) (getHurtbox c) = false.
Proof.
  unfold Hitbox.intersects, attackHitboxOf, getHurtbox.
  cbn [Hitbox.x Hitbox.y Hitbox.width Hitbox.height
       Rectangle.x Rectangle.y Rectangle.width Rectangle.height].
  destruct (facingRight c).
  - rewrite (@Qltb_irrefl (Vector2.x (position c) + width c)
                          (Vector2.x (position c) + width c)) by reflexivity.
    reflexivity.
  - rewrite (@Qltb_irrefl (Vector2.x (position c))
                          (Vector2.x (position c) - ATTACK_WIDTH cfg + ATTACK_WIDTH cfg))
      by lra.
    now rewrite andb_false_r.
Qed.

Lemma hitboxTracks_updateAttackHitbox (c : Character) :
  hitboxTracks (updateAttackHitbox c).
Proof.
  destruct c as [pid pos vel fr hp cd att stun lhs hb gr mode st sts fl opp ntf].
  intros hb'. destruct hb as [hb |]; [| discriminate].
  unfold updateAttackHitbox. cbn [attackHitbox set_attackHitbox].
  intro H. injection H as <-. reflexivity.
Qed.

Lemma hitboxTracks_atHitCheck (dt : Q) (c : Character) :
  hitboxTracks (atHitCheck dt c).
Proof.
  unfold atHitCheck, AttackState_advance. cbv zeta.
  apply hitboxTracks_updateAttackHitbox.
Qed.

Lemma sameCombat_atHitCheck (dt : Q) (c : Character) :
  sameCombat c (atHitCheck dt c).
Proof. apply same_frame_start. Qed.

Lemma sameCombat_all (c c' : Character) :
  sameCombat c c' ->
  playerId c' = playerId c /\ health c' = health c /\
  isAttacking c' = isAttacking c /\ isHitStunned c' = isHitStunned c /\
  lastHitStun c' = lastHitStun c /\
  isSome (attackHitbox c') = isSome (attackHitbox c) /\
  elementalMode c' = elementalMode c /\ currentState c' = currentState c /\
  hasHit c' = hasHit c /\ inputFlags c' = inputFlags c /\
  opponent c' = opponent c /\ notified c' = notified c.
Proof.
  intro H. unfold sameCombat, combat in H.
  injection H as H1 H2 H3 H4 H5 H6 H7 H8 H9 H10 H11 H12.
  repeat split; congruence.
Qed.

Lemma setC_modify_chain (self : Ref) f g h (w : World) :
  modify self h (modify self g (modify self f w))
  = setC self (h (g (f (getC self w)))) w.
Proof. destruct self, w; reflexivity. Qed.

(** A frame that does not start in the Attack state touches one cell. *)
Lemma update_local_frame (self : Ref) (dt : Q) (w : World) :
  currentState (getC self w) <> Attack ->
  update self dt w =
    Normal (setC self
              (applyTransition
                 (localUpdate (currentState (getC self w)) dt
                    (tickCooldown dt (getC self w))))
              w).
Proof.
  intro Hs.
  destruct (update_cases self dt w)
    as [[_ E] | [[Hc _] | [Hc _]]]; try congruence.
  rewrite E. f_equal. apply setC_modify_chain.
Qed.

(** A frame that starts in the Attack state either misses, and touches one
    cell, or hits: then the opponent is another character, whose hurtbox
    the hitbox overlaps, and it takes the damage the strategy computes. *)
Lemma update_attack_frame (self : Ref) (dt : Q) (w : World) :
  currentState (getC self w) = Attack ->
  let c1 := atHitCheck dt (getC self w) in
  update self dt w = Normal (setC self (applyTransition c1) w) \/
  exists opp hb,
    opp <> self /\ hasHit c1 = false /\ opponent c1 = Some opp /\
    attackHitbox c1 = Some hb /\
    Hitbox.intersects hb (getHurtbox (getC opp w)) = true /\
    update self dt w =
      Normal (setC self (applyTransition (set_hasHit true c1))
                (modify opp
                   (takeDamage
                      (IElementalMode.attack (getElementalMode c1) c1 (getC opp w)))
                   w)).
Proof.
  intros Hs c1.
  set (w1 := modify self (tickCooldown dt) w).
  set (w2 := modify self (AttackState_advance dt) w1).
  assert (Hc1 : getC self w2 = c1).
  { unfold w2, w1. now rewrite !getC_modify_same. }
  assert (Hst : currentState (getC self w1) = Attack).
  { unfold w1. rewrite getC_modify_same, currentState_tickCooldown. exact Hs. }
  unfold update. fold w1. rewrite Hst. cbn [State_update].
  unfold AttackState_update. fold w2. rewrite Hc1.
  destruct (hasHit c1) eqn:Hhas; cbn [negb bind].
  - left. rewrite update_end. f_equal.
    unfold w2, w1. apply setC_modify_chain.
  - destruct (checkAttackHit_cases self w2)
      as [E | (opp & hb & Hopp & Hhb & Hint & E)]; rewrite E; cbn [bind].
    + left. rewrite update_end. f_equal.
      unfold w2, w1. apply setC_modify_chain.
    + right. rewrite Hc1 in *.
      assert (Hne : opp <> self).
      { intros ->.
        rewrite (hitboxTracks_atHitCheck dt (getC self w) Hhb) in Hint.
        rewrite Hc1 in Hint. unfold c1 in Hint.
        rewrite no_self_intersect in Hint. discriminate. }
      assert (Hoppw : getC opp w2 = getC opp w).
      { unfold w2, w1. rewrite !getC_modify_other by congruence. reflexivity. }
      rewrite Hoppw in *.
      exists opp, hb. repeat split; try assumption.
      rewrite update_end. f_equal.
      unfold w2, w1. clear - Hne.
      destruct self, opp, w; try congruence; reflexivity.
Qed.

Lemma transitionTo_more (newState : StateName) (c : Character) :
  let c' := transitionTo newState c in
  isAttacking c' =
    (if isAttackState newState then true
     else if isAttackState (currentState c) then false else isAttacking c) /\
  isHitStunned c' =
    match newState, currentState c with
    | Hit, _ => true
    | _, Hit => false
    | _, _ => isHitStunned c
    end /\
  lastHitStun c' = match currentState c with Hit => 0 | _ => lastHitStun c end /\
  attackTimer c' = (if isAttackState newState then 0 else attackTimer c) /\
  attackCooldownTimer c' =
    (if isAttackState newState
     then ATTACK_COOLDOWN cfg
          / IElementalMode.attackSpeedMultiplier (getElementalMode c)
     else attackCooldownTimer c) /\
  isGrounded c' = isGrounded c /\
  facingRight c' = facingRight c /\
  Vector2.y (velocity c') = Vector2.y (velocity c) /\
  (isAttackState newState = true -> attackHitbox c' = Some (attackHitboxOf c')) /\
  (isAttackState newState = false -> isAttackState (currentState c) = true ->
   attackHitbox c' = None) /\
  (isAttackState newState = false -> isAttackState (currentState c) = false ->
   attackHitbox c' = attackHitbox c).
Proof.
  destruct c as [pid pos vel fr hp cd att stun lhs hb gr mode st sts fl opp ntf].
  destruct newState, st, hb; eval_methods;
    repeat split; try reflexivity; try discriminate.
Qed.

Lemma tickCooldown_states (dt : Q) (c : Character) :
  states (tickCooldown dt c) = states c.
Proof. unfold tickCooldown. destruct (Qltb _ _); reflexivity. Qed.

Lemma atHitCheck_timers (dt : Q) (c : Character) :
  attackTimer (atHitCheck dt c) = attackTimer c + dt * 1000 /\
  stunTimer (atHitCheck dt c) = stunTimer c /\
  stunDuration (atHitCheck dt c) = stunDuration c /\
  attackCooldownTimer (atHitCheck dt c) = attackCooldownTimer (tickCooldown dt c) /\
  facingRight (atHitCheck dt c) = facingRight c /\
  Vector2.x (velocity (atHitCheck dt c)) = Vector2.x (velocity c).
Proof.
  unfold atHitCheck.
  pose proof (tickCooldown_states dt c) as Hst.
  set (c0 := tickCooldown dt c) in *.
  assert (H1 : keeps (fun c => (stunTimer c, stunDuration c, attackCooldownTimer c,
                                facingRight c, Vector2.x (velocity c)))
                 c0 (AttackState_advance dt c0)).
  { unfold AttackState_advance. keeps_chain. }
  assert (H2 : keeps attackTimer (set_attackTimer (attackTimer c0 + dt * 1000) c0)
                 (AttackState_advance dt c0)).
  { unfold AttackState_advance. keeps_chain. }
  unfold keeps in H1, H2. injection H1 as E1 E2 E3 E4 E5.
  assert (Hc0 : facingRight c0 = facingRight c /\
                Vector2.x (velocity c0) = Vector2.x (velocity c)).
  { unfold c0, tickCooldown. destruct (Qltb _ _); split; reflexivity. }
  unfold attackTimer, stunTimer, stunDuration in *.
  rewrite <- E1, <- E2, <- E3, <- E4, <- E5, <- H2, <- Hst.
  destruct Hc0 as [-> ->].
  destruct c0 as [? ? ? ? ? ? ? ? ? ? ? ? ? [[? ?] [? ?]] ? ? ?].
  repeat split; reflexivity.
Qed.

(** Expose the last calls of a method body: expand its assignments and
    split the tests that bind a pair. *)
Ltac open_lets :=
  cbv zeta;
  repeat match goal with
         | |- context [match (if ?b then _ else _) with pair _ _ => _ end] =>
             destruct b; cbv beta iota zeta
         end.

Lemma groundOK_checkGroundCollision (c : Character) :
  groundOK (checkGroundCollision c).
Proof.
  destruct c as [pid pos vel fr hp cd att stun lhs hb gr mode st sts fl opp ntf].
  destruct pos as [px py].
  unfold groundOK, checkGroundCollision, height.
  cbn [position Vector2.y].
  destruct (Qle_bool (GROUND_Y cfg - CHARACTER_HEIGHT cfg) py) eqn:E;
    cbn [position isGrounded set_isGrounded set_velocity_y set_position_y
         set_position set_velocity Vector2.x Vector2.y].
  - split; [apply Qle_refl |]. split; reflexivity.
  - assert (Hlt : py < GROUND_Y cfg - CHARACTER_HEIGHT cfg).
    { apply Qltb_iff. unfold Qltb. now rewrite E. }
    split; [lra |]. split; [discriminate | intro; lra].
Qed.

Lemma groundOK_keeps (c c' : Character) :
  keeps (fun c => (Vector2.y (position c), isGrounded c)) c c' ->
  groundOK c -> groundOK c'.
Proof.
  unfold keeps, groundOK, height. intro H. injection H as -> ->. tauto.
Qed.

Ltac ground_after_last_call :=
  lazymatch goal with
  | |- groundOK (?f (checkGroundCollision ?X)) =>
      apply (@groundOK_keeps (checkGroundCollision X));
        [ generalize (checkGroundCollision X); keeps_call
        | apply groundOK_checkGroundCollision ]
  end.

Lemma groundOK_localUpdate (s : StateName) (dt : Q) (c : Character) :
  s <> Attack -> groundOK (localUpdate s dt c).
Proof.
  intro Hs. destruct s; [| | congruence |]; unfold localUpdate.
  - unfold IdleState_update. apply groundOK_checkGroundCollision.
  - unfold MoveState_update. open_lets; ground_after_last_call.
  - unfold HitState_update. open_lets; ground_after_last_call.
Qed.

Lemma groundOK_advance (dt : Q) (c : Character) :
  groundOK (AttackState_advance dt c).
Proof. unfold AttackState_advance. open_lets; ground_after_last_call. Qed.

Lemma set_hasHit_fields (b : bool) (c : Character) :
  currentState (set_hasHit b c) = currentState c /\
  attackTimer (set_hasHit b c) = attackTimer c /\
  inputFlags (set_hasHit b c) = inputFlags c /\
  isAttacking (set_hasHit b c) = isAttacking c /\
  health (set_hasHit b c) = health c /\
  notified (set_hasHit b c) = notified c /\
  position (set_hasHit b c) = position c /\
  isGrounded (set_hasHit b c) = isGrounded c /\
  attackHitbox (set_hasHit b c) = attackHitbox c /\
  attackHitboxOf (set_hasHit b c) = attackHitboxOf c.
Proof.
  destruct c as [? ? ? ? ? ? ? ? ? ? ? ? ? [[? ?] [? ?]] ? ? ?].
  repeat split; reflexivity.
Qed.

(** What the character of a frame is when the frame ends. *)
Lemma update_self_result (self : Ref) (dt : Q) (w : World) :
  exists w' Y,
    update self dt w = Normal w' /\
    getC self w' = applyTransition Y /\
    (currentState (getC self w) <> Attack /\
     Y = localUpdate (currentState (getC self w)) dt (tickCooldown dt (getC self w))
     \/
     currentState (getC self w) = Attack /\
     (Y = atHitCheck dt (getC self w) \/
      Y = set_hasHit true (atHitCheck dt (getC self w)))).
Proof.
  destruct (currentState (getC self w)) eqn:Hs.
  1, 2, 4:
    (eexists; eexists; split;
     [ apply update_local_frame; congruence
     | split; [apply getC_setC_same | left; rewrite Hs; split; [discriminate | reflexivity]] ]).
  destruct (update_attack_frame self dt w Hs)
    as [E | (opp & hb & Hne & _ & _ & _ & _ & E)];
    cbv zeta in E; rewrite E; eexists; eexists; (split; [reflexivity |]).
  - split; [apply getC_setC_same |]. right. split; [reflexivity | now left].
  - split; [apply getC_setC_same |]. right. split; [reflexivity | now right].
Qed.

(** X4: a stunned character cannot be interrupted by its input.  A frame
    that starts in the Hit state touches no other character; it ends in the
    Idle state, with the stun flag and [lastHitStun] cleared, exactly when
    the stun timer advanced by the frame reaches the stun duration, and in
    the Hit state with the advanced timer otherwise, whatever the input
    flags are. *)
Theorem hit_state_recovery (self : Ref) (dt : Q) (w : World) :
  currentState (getC self w) = Hit ->
  exists w',
    update self dt w = Normal w' /\
    (forall x, x <> self -> getC x w' = getC x w) /\
    (stunDuration (getC self w) <= stunTimer (getC self w) + dt * 1000 ->
       currentState (getC self w') = Idle /\
       isHitStunned (getC self w') = false /\
       lastHitStun (getC self w') = 0) /\
    (stunTimer (getC self w) + dt * 1000 < stunDuration (getC self w) ->
       currentState (getC self w') = Hit /\
       stunTimer (getC self w') = stunTimer (getC self w) + dt * 1000 /\
       stunDuration (getC self w') = stunDuration (getC self w) /\
       isHitStunned (getC self w') = isHitStunned (getC self w)).
Proof.
  intro Hs. set (c := getC self w) in *.
  assert (Hn : currentState c <> Attack) by congruence.
  rewrite (update_local_frame self dt w Hn). fold c. rewrite Hs.
  eexists. split; [reflexivity |].
  split; [intros x Hx; apply getC_setC_other; congruence |].
  rewrite getC_setC_same.
  set (c2 := localUpdate Hit dt (tickCooldown dt c)).
  destruct (localUpdate_timers Hit dt (tickCooldown dt c)) as (_ & _ & Hdur & Htim).
  fold c2 in Hdur, Htim.
  assert (Hsame : sameCombat c c2).
  { eapply sameCombat_trans; [| apply same_localUpdate].
    apply same_tickCooldown, sameCombat_refl. }
  destruct (sameCombat_all Hsame) as (_ & _ & _ & Hstun & _ & _ & _ & Hst & _).
  unfold stunTimer, stunDuration in *.
  rewrite tickCooldown_states in Hdur, Htim.
  unfold applyTransition. rewrite Hst, Hs. cbn [State_canTransition].
  unfold HitState_canTransition, stunTimer, stunDuration.
  rewrite Hdur, Htim.
  destruct (Qle_bool _ _) eqn:E.
  - split.
    + intros _.
      destruct (transitionTo_fields Idle c2) as (H1 & _).
      destruct (transitionTo_more Idle c2) as (_ & H2 & H3 & _).
      cbv zeta in *. rewrite Hst, Hs in H2, H3. auto.
    + intro Hlt. apply Qle_bool_iff in E. lra.
  - split.
    + intro Hle. apply Qle_bool_iff in Hle. congruence.
    + intros _. rewrite Hst, Hs, Hdur, Htim, Hstun. auto.
Qed.

Lemma applyTransition_from_attack (c : Character) :
  currentState c = Attack ->
  applyTransition c =
    if Qle_bool (ATTACK_DURATION cfg) (attackTimer c)
    then transitionTo (if InputFlags.moving (inputFlags c) then Move else Idle) c
    else c.
Proof.
  intro Hs. unfold applyTransition. rewrite Hs. cbn [State_canTransition].
  unfold AttackState_canTransition.
  destruct (Qle_bool _ _); [| reflexivity].
  destruct (InputFlags.moving _); reflexivity.
Qed.

(** X5: an attack lasts [ATTACK_DURATION].  A frame that starts in the
    Attack state ends in Move (when the moving flag is set) or Idle, with
    the hitbox removed and [isAttacking] cleared, exactly when the attack
    timer advanced by the frame reaches [ATTACK_DURATION], whether or not
    the frame landed a hit; otherwise it stays in the Attack state with the
    advanced timer. *)
Theorem attack_state_duration (self : Ref) (dt : Q) (w : World) :
  currentState (getC self w) = Attack ->
  exists w',
    update self dt w = Normal w' /\
    (ATTACK_DURATION cfg <= attackTimer (getC self w) + dt * 1000 ->
       currentState (getC self w') =
         (if InputFlags.moving (inputFlags (getC self w)) then Move else Idle) /\
       attackHitbox (getC self w') = None /\
       isAttacking (getC self w') = false) /\
    (attackTimer (getC self w) + dt * 1000 < ATTACK_DURATION cfg ->
       currentState (getC self w') = Attack /\
       attackTimer (getC self w') = attackTimer (getC self w) + dt * 1000).
Proof.
  intro Hs. set (c := getC self w) in *.
  destruct (update_self_result self dt w) as (w' & Y & E & Hself & HY).
  fold c in HY. destruct HY as [[Hn _] | [_ HY]]; [congruence |].
  exists w'. split; [exact E |]. rewrite Hself.
  destruct (sameCombat_all (sameCombat_atHitCheck dt c))
    as (_ & _ & _ & _ & _ & _ & _ & Hst & _ & Hfl & _).
  destruct (atHitCheck_timers dt c) as (Htim & _).
  destruct (set_hasHit_fields true (atHitCheck dt c)) as (S1 & S2 & S3 & _).
  assert (HYf : currentState Y = Attack /\
                attackTimer Y = attackTimer c + dt * 1000 /\
                inputFlags Y = inputFlags c).
  { destruct HY as [-> | ->]; repeat split; congruence. }
  destruct HYf as (Hst' & Htim' & Hfl').
  rewrite (applyTransition_from_attack Y Hst'), Htim', Hfl'.
  destruct (Qle_bool _ _) eqn:Ed.
  - split.
    + intros _.
      set (ns := if InputFlags.moving (inputFlags c) then Move else Idle).
      assert (Hns : isAttackState ns = false)
        by (unfold ns; destruct (InputFlags.moving _); reflexivity).
      destruct (transitionTo_fields ns Y) as (H1 & _).
      destruct (transitionTo_more ns Y) as (H2 & _ & _ & _ & _ & _ & _ & _ & _ & H3 & _).
      cbv zeta in *. rewrite Hns, Hst' in H2. cbn [isAttackState] in H2.
      split; [exact H1 |]. split; [| exact H2].
      apply H3; [exact Hns | rewrite Hst'; reflexivity].
    + intro Hlt. apply Qle_bool_iff in Ed. lra.
  - split.
    + intro Hle. apply Qle_bool_iff in Hle. congruence.
    + intros _. split; assumption.
Qed.

(** X6: one [update] frame of a character changes another character only
    by one [takeDamage], and only when the frame starts in the Attack state
    with [hasHit] unset and that character is the assigned opponent; then
    the hitbox of the attacker, as repositioned in this frame, overlaps the
    hurtbox of the opponent.  A frame that starts in any other state
    changes no other character. *)
Theorem update_changes_others_by_one_hit (self x : Ref) (dt : Q) (w : World) :
  x <> self ->
  exists w',
    update self dt w = Normal w' /\
    (getC x w' = getC x w \/
     (currentState (getC self w) = Attack /\
      hasHit (getC self w) = false /\
      opponent (getC self w) = Some x /\
      Hitbox.intersects (attackHitboxOf (atHitCheck dt (getC self w)))
        (getHurtbox (getC x w)) = true /\
      getC x w' =
        takeDamage
          (IElementalMode.attack
             (getElementalMode (atHitCheck dt (getC self w)))
             (atHitCheck dt (getC self w)) (getC x w))
          (getC x w))).
Proof.
  intro Hx.
  destruct (currentState (getC self w)) eqn:Hs.
  1, 2, 4:
    (rewrite update_local_frame by congruence;
     eexists; split; [reflexivity |]; left;
     apply getC_setC_other; congruence).
  destruct (update_attack_frame self dt w Hs)
    as [E | (opp & hb & Hne & Hhas & Hopp & Hhb & Hint & E)];
    cbv zeta in *; rewrite E; eexists; (split; [reflexivity |]).
  - left. apply getC_setC_other; congruence.
  - rewrite getC_setC_other by congruence.
    destruct (Ref_eqb opp x) eqn:Eo.
    + apply Ref_eqb_eq in Eo. subst opp. right.
      destruct (sameCombat_all (sameCombat_atHitCheck dt (getC self w)))
        as (_ & _ & _ & _ & _ & _ & _ & _ & Hh & _ & Ho & _).
      rewrite <- (hitboxTracks_atHitCheck dt (getC self w) Hhb).
      rewrite getC_modify_same.
      repeat split; congruence.
    + apply Ref_eqb_neq in Eo. left. apply getC_modify_other. exact Eo.
Qed.

Lemma applyTransition_health_notified (c : Character) :
  health (applyTransition c) = health c /\
  notified (applyTransition c) = notified c /\
  position (applyTransition c) = position c /\
  isGrounded (applyTransition c) = isGrounded c.
Proof.
  unfold applyTransition.
  destruct (State_canTransition _ _) as [ns |]; [| repeat split; reflexivity].
  destruct (transitionTo_fields ns c) as (_ & _ & _ & H1 & H2 & _ & _ & _ & H3 & _).
  destruct (transitionTo_more ns c) as (_ & _ & _ & _ & _ & H4 & _).
  repeat split; assumption.
Qed.

(** X7: the [update] frame of a character damages at most its opponent.
    For a character that is not assigned as its own opponent, its own frame
    returns and leaves its health and its emitted events as they were,
    whatever state it starts in and whether or not the frame lands a hit. *)
Theorem update_never_damages_self (self : Ref) (dt : Q) (w : World) :
  opponent (getC self w) <> Some self ->
  exists w',
    update self dt w = Normal w' /\
    health (getC self w') = health (getC self w) /\
    notified (getC self w') = notified (getC self w).
Proof.
  intro Hown.
  destruct (update_hit_cases self dt w)
    as [(f & Hf & E) | (Hs & Hhas & opp & hb & Hopp & Hhb & Hint & E)];
    cbv zeta in *; rewrite E; eexists; (split; [reflexivity |]).
  - rewrite !getC_modify_same.
    destruct (applyTransition_health_notified (f (tickCooldown dt (getC self w))))
      as (-> & -> & _).
    assert (Hsame : sameCombat (getC self w) (f (tickCooldown dt (getC self w)))).
    { destruct Hf as [-> | ->].
      - eapply sameCombat_trans; [| apply same_localUpdate].
        apply same_tickCooldown, sameCombat_refl.
      - apply sameCombat_atHitCheck. }
    destruct (sameCombat_all Hsame)
      as (_ & H1 & _ & _ & _ & _ & _ & _ & _ & _ & _ & H2).
    split; assumption.
  - rewrite !getC_modify_same in Hopp.
    destruct (sameCombat_all (sameCombat_atHitCheck dt (getC self w)))
      as (_ & H1 & _ & _ & _ & _ & _ & _ & _ & _ & Ho & H2).
    unfold atHitCheck in Ho, H1, H2.
    assert (Hne : opp <> self) by (intros ->; congruence).
    rewrite !getC_modify_same.
    rewrite getC_modify_other by exact Hne.
    rewrite !getC_modify_same.
    destruct (applyTransition_health_notified
                (set_hasHit true
                   (AttackState_advance dt (tickCooldown dt (getC self w)))))
      as (-> & -> & _).
    destruct (set_hasHit_fields true
                (AttackState_advance dt (tickCooldown dt (getC self w))))
      as (_ & _ & _ & _ & S1 & S2 & _).
    split; congruence.
Qed.

Lemma hitboxTracks_transitionTo (ns : StateName) (c : Character) :
  hitboxTracks c -> hitboxTracks (transitionTo ns c).
Proof.
  intro Ht.
  destruct (transitionTo_fields ns c)
    as (_ & _ & _ & _ & _ & _ & Hpid & Hmode & Hpos & _).
  destruct (transitionTo_more ns c)
    as (_ & _ & _ & _ & _ & _ & Hfr & _ & Hatt & Hrem & Hkeep).
  cbv zeta in *.
  assert (Hof : attackHitboxOf (transitionTo ns c) = attackHitboxOf c).
  { unfold attackHitboxOf, getElementalMode, width, height.
    now rewrite Hpid, Hmode, Hpos, Hfr. }
  intros hb Hhb.
  destruct (isAttackState ns) eqn:Ens.
  - rewrite (Hatt eq_refl) in Hhb. congruence.
  - destruct (isAttackState (currentState c)) eqn:Ecur.
    + rewrite (Hrem eq_refl eq_refl) in Hhb. discriminate.
    + rewrite (Hkeep eq_refl eq_refl) in Hhb. rewrite Hof. now apply Ht.
Qed.

Lemma hitboxTracks_applyTransition (c : Character) :
  hitboxTracks c -> hitboxTracks (applyTransition c).
Proof.
  unfold applyTransition. destruct (State_canTransition _ _); [| trivial].
  apply hitboxTracks_transitionTo.
Qed.

(** X8: after a character's own [update] frame its attack hitbox, when it
    has one, is where [updateAttackHitbox] puts it for the position the
    frame ends with: active, of the configured size, owned by the
    character, with the coordinates that [updateAttackHitbox] computes from
    that position and the facing.  The frame starts from a state in which
    the hitbox exists only in the Attack state. *)
Theorem hitbox_follows_character (self : Ref) (dt : Q) (w : World) :
  hitboxInv (getC self w) ->
  exists w',
    update self dt w = Normal w' /\
    forall hb, attackHitbox (getC self w') = Some hb ->
      let c' := getC self w' in
      Hitbox.active hb = true /\
      Hitbox.x hb =
        (if facingRight c'
         then Vector2.x (position c') + CHARACTER_WIDTH cfg
         else Vector2.x (position c') - ATTACK_WIDTH cfg) /\
      Hitbox.y hb =
        Vector2.y (position c') + CHARACTER_HEIGHT cfg / 2 - ATTACK_HEIGHT cfg / 2 /\
      Hitbox.width hb = ATTACK_WIDTH cfg /\
      Hitbox.height hb = ATTACK_HEIGHT cfg /\
      Hitbox.ownerId hb = PlayerId_toString (playerId c').
Proof.
  intro Hinv.
  destruct (update_self_result self dt w) as (w' & Y & E & Hself & HY).
  exists w'. split; [exact E |].
  assert (Htr : hitboxTracks (getC self w')).
  { rewrite Hself. apply hitboxTracks_applyTransition.
    destruct HY as [[Hn ->] | [_ [-> | ->]]].
    - assert (Hs : sameCombat (getC self w)
                     (localUpdate (currentState (getC self w)) dt
                        (tickCooldown dt (getC self w)))).
      { eapply sameCombat_trans; [| apply same_localUpdate].
        apply same_tickCooldown, sameCombat_refl. }
      destruct (sameCombat_all Hs) as (_ & _ & _ & _ & _ & Hsome & _).
      intros hb Hhb. rewrite Hhb in Hsome.
      unfold hitboxInv, inAttack in Hinv. rewrite Hinv in Hsome.
      destruct (currentState (getC self w)); try discriminate. congruence.
    - apply hitboxTracks_atHitCheck.
    - intros hb Hhb.
      destruct (set_hasHit_fields true (atHitCheck dt (getC self w)))
        as (_ & _ & _ & _ & _ & _ & _ & _ & S1 & S2).
      rewrite S1 in Hhb. rewrite S2.
      now apply hitboxTracks_atHitCheck. }
  intros hb Hhb. cbv zeta. rewrite (Htr hb Hhb).
  repeat split; reflexivity.
Qed.

Lemma groundOK_same_position (c c' : Character) :
  position c' = position c -> isGrounded c' = isGrounded c ->
  groundOK c -> groundOK c'.
Proof. unfold groundOK, height. intros -> ->. tauto. Qed.

(** X9: after a character's own [update] frame, in whatever state the
    frame starts, the character is not below the ground line:
    [position.y <= GROUND_Y - height]; and [isGrounded] is set exactly when
    it stands on the line. *)
Theorem update_keeps_above_ground (self : Ref) (dt : Q) (w : World) :
  exists w',
    update self dt w = Normal w' /\
    Vector2.y (position (getC self w')) <= GROUND_Y cfg - CHARACTER_HEIGHT cfg /\
    (isGrounded (getC self w') = true <->
     Vector2.y (position (getC self w')) == GROUND_Y cfg - CHARACTER_HEIGHT cfg).
Proof.
  destruct (update_self_result self dt w) as (w' & Y & E & Hself & HY).
  exists w'. split; [exact E |].
  change (groundOK (getC self w')). rewrite Hself.
  destruct (applyTransition_health_notified Y) as (_ & _ & Hp & Hg).
  apply (@groundOK_same_position Y (applyTransition Y) Hp Hg).
  destruct HY as [[Hn ->] | [_ [-> | ->]]].
  - now apply groundOK_localUpdate.
  - apply groundOK_advance.
  - destruct (set_hasHit_fields true (atHitCheck dt (getC self w)))
      as (_ & _ & _ & _ & _ & _ & S1 & S2 & _).
    apply (@groundOK_same_position _ _ S1 S2). apply groundOK_advance.
Qed.

Lemma boundsOK_checkBoundaries (c : Character) :
  CHARACTER_WIDTH cfg <= CANVAS_WIDTH cfg -> boundsOK (checkBoundaries c).
Proof.
  intro Hw.
  destruct c as [pid pos vel fr hp cd att stun lhs hb gr mode st sts fl opp ntf].
  destruct pos as [px py].
  unfold boundsOK, checkBoundaries, width. cbv zeta.
  cbn [position Vector2.x].
  destruct (Qltb px 0) eqn:E1;
    cbn [position set_velocity_x set_position_x set_position set_velocity
         velocity Vector2.x Vector2.y];
    match goal with
    | |- context [if Qltb ?a ?b then _ else _] => destruct (Qltb a b) eqn:E2
    end;
    cbn [position set_velocity_x set_position_x set_position set_velocity
         velocity Vector2.x Vector2.y];
    try (apply Qltb_iff in E1); try (apply Qltb_false_iff in E1);
    try (apply Qltb_iff in E2); try (apply Qltb_false_iff in E2);
    split; lra.
Qed.

(** X10: with a canvas at least as wide as a character, a frame that starts
    in the Move or the Hit state ends with the hurtbox inside the canvas:
    [0 <= position.x] and [position.x + width <= CANVAS_WIDTH]. *)
Theorem move_and_hit_frames_stay_in_canvas (self : Ref) (dt : Q) (w : World) :
  CHARACTER_WIDTH cfg <= CANVAS_WIDTH cfg ->
  currentState (getC self w) = Move \/ currentState (getC self w) = Hit ->
  exists w',
    update self dt w = Normal w' /\
    0 <= Vector2.x (position (getC self w')) /\
    Vector2.x (position (getC self w')) + CHARACTER_WIDTH cfg <= CANVAS_WIDTH cfg.
Proof.
  intros Hw Hs.
  assert (Hn : currentState (getC self w) <> Attack)
    by (destruct Hs; congruence).
  rewrite (update_local_frame self dt w Hn).
  eexists. split; [reflexivity |]. rewrite getC_setC_same.
  destruct (applyTransition_health_notified
              (localUpdate (currentState (getC self w)) dt
                 (tickCooldown dt (getC self w)))) as (_ & _ & -> & _).
  change (boundsOK (localUpdate (currentState (getC self w)) dt
                      (tickCooldown dt (getC self w)))).
  destruct Hs as [-> | ->]; unfold localUpdate.
  - unfold MoveState_update. open_lets; now apply boundsOK_checkBoundaries.
  - unfold HitState_update. open_lets; now apply boundsOK_checkBoundaries.
Qed.

(** X11: the Idle and the Move state choose the next state in the same way.
    A frame that starts in either ends in the Attack state when the attack
    flag is set and the character can attack (the cooldown, after the tick
    of this frame, is not positive and the character is not stunned), else
    in the Move state when the moving flag is set, else in the Idle state.
    On entering the Attack state the attack timer and [hasHit] are reset,
    the cooldown restarts at [ATTACK_COOLDOWN / attackSpeedMultiplier] and
    the hitbox is in place. *)
Theorem idle_and_move_next_state (self : Ref) (dt : Q) (w : World) :
  currentState (getC self w) = Idle \/ currentState (getC self w) = Move ->
  exists w',
    update self dt w = Normal w' /\
    currentState (getC self w') =
      (if InputFlags.attack (inputFlags (getC self w))
          && canAttack (tickCooldown dt (getC self w))
       then Attack
       else if InputFlags.moving (inputFlags (getC self w)) then Move else Idle) /\
    (currentState (getC self w') = Attack ->
       isAttacking (getC self w') = true /\
       attackTimer (getC self w') = 0 /\
       hasHit (getC self w') = false /\
       attackCooldownTimer (getC self w') =
         ATTACK_COOLDOWN cfg
         / IElementalMode.attackSpeedMultiplier (getElementalMode (getC self w)) /\
       attackHitbox (getC self w') = Some (attackHitboxOf (getC self w'))).
Proof.
  intro Hs. set (c := getC self w) in *.
  assert (Hn : currentState c <> Attack) by (destruct Hs; congruence).
  rewrite (update_local_frame self dt w Hn). fold c.
  eexists. split; [reflexivity |]. rewrite getC_setC_same.
  set (c2 := localUpdate (currentState c) dt (tickCooldown dt c)).
  assert (Hsame : sameCombat c c2).
  { eapply sameCombat_trans; [| apply same_localUpdate].
    apply same_tickCooldown, sameCombat_refl. }
  destruct (sameCombat_all Hsame)
    as (_ & _ & _ & Hstun & _ & _ & Hmode & Hst & _ & Hfl & _).
  destruct (sameCombat_all (same_tickCooldown dt (sameCombat_refl c)))
    as (_ & _ & _ & Hstun0 & _).
  destruct (localUpdate_timers (currentState c) dt (tickCooldown dt c)) as (Hcd & _).
  fold c2 in Hcd.
  assert (Hcan : canAttack c2 = canAttack (tickCooldown dt c)).
  { unfold canAttack. rewrite Hcd. congruence. }
  assert (Hnext : State_canTransition (currentState c2) c2 =
                  if InputFlags.attack (inputFlags c) && canAttack (tickCooldown dt c)
                  then Some Attack
                  else if InputFlags.moving (inputFlags c)
                       then (if isAttackState (currentState c) then None
                             else match currentState c with Idle => Some Move | _ => None end)
                       else (match currentState c with Move => Some Idle | _ => None end)).
  { rewrite Hst. destruct Hs as [Hc | Hc]; rewrite Hc; cbn [State_canTransition isAttackState];
      unfold IdleState_canTransition, MoveState_canTransition;
      rewrite Hfl, Hcan;
      destruct (InputFlags.attack (inputFlags c) && canAttack (tickCooldown dt c));
      try reflexivity; destruct (InputFlags.moving (inputFlags c)); reflexivity. }
  unfold applyTransition. rewrite Hnext.
  destruct (InputFlags.attack (inputFlags c) && canAttack (tickCooldown dt c)).
  - destruct (transitionTo_fields Attack c2) as (H1 & _ & H3 & _).
    destruct (transitionTo_more Attack c2) as (M1 & _ & _ & M4 & M5 & _ & _ & _ & M9 & _).
    cbv zeta in *. cbn [isAttackState] in *.
    split; [exact H1 |]. intros _.
    unfold getElementalMode in *. rewrite Hmode in M5.
    repeat split; auto.
  - destruct (InputFlags.moving (inputFlags c)); destruct Hs as [Hc | Hc];
      rewrite Hc; cbn [isAttackState].
    + destruct (transitionTo_fields Move c2) as (H1 & _). cbv zeta in H1.
      split; [exact H1 | rewrite H1; discriminate].
    + split; [congruence | rewrite Hst, Hc; discriminate].
    + split; [congruence | rewrite Hst, Hc; discriminate].
    + destruct (transitionTo_fields Idle c2) as (H1 & _). cbv zeta in H1.
      split; [exact H1 | rewrite H1; discriminate].
Qed.

(** ** [Character]: damage, reset and the input flags over whole runs *)

(** X12: a hit is lethal in the call that lands it: after [takeDamage] the
    character is defeated exactly when the reduced damage is at least its
    health, and its health is then zero; otherwise its health is the old
    health minus the reduced damage. *)
Theorem takeDamage_defeats_at_once (attackResult : AttackResult.t) (c : Character) :
  let d := IElementalMode.defend (getElementalMode c) c
             (AttackResult.damage attackResult) in
  (isDefeated (takeDamage attackResult c) = true <-> health c <= d) /\
  (health c <= d -> health (takeDamage attackResult c) == 0) /\
  (d < health c -> health (takeDamage attackResult c) == health c - d).
Proof.
  intro d. destruct (takeDamage_fields attackResult c) as (E & _).
  cbv zeta in E. fold d in E. unfold isDefeated. rewrite E.
  clearbody d. rewrite Qle_bool_iff.
  repeat split; try intro H; revert H; split_min_max; intros; lra.
Qed.

(** X13: [reset] restores the transform, the health, the flags, the
    cooldown, the Idle state and the input flags, removes the hitbox and
    emits one health event with damage 0; it keeps the elemental mode, the
    facing and the opponent, so a restarted match continues in the modes
    the players had; and a second [reset] only emits the event again. *)
Theorem reset_restores (startPosition : Vector2.t) (c : Character) :
  let c' := reset startPosition c in
  position c' = startPosition /\
  velocity c' = Vector2.mk 0 0 /\
  health c' = MAX_HEALTH cfg /\
  isGrounded c' = true /\
  isAttacking c' = false /\
  isHitStunned c' = false /\
  attackCooldownTimer c' = 0 /\
  attackHitbox c' = None /\
  currentState c' = Idle /\
  inputFlags c' = InputFlags.none /\
  notified c' =
    HealthChangeEvent (playerId c) (MAX_HEALTH cfg) (MAX_HEALTH cfg) 0
      :: notified c /\
  elementalMode c' = elementalMode c /\
  facingRight c' = facingRight c /\
  opponent c' = opponent c /\
  playerId c' = playerId c /\
  reset startPosition c' =
    notify (HealthChangeEvent (playerId c) (MAX_HEALTH cfg) (MAX_HEALTH cfg) 0) c'.
Proof.
  destruct c as [pid pos vel fr hp cd att stun lhs hb gr mode st sts fl opp ntf].
  destruct st; eval_methods; unfold maxHealth; repeat split; reflexivity.
Qed.

(** *** Predicates kept by every public operation *)

Section RunStable.

Variable P : Character -> Prop.

Hypothesis P_combatOnly : combatOnly P.
Hypothesis P_takeDamage : forall res, stable P (takeDamage res).
Hypothesis P_set_hasHit : stable P (set_hasHit true).
Hypothesis P_transitionTo : forall ns, stable P (transitionTo ns).
Hypothesis P_switchElementalMode : stable P switchElementalMode.
Hypothesis P_setOpponent : forall o, stable P (setOpponent o).
Hypothesis P_execute : forall cmd, stable P (execute cmd).
Hypothesis P_position_x :
  forall f : Character -> Q, stable P (fun c => set_position_x (f c) c).

Lemma step_keeps (op : Op) (x : Ref) (w : World) :
  resetKeeps P op -> P (getC x w) ->
  exists w', step op w = Normal w' /\ P (getC x w').
Proof.
  intros Hreset H. destruct op; simpl.
  - apply update_stable; auto.
    + intro. now apply combatOnly_tickCooldown.
    + intros. now apply combatOnly_localUpdate.
    + intro. now apply combatOnly_advance.
    + intros c Hc. unfold applyTransition.
      destruct (State_canTransition _ _); [now apply P_transitionTo | exact Hc].
  - eexists; split; [reflexivity |]. apply modify_stable; auto.
  - eexists; split; [reflexivity |]. apply modify_stable; auto.
  - eexists; split; [reflexivity |]. apply modify_stable; auto.
  - eexists; split; [reflexivity |]. apply modify_stable; auto.
  - eexists; split; [reflexivity |]. apply modify_stable; auto.
  - eexists; split; [reflexivity |]. unfold resolveCharacterCollision.
    destruct (negb _); [exact H |].
    destruct (Qltb _ _); cbv zeta;
      repeat (apply modify_stable; [apply P_position_x |]); exact H.
Qed.

Lemma run_keeps (ops : list Op) (x : Ref) (w : World) :
  Forall (resetKeeps P) ops -> P (getC x w) ->
  exists w', run ops w = Normal w' /\ P (getC x w').
Proof.
  revert w. induction ops as [| op rest IH]; intros w Hops H; simpl.
  - eauto.
  - inversion Hops as [| ? ? Hop Hrest]; subst.
    destruct (step_keeps op x w Hop H) as (w1 & E1 & H1).
    rewrite E1. simpl. now apply IH.
Qed.

End RunStable.

Lemma switchElementalMode_keeps_flags (c : Character) :
  inputFlags (switchElementalMode c) = inputFlags c.
Proof.
  unfold switchElementalMode.
  destruct (isAttacking c || isHitStunned c); [reflexivity |].
  destruct c; reflexivity.
Qed.

Lemma reset_inputFlags (p : Vector2.t) (c : Character) :
  inputFlags (reset p c) = InputFlags.none.
Proof.
  destruct c as [pid pos vel fr hp cd att stun lhs hb gr mode st sts fl opp ntf].
  destruct st; eval_methods; reflexivity.
Qed.

Lemma movingInv_execute (cmd : Command) : stable movingInv (execute cmd).
Proof.
  intros c H. destruct cmd as [d p | p |].
  - unfold movingInv. destruct c as [? ? ? ? ? ? ? ? ? ? ? ? ? ? [fl fr fu fd fa fm] ? ?].
    destruct d; reflexivity.
  - unfold movingInv in *.
    destruct c as [? ? ? ? ? ? ? ? ? ? ? ? ? ? [fl fr fu fd fa fm] ? ?].
    exact H.
  - unfold movingInv in *. cbn [execute].
    now rewrite switchElementalMode_keeps_flags.
Qed.

(** X14: the moving flag is always the disjunction of the four direction
    flags.  From two freshly constructed characters, every sequence of
    public operations, the input commands among them, runs to the end and
    leaves both characters with
    [moving = left || right || up || down]. *)
Theorem moving_flag_is_disjunction
    (pid1 pid2 : PlayerId) (pos1 pos2 : Vector2.t) (fr1 fr2 : bool)
    (ops : list Op) :
  exists w',
    run ops (mkWorld (newCharacter pid1 pos1 fr1) (newCharacter pid2 pos2 fr2))
      = Normal w' /\
    forall r : Ref,
      InputFlags.moving (inputFlags (getC r w')) =
        InputFlags.left (inputFlags (getC r w'))
        || InputFlags.right (inputFlags (getC r w'))
        || InputFlags.up (inputFlags (getC r w'))
        || InputFlags.down (inputFlags (getC r w')).
Proof.
  assert (Hkeep : forall x w, movingInv (getC x w) ->
            exists w', run ops w = Normal w' /\ movingInv (getC x w')).
  { intros x w. apply run_keeps.
    - intros c c' H. destruct (sameCombat_all H)
        as (_ & _ & _ & _ & _ & _ & _ & _ & _ & Hfl & _).
      unfold movingInv. now rewrite Hfl.
    - intros res c H. unfold movingInv in *.
      destruct (takeDamage_fields res c)
        as (_ & _ & _ & _ & _ & _ & _ & _ & _ & Hfl & _).
      cbv zeta in Hfl. now rewrite Hfl.
    - intros c H. unfold movingInv in *.
      destruct (set_hasHit_fields true c) as (_ & _ & Hfl & _). now rewrite Hfl.
    - intros ns c H. unfold movingInv in *.
      destruct (transitionTo_fields ns c)
        as (_ & _ & _ & _ & _ & _ & _ & _ & _ & Hfl).
      cbv zeta in Hfl. now rewrite Hfl.
    - intros c H. unfold movingInv in *.
      now rewrite switchElementalMode_keeps_flags.
    - intros o c H. exact H.
    - apply movingInv_execute.
    - intros f c H. exact H.
    - apply Forall_forall. intros op _. destruct op; simpl; trivial.
      intros c _. unfold movingInv.
      rewrite reset_inputFlags. reflexivity. }
  set (w0 := mkWorld (newCharacter pid1 pos1 fr1) (newCharacter pid2 pos2 fr2)).
  destruct (Hkeep RefP1 w0) as (w1 & E1 & H1); [reflexivity |].
  destruct (Hkeep RefP2 w0) as (w2 & E2 & H2); [reflexivity |].
  rewrite E1 in E2. injection E2 as <-.
  exists w1. split; [exact E1 |]. intros [|]; assumption.
Qed.

(** X15: health only goes down between resets.  If both strategies defend
    to a non-negative damage, a character with non-negative health, after
    any sequence of public operations with no [reset] among them, has a
    health that is still non-negative and not above what it was. *)
Theorem health_never_rises_without_reset (ops : list Op) (x : Ref) (w : World) :
  defendNonNegative ->
  forallb (fun op => negb (isReset op)) ops = true ->
  0 <= health (getC x w) ->
  exists w',
    run ops w = Normal w' /\
    0 <= health (getC x w') /\ health (getC x w') <= health (getC x w).
Proof.
  intros Hdef Hops H0.
  apply run_keeps
    with (P := fun c => 0 <= health c /\ health c <= health (getC x w)).
  - intros c c' H. destruct (sameCombat_all H) as (_ & -> & _). trivial.
  - intros res c [H1 H2].
    destruct (takeDamage_health res c (Hdef c c _) H1) as [H3 H4].
    split; [exact H3 | lra].
  - intros c H. destruct (set_hasHit_fields true c) as (_ & _ & _ & _ & -> & _).
    exact H.
  - intros ns c H.
    destruct (transitionTo_fields ns c) as (_ & _ & _ & Hh & _).
    cbv zeta in Hh. now rewrite Hh.
  - intros c H. destruct (switchElementalMode_fields c) as (_ & _ & _ & Hh & _).
    cbv zeta in Hh. now rewrite Hh.
  - intros o c H. exact H.
  - intros cmd c H. destruct (execute_fields cmd c) as (_ & _ & _ & Hh & _).
    cbv zeta in Hh. now rewrite Hh.
  - intros f c H. exact H.
  - apply Forall_forall. intros op Hin.
    rewrite forallb_forall in Hops. specialize (Hops op Hin).
    destruct op; cbn [resetKeeps isReset negb] in *; trivial. discriminate.
  - split; [exact H0 | apply Qle_refl].
Qed.
(** ** The engine frame *)

Lemma sameCombat_resolve (a b x : Ref) (w : World) :
  sameCombat (getC x w) (getC x (resolveCharacterCollision a b w)).
Proof.
  assert (Hm : forall r (v : Character -> Q) w0,
             sameCombat (getC x w0)
               (getC x (modify r (fun c => set_position_x (v c) c) w0))).
  { intros r v w0. destruct (Ref_eqb r x) eqn:E.
    - apply Ref_eqb_eq in E. subst r. rewrite getC_modify_same.
      apply same_set_position_x, sameCombat_refl.
    - apply Ref_eqb_neq in E. rewrite getC_modify_other by exact E.
      apply sameCombat_refl. }
  unfold resolveCharacterCollision.
  destruct (negb _); [apply sameCombat_refl |].
  cbv zeta. destruct (Qltb _ _);
    (eapply sameCombat_trans; [apply Hm |];
     match goal with
     | |- sameCombat _ (getC x (modify ?r (fun c => set_position_x (@?v c) c) ?w0)) =>
         apply (Hm r v w0)
     end).
Qed.

(** What one [update] frame does to the health and the events of the two
    characters: nothing to its own, and to another character either nothing
    or one [takeDamage], the latter only from the Attack state. *)
Lemma update_effect (self : Ref) (dt : Q) (w : World) :
  exists w',
    update self dt w = Normal w' /\
    health (getC self w') = health (getC self w) /\
    notified (getC self w') = notified (getC self w) /\
    forall x, x <> self ->
      getC x w' = getC x w \/
      (currentState (getC self w) = Attack /\
       exists res, getC x w' = takeDamage res (getC x w)).
Proof.
  destruct (currentState (getC self w)) eqn:Hs.
  1, 2, 4:
    (rewrite update_local_frame by congruence;
     eexists; split; [reflexivity |];
     rewrite getC_setC_same;
     destruct (applyTransition_health_notified
                 (localUpdate (currentState (getC self w)) dt
                    (tickCooldown dt (getC self w)))) as (-> & -> & _);
     assert (Hsame : sameCombat (getC self w)
                       (localUpdate (currentState (getC self w)) dt
                          (tickCooldown dt (getC self w))))
       by (eapply sameCombat_trans; [| apply same_localUpdate];
           apply same_tickCooldown, sameCombat_refl);
     destruct (sameCombat_all Hsame)
       as (_ & H1 & _ & _ & _ & _ & _ & _ & _ & _ & _ & H2);
     repeat split; [exact H1 | exact H2 |];
     intros x Hx; left; apply getC_setC_other; congruence).
  destruct (sameCombat_all (sameCombat_atHitCheck dt (getC self w)))
    as (_ & H1 & _ & _ & _ & _ & _ & _ & _ & _ & _ & H2).
  destruct (update_attack_frame self dt w Hs)
    as [E | (opp & hb & Hne & Hhas & Hopp & Hhb & Hint & E)];
    cbv zeta in *; rewrite E; eexists; (split; [reflexivity |]);
    rewrite getC_setC_same.
  - destruct (applyTransition_health_notified (atHitCheck dt (getC self w)))
      as (-> & -> & _).
    repeat split; [exact H1 | exact H2 |].
    intros x Hx. left. apply getC_setC_other; congruence.
  - destruct (applyTransition_health_notified
                (set_hasHit true (atHitCheck dt (getC self w))))
      as (-> & -> & _).
    destruct (set_hasHit_fields true (atHitCheck dt (getC self w)))
      as (_ & _ & _ & _ & S1 & S2 & _).
    repeat split; [congruence | congruence |].
    intros x Hx. rewrite getC_setC_other by congruence.
    destruct (Ref_eqb opp x) eqn:Eo.
    + apply Ref_eqb_eq in Eo. subst opp. right. split; [reflexivity |].
      rewrite getC_modify_same. eexists. reflexivity.
    + apply Ref_eqb_neq in Eo. left. apply getC_modify_other. exact Eo.
Qed.

Lemma checkVictory_players (e : GameEngine.t) :
  GameEngine.players (checkVictory e) = GameEngine.players e /\
  GameEngine.isRunning (checkVictory e) = GameEngine.isRunning e /\
  GameEngine.lastTime (checkVictory e) = GameEngine.lastTime e /\
  GameEngine.inputHandler (checkVictory e) = GameEngine.inputHandler e /\
  GameState.roundTime (GameEngine.gameState (checkVictory e))
    = GameState.roundTime (GameEngine.gameState e) /\
  GameState.isPaused (GameEngine.gameState (checkVictory e))
    = GameState.isPaused (GameEngine.gameState e) /\
  GameState.isRunning (GameEngine.gameState (checkVictory e))
    = GameState.isRunning (GameEngine.gameState e).
Proof.
  unfold checkVictory. destruct (GameEngine.players e) as [w |] eqn:Hp.
  - destruct (_ && _); [| destruct (_ && _)];
      cbn; rewrite ?Hp; repeat split; reflexivity.
  - rewrite Hp. repeat split; reflexivity.
Qed.

(** The engine frame, step by step: after the two [update] frames and the
    collision pass one combatant has its health and events as before, and
    the other has at most one more event. *)
Lemma engine_frame (dt : Q) (e : GameEngine.t) (w : World) :
  GameEngine.players e = Some w ->
  exists w',
    GameEngine_update dt e =
      Normal (checkVictory
                (set_players w'
                   (set_gameState
                      (GameState.mk (GameState.isRunning (GameEngine.gameState e))
                         (GameState.isPaused (GameEngine.gameState e))
                         (GameState.winner (GameEngine.gameState e))
                         (GameState.roundTime (GameEngine.gameState e) + dt)) e))) /\
    (health (getC RefP1 w') = health (getC RefP1 w) /\
     notified (getC RefP1 w') = notified (getC RefP1 w) /\
     (notified (getC RefP2 w') = notified (getC RefP2 w) \/
      exists ev, notified (getC RefP2 w') = ev :: notified (getC RefP2 w))
     \/
     health (getC RefP2 w') = health (getC RefP2 w) /\
     notified (getC RefP2 w') = notified (getC RefP2 w) /\
     (notified (getC RefP1 w') = notified (getC RefP1 w) \/
      exists ev, notified (getC RefP1 w') = ev :: notified (getC RefP1 w))).
Proof.
  intro Hp. unfold GameEngine_update. rewrite Hp.
  destruct (update_effect RefP1 dt w) as (w1 & E1 & Hh1 & Hn1 & Ho1).
  destruct (update_effect RefP2 dt w1) as (w2 & E2 & Hh2 & Hn2 & Ho2).
  cbv zeta. rewrite E1. cbn [bind]. rewrite E2. cbn [bind].
  eexists. split; [reflexivity |].
  destruct (sameCombat_all (sameCombat_resolve RefP1 RefP2 RefP1 w2))
    as (_ & R1 & _ & _ & _ & _ & _ & _ & _ & _ & _ & R2).
  destruct (sameCombat_all (sameCombat_resolve RefP1 RefP2 RefP2 w2))
    as (_ & R3 & _ & _ & _ & _ & _ & _ & _ & _ & _ & R4).
  rewrite R1, R2, R3, R4.
  assert (N12 : RefP2 <> RefP1) by discriminate.
  assert (N21 : RefP1 <> RefP2) by discriminate.
  destruct (Ho1 RefP2 N12) as [K1 | (_ & res & K1)].
  - right. rewrite Hh2, Hn2, K1. repeat split.
    destruct (Ho2 RefP1 N21) as [K2 | (_ & res & K2)]; rewrite K2.
    + left. exact Hn1.
    + right.
      destruct (takeDamage_fields res (getC RefP1 w1)) as (_ & _ & _ & _ & T & _).
      cbv zeta in T. rewrite T, Hn1. eexists. reflexivity.
  - destruct (Ho2 RefP1 N21) as [K2 | (Hatt & _)].
    + left. rewrite K2, Hh1, Hn1, Hn2, K1. repeat split.
      right.
      destruct (takeDamage_fields res (getC RefP2 w)) as (_ & _ & _ & _ & T & _).
      cbv zeta in T. rewrite T. eexists. reflexivity.
    + exfalso. rewrite K1 in Hatt.
      destruct (takeDamage_fields res (getC RefP2 w)) as (_ & T & _).
      cbv zeta in T. congruence.
Qed.

(** X16: one engine frame lands at most one hit.  After [GameEngine.update]
    the two combatants together have emitted at most one more event, and at
    least one of them has the health it had before the frame: when both
    attacks would connect in the same frame only one does.  The frame adds
    the time step to the round time and never changes a winner that is
    already set. *)
Theorem engine_frame_lands_at_most_one_hit (dt : Q) (e : GameEngine.t) (w : World) :
  GameEngine.players e = Some w ->
  exists e' w',
    GameEngine_update dt e = Normal e' /\
    GameEngine.players e' = Some w' /\
    (emitted w' <= S (emitted w))%nat /\
    (health (getC RefP1 w') = health (getC RefP1 w) \/
     health (getC RefP2 w') = health (getC RefP2 w)) /\
    GameState.roundTime (GameEngine.gameState e')
      = GameState.roundTime (GameEngine.gameState e) + dt /\
    (forall p, GameState.winner (GameEngine.gameState e) = Some p ->
               GameState.winner (GameEngine.gameState e') = Some p).
Proof.
  intro Hp.
  destruct (engine_frame dt e Hp) as (w' & E & H).
  rewrite E. eexists. exists w'. split; [reflexivity |].
  match goal with
  | |- context [checkVictory ?x] =>
      destruct (checkVictory_players x) as (P1 & _ & _ & _ & P2 & _)
  end.
  rewrite P1, P2. split; [reflexivity |].
  split.
  { unfold emitted.
    destruct H as [(_ & -> & [-> | (ev & ->)]) | (_ & -> & [-> | (ev & ->)])];
      cbn [List.length]; lia. }
  split.
  { destruct H as [(Hh & _) | (Hh & _)]; [left | right]; exact Hh. }
  split; [reflexivity |].
  intros p Hw. unfold checkVictory. cbn [GameEngine.players set_players].
  cbn [GameEngine.gameState set_players set_gameState GameState.winner].
  rewrite Hw. cbn [isSome negb]. rewrite !andb_false_r.
  cbn [GameEngine.gameState set_players set_gameState GameState.winner].
  reflexivity.
Qed.

(** X17: a round that is still open with both combatants alive cannot end
    in a double knock-out.  After the frame at most one of them is
    defeated, and the winner the engine records is the opponent of the
    defeated one: [Player2] exactly when player 1 is defeated, [Player1]
    exactly when player 2 is, none when neither is. *)
Theorem engine_frame_names_the_survivor (dt : Q) (e : GameEngine.t) (w : World) :
  GameEngine.players e = Some w ->
  GameState.winner (GameEngine.gameState e) = None ->
  0 < health (getC RefP1 w) ->
  0 < health (getC RefP2 w) ->
  exists e' w',
    GameEngine_update dt e = Normal e' /\
    GameEngine.players e' = Some w' /\
    (isDefeated (getC RefP1 w') = false \/ isDefeated (getC RefP2 w') = false) /\
    (GameState.winner (GameEngine.gameState e') = Some Player2
       <-> isDefeated (getC RefP1 w') = true) /\
    (GameState.winner (GameEngine.gameState e') = Some Player1
       <-> isDefeated (getC RefP2 w') = true) /\
    (GameState.winner (GameEngine.gameState e') = None
       <-> isDefeated (getC RefP1 w') = false /\ isDefeated (getC RefP2 w') = false).
Proof.
  intros Hp Hw H1 H2.
  destruct (engine_frame dt e Hp) as (w' & E & H).
  rewrite E. eexists. exists w'. split; [reflexivity |].
  match goal with
  | |- context [checkVictory ?x] =>
      destruct (checkVictory_players x) as (P1 & _)
  end.
  rewrite P1. split; [reflexivity |].
  assert (Halive : forall c, 0 < health c -> isDefeated c = false).
  { intros c Hc. unfold isDefeated.
    destruct (Qle_bool (health c) 0) eqn:Eb; [| reflexivity].
    apply Qle_bool_iff in Eb. lra. }
  assert (Hone : isDefeated (getC RefP1 w') = false \/
                 isDefeated (getC RefP2 w') = false).
  { destruct H as [(Hh & _) | (Hh & _)]; [left | right];
      apply Halive; rewrite Hh; assumption. }
  split; [exact Hone |].
  unfold checkVictory. cbn [GameEngine.players set_players].
  cbn [GameEngine.gameState set_players set_gameState GameState.winner].
  rewrite Hw. cbn [isSome negb]. rewrite !andb_true_r.
  destruct (isDefeated (getC RefP1 w')) eqn:D1;
    destruct (isDefeated (getC RefP2 w')) eqn:D2;
    cbn [GameEngine.gameState set_players set_gameState set_winner GameState.winner];
    rewrite ?Hw; intuition congruence.
Qed.

(** ** The input handler *)

Section JsMapFacts.

Variables (K V : Type) (eqb : K -> K -> bool).
Hypothesis eqb_spec : forall a b, eqb a b = true <-> a = b.

Lemma eqb_same (k : K) : eqb k k = true.
Proof. now apply eqb_spec. Qed.

Lemma eqb_differ (a b : K) : a <> b -> eqb a b = false.
Proof.
  intro H. destruct (eqb a b) eqn:E; [| reflexivity].
  apply eqb_spec in E. contradiction.
Qed.

Lemma Map_get_set_same (m : list (K * V)) (k : K) (v : V) :
  Map_get eqb (Map_set eqb m k v) k = Some v.
Proof.
  induction m as [| [k' v'] m IH]; cbn.
  - now rewrite eqb_same.
  - destruct (eqb k' k) eqn:E; cbn; rewrite E; [reflexivity | exact IH].
Qed.

Lemma Map_get_set_other (m : list (K * V)) (k k' : K) (v : V) :
  k' <> k -> Map_get eqb (Map_set eqb m k' v) k = Map_get eqb m k.
Proof.
  intro Hne. induction m as [| [k0 v0] m IH]; cbn.
  - now rewrite eqb_differ.
  - destruct (eqb k0 k') eqn:E; cbn.
    + destruct (eqb k0 k) eqn:E'; [| reflexivity].
      apply eqb_spec in E, E'. congruence.
    + destruct (eqb k0 k); [reflexivity | exact IH].
Qed.

Lemma Map_set_set (m : list (K * V)) (k : K) (v v' : V) :
  Map_set eqb (Map_set eqb m k v) k v' = Map_set eqb m k v'.
Proof.
  induction m as [| [k0 v0] m IH]; cbn.
  - now rewrite eqb_same.
  - destruct (eqb k0 k) eqn:E; cbn; rewrite E; [reflexivity | now rewrite IH].
Qed.

End JsMapFacts.

Lemma PlayerId_eqb_eq (a b : PlayerId) : PlayerId_eqb a b = true <-> a = b.
Proof. destruct a, b; cbn; split; congruence. Qed.

Lemma mapKeyToCommand_down (code : string) (b : KeyBindings.t) (pid : PlayerId)
    (h : InputHandler.t) :
  mapKeyToCommand code b true pid h =
    match keyRole code b with
    | RoleMove d => (Some (MoveCommand d true), h)
    | RoleAttack => (Some (AttackCommand true), h)
    | RoleSwitchMode =>
        match Map_get PlayerId_eqb (InputHandler.switchModePressed h) pid with
        | Some true => (None, h)
        | _ =>
            (Some SwitchModeCommand,
             set_switchModePressed
               (Map_set PlayerId_eqb (InputHandler.switchModePressed h) pid true) h)
        end
    | RoleNone => (None, h)
    end.
Proof.
  unfold mapKeyToCommand, keyRole.
  repeat match goal with
         | |- context [String.eqb code ?x] => destruct (String.eqb code x)
         end;
    cbn [andb negb]; try reflexivity;
    destruct (Map_get _ _ _) as [[|] |]; reflexivity.
Qed.

Lemma mapKeyToCommand_up (code : string) (b : KeyBindings.t) (pid : PlayerId)
    (h : InputHandler.t) :
  mapKeyToCommand code b false pid h =
    (match keyRole code b with
     | RoleMove d => Some (MoveCommand d false)
     | RoleAttack => Some (AttackCommand false)
     | _ => None
     end, h).
Proof.
  unfold mapKeyToCommand, keyRole.
  repeat match goal with
         | |- context [String.eqb code ?x] => destruct (String.eqb code x)
         end;
    reflexivity.
Qed.

Lemma modify_fixed (r : Ref) f (w : World) :
  f (getC r w) = getC r w -> modify r f w = w.
Proof. unfold modify. intros ->. destruct r, w; reflexivity. Qed.

(** A pressed-key command on a character whose flag is already up changes
    nothing. *)
Lemma MoveCommand_execute_fixed (d : Direction) (c : Character) :
  directionFlag d (inputFlags c) = true ->
  InputFlags.moving (inputFlags c) = true ->
  MoveCommand_execute d true c = c.
Proof.
  destruct c as [? ? ? ? ? ? ? ? ? ? ? ? ? ? [fl fr fu fd fa fm] ? ?].
  destruct d, fl, fr, fu, fd; cbn; intros H1 H2; try discriminate;
    subst; reflexivity.
Qed.

Lemma AttackCommand_execute_fixed (c : Character) :
  InputFlags.attack (inputFlags c) = true ->
  AttackCommand_execute true c = c.
Proof.
  destruct c as [? ? ? ? ? ? ? ? ? ? ? ? ? ? [fl fr fu fd fa fm] ? ?].
  cbn; intros ->; reflexivity.
Qed.

Lemma MoveCommand_execute_raises (d : Direction) (c : Character) :
  directionFlag d (inputFlags (MoveCommand_execute d true c)) = true /\
  InputFlags.moving (inputFlags (MoveCommand_execute d true c)) = true.
Proof.
  destruct c as [? ? ? ? ? ? ? ? ? ? ? ? ? ? [fl fr fu fd fa fm] ? ?].
  destruct d, fl, fr, fu, fd; cbn; split; reflexivity.
Qed.

Lemma AttackCommand_execute_raises (c : Character) :
  InputFlags.attack (inputFlags (AttackCommand_execute true c)) = true.
Proof. destruct c; reflexivity. Qed.

(** The commands of a key-down lower no flag. *)
Lemma pressed_command_keeps_raised (cmd : Command) (c : Character) :
  match cmd with
  | MoveCommand _ p | AttackCommand p => p = true
  | SwitchModeCommand => True
  end ->
  (forall d,
     directionFlag d (inputFlags c) = true /\ InputFlags.moving (inputFlags c) = true ->
     directionFlag d (inputFlags (execute cmd c)) = true /\
     InputFlags.moving (inputFlags (execute cmd c)) = true) /\
  (InputFlags.attack (inputFlags c) = true ->
   InputFlags.attack (inputFlags (execute cmd c)) = true).
Proof.
  destruct cmd as [d' p | p |]; cbn [execute].
  - intros ->.
    destruct c as [? ? ? ? ? ? ? ? ? ? ? ? ? ? [fl fr fu fd fa fm] ? ?].
    split; [intros d [H1 H2] | intro H; destruct d'; exact H].
    destruct d, d', fl, fr, fu, fd; cbn in *; try discriminate;
      split; reflexivity.
  - intros ->.
    destruct c as [? ? ? ? ? ? ? ? ? ? ? ? ? ? [fl fr fu fd fa fm] ? ?].
    split; [intros d H; destruct d; exact H | reflexivity].
  - intros _. rewrite switchElementalMode_keeps_flags. tauto.
Qed.

Lemma heldMore_refl s : heldMore s s.
Proof. unfold heldMore. repeat split; tauto. Qed.

Lemma heldMore_trans s1 s2 s3 : heldMore s1 s2 -> heldMore s2 s3 -> heldMore s1 s3.
Proof.
  intros (A1 & A2 & A3 & A4) (B1 & B2 & B3 & B4).
  unfold heldMore. split; [congruence |]. split; [congruence |].
  split.
  - intros k Hk. apply B3, A3, Hk.
  - intro r. split.
    + intros d Hd. apply (B4 r), (A4 r), Hd.
    + intros Ha. apply (B4 r), (A4 r), Ha.
Qed.

Lemma heldMore_runCommand (cmd : Command) (r : Ref) (h : InputHandler.t) (w : World) :
  match cmd with
  | MoveCommand _ p | AttackCommand p => p = true
  | SwitchModeCommand => True
  end ->
  heldMore (h, w) (h, modify r (execute cmd) w).
Proof.
  intro Hp. unfold heldMore. cbn [fst snd].
  split; [reflexivity |]. split; [reflexivity |]. split; [tauto |].
  intro r0. destruct (Ref_eqb r r0) eqn:E.
  - apply Ref_eqb_eq in E. subst r0. rewrite getC_modify_same.
    exact (pressed_command_keeps_raised cmd (getC r w) Hp).
  - apply Ref_eqb_neq in E. rewrite getC_modify_other by exact E. tauto.
Qed.

Lemma heldMore_keyDownFor (code : string) (pin : PlayerInput.t) (pid : PlayerId) s :
  heldMore s (keyDownFor code pin pid s).
Proof.
  destruct s as [h w]. unfold keyDownFor. cbn [fst snd].
  rewrite mapKeyToCommand_down.
  destruct (keyRole code (PlayerInput.keyBindings pin)) as [d | | |];
    cbn [runCommand].
  - now apply heldMore_runCommand.
  - now apply heldMore_runCommand.
  - destruct (Map_get _ _ _) as [[|] |] eqn:Hg; cbn [runCommand];
      [apply heldMore_refl | |];
      (eapply heldMore_trans;
       [| apply heldMore_runCommand with (cmd := SwitchModeCommand); exact I];
       unfold heldMore; cbn [fst snd];
       repeat split; try tauto;
       intros k Hk; cbn [set_switchModePressed InputHandler.switchModePressed];
       destruct (PlayerId_eqb pid k) eqn:E;
       [ apply PlayerId_eqb_eq in E; subst k; apply (@Map_get_set_same _ _ _ PlayerId_eqb_eq)
       | rewrite (@Map_get_set_other _ _ _ PlayerId_eqb_eq); [exact Hk |];
         intro; subst k; destruct pid; discriminate ]).
  - apply heldMore_refl.
Qed.

Lemma settled_heldMore (code : string) (pin : PlayerInput.t) (pid : PlayerId) s s' :
  heldMore s s' -> settled code pin pid s -> settled code pin pid s'.
Proof.
  intros (_ & _ & H3 & H4). unfold settled. cbv zeta.
  destruct (keyRole code (PlayerInput.keyBindings pin)) as [d | | |].
  - apply (H4 (PlayerInput.character pin)).
  - apply (H4 (PlayerInput.character pin)).
  - apply H3.
  - trivial.
Qed.

Lemma settled_fixed (code : string) (pin : PlayerInput.t) (pid : PlayerId) s :
  settled code pin pid s -> keyDownFor code pin pid s = s.
Proof.
  destruct s as [h w]. unfold settled, keyDownFor. cbn [fst snd].
  rewrite mapKeyToCommand_down.
  destruct (keyRole code (PlayerInput.keyBindings pin)) as [d | | |];
    cbn [runCommand].
  - intros [H1 H2]. f_equal. apply modify_fixed.
    now apply MoveCommand_execute_fixed.
  - intros H. f_equal. apply modify_fixed.
    now apply AttackCommand_execute_fixed.
  - intros ->. reflexivity.
  - reflexivity.
Qed.

Lemma settled_after (code : string) (pin : PlayerInput.t) (pid : PlayerId) s :
  settled code pin pid (keyDownFor code pin pid s).
Proof.
  destruct s as [h w]. unfold settled, keyDownFor. cbn [fst snd].
  rewrite mapKeyToCommand_down.
  destruct (keyRole code (PlayerInput.keyBindings pin)) as [d | | |];
    cbn [runCommand fst snd].
  - rewrite getC_modify_same. apply MoveCommand_execute_raises.
  - rewrite getC_modify_same. apply AttackCommand_execute_raises.
  - destruct (Map_get PlayerId_eqb (InputHandler.switchModePressed h) pid)
      as [[|] |] eqn:Hg; cbn [fst snd];
      [exact Hg | |];
      cbn [set_switchModePressed InputHandler.switchModePressed];
      apply (@Map_get_set_same _ _ _ PlayerId_eqb_eq).
  - exact I.
Qed.

Lemma heldMore_forEach (code : string) (ps : list (PlayerId * PlayerInput.t)) s :
  heldMore s (Map_forEach (keyDownFor code) ps s).
Proof.
  revert s. induction ps as [| [pid pin] ps IH]; intro s; cbn [Map_forEach].
  - apply heldMore_refl.
  - eapply heldMore_trans; [apply heldMore_keyDownFor | apply IH].
Qed.

Lemma settled_forEach (code : string) (ps : list (PlayerId * PlayerInput.t)) s :
  forall pid pin, In (pid, pin) ps ->
    settled code pin pid (Map_forEach (keyDownFor code) ps s).
Proof.
  revert s. induction ps as [| [pid0 pin0] ps IH]; intros s pid pin Hin;
    [destruct Hin |].
  cbn [Map_forEach]. destruct Hin as [E | Hin].
  - injection E as <- <-.
    eapply settled_heldMore; [apply heldMore_forEach | apply settled_after].
  - now apply IH.
Qed.

Lemma forEach_fixed (code : string) (ps : list (PlayerId * PlayerInput.t)) s :
  (forall pid pin, In (pid, pin) ps -> settled code pin pid s) ->
  Map_forEach (keyDownFor code) ps s = s.
Proof.
  induction ps as [| [pid pin] ps IH]; intro H; cbn [Map_forEach];
    [reflexivity |].
  rewrite settled_fixed by (apply H; left; reflexivity).
  apply IH. intros. apply H. right. assumption.
Qed.

(** X18: key auto-repeat is harmless.  A second key-down of the same key
    with no key-up in between changes neither the handler nor any
    character: flags that are up stay as they are, and the mode-switch key
    switches the mode once however long it is held and however many
    players are registered. *)
Theorem handleKeyDown_repeat_is_ignored (code : string) (s : InputHandler.t * World) :
  handleKeyDown code (handleKeyDown code s) = handleKeyDown code s.
Proof.
  destruct s as [h w].
  remember (handleKeyDown code (h, w)) as s1 eqn:Hs1.
  unfold handleKeyDown in Hs1. cbn [fst snd] in Hs1.
  set (h0 := set_keyState
               (Map_set String.eqb (InputHandler.keyState h) code true) h) in Hs1.
  set (ps := InputHandler.players h0) in Hs1.
  destruct (heldMore_forEach code ps (h0, w)) as (Hp & Hk & _).
  assert (Hs : forall pid pin, In (pid, pin) ps -> settled code pin pid s1)
    by (intros; rewrite Hs1; now apply settled_forEach).
  rewrite <- Hs1 in Hp, Hk. clear Hs1.
  destruct s1 as [h1 w1]. cbn [fst snd] in Hp, Hk.
  unfold handleKeyDown. cbn [fst snd].
  assert (E : set_keyState
                (Map_set String.eqb (InputHandler.keyState h1) code true) h1 = h1).
  { rewrite Hk. unfold h0. cbn [set_keyState InputHandler.keyState].
    rewrite (@Map_set_set _ _ _ String.eqb_eq).
    destruct h1 as [p1 k1 sp1]. unfold set_keyState.
    cbn [InputHandler.players InputHandler.switchModePressed InputHandler.keyState] in *.
    rewrite Hk. reflexivity. }
  rewrite E. fold ps in Hp. rewrite Hp. apply forEach_fixed. exact Hs.
Qed.

Lemma keyUpFor_handler (code : string) (pin : PlayerInput.t) (pid : PlayerId) s :
  InputHandler.players (fst (keyUpFor code pin pid s)) = InputHandler.players (fst s) /\
  InputHandler.keyState (fst (keyUpFor code pin pid s)) = InputHandler.keyState (fst s) /\
  (String.eqb code (KeyBindings.switchMode (PlayerInput.keyBindings pin)) = true ->
   Map_get PlayerId_eqb
     (InputHandler.switchModePressed (fst (keyUpFor code pin pid s))) pid
     = Some false) /\
  forall k,
    Map_get PlayerId_eqb (InputHandler.switchModePressed (fst s)) k = Some false ->
    Map_get PlayerId_eqb
      (InputHandler.switchModePressed (fst (keyUpFor code pin pid s))) k
      = Some false.
Proof.
  destruct s as [h w]. unfold keyUpFor. cbn [fst snd].
  rewrite mapKeyToCommand_up.
  destruct (String.eqb code _); cbn [fst snd set_switchModePressed
    InputHandler.players InputHandler.keyState InputHandler.switchModePressed].
  - repeat split; [intros _; apply (@Map_get_set_same _ _ _ PlayerId_eqb_eq) |].
    intros k Hk. destruct (PlayerId_eqb pid k) eqn:E.
    + apply PlayerId_eqb_eq in E. subst k.
      apply (@Map_get_set_same _ _ _ PlayerId_eqb_eq).
    + rewrite (@Map_get_set_other _ _ _ PlayerId_eqb_eq); [exact Hk |].
      intro; subst k; destruct pid; discriminate.
  - repeat split; [discriminate | tauto].
Qed.

Lemma keyUp_forEach (code : string) (ps : list (PlayerId * PlayerInput.t)) s :
  InputHandler.players (fst (Map_forEach (keyUpFor code) ps s))
    = InputHandler.players (fst s) /\
  InputHandler.keyState (fst (Map_forEach (keyUpFor code) ps s))
    = InputHandler.keyState (fst s) /\
  (forall k,
     Map_get PlayerId_eqb (InputHandler.switchModePressed (fst s)) k = Some false ->
     Map_get PlayerId_eqb
       (InputHandler.switchModePressed (fst (Map_forEach (keyUpFor code) ps s))) k
       = Some false) /\
  forall pid pin,
    In (pid, pin) ps ->
    String.eqb code (KeyBindings.switchMode (PlayerInput.keyBindings pin)) = true ->
    Map_get PlayerId_eqb
      (InputHandler.switchModePressed (fst (Map_forEach (keyUpFor code) ps s))) pid
      = Some false.
Proof.
  revert s. induction ps as [| [pid0 pin0] ps IH]; intro s; cbn [Map_forEach].
  - repeat split; [tauto | intros ? ? []].
  - destruct (IH (keyUpFor code pin0 pid0 s)) as (I1 & I2 & I3 & I4).
    destruct (keyUpFor_handler code pin0 pid0 s) as (U1 & U2 & U3 & U4).
    split; [congruence |]. split; [congruence |]. split.
    + intros k Hk. apply I3, U4, Hk.
    + intros pid pin [E | Hin] Hc.
      * injection E as <- <-. apply I3, U3, Hc.
      * now apply (I4 pid pin).
Qed.

Lemma isKeyPressed_set (code k : string) (b : bool) (h : InputHandler.t) :
  isKeyPressed k
    (set_keyState (Map_set String.eqb (InputHandler.keyState h) code b) h)
  = if String.eqb k code then b else isKeyPressed k h.
Proof.
  unfold isKeyPressed. cbn [set_keyState InputHandler.keyState].
  destruct (String.eqb k code) eqn:E.
  - apply String.eqb_eq in E. subst k.
    now rewrite (@Map_get_set_same _ _ _ String.eqb_eq).
  - rewrite (@Map_get_set_other _ _ _ String.eqb_eq); [reflexivity |].
    intros ->. rewrite String.eqb_refl in E. discriminate.
Qed.

(** X19: [isKeyPressed] reports the last event of each key.  After a
    key-down of [code] the key [code] reads as pressed, after a key-up as
    released, and every other key reads as before, whatever commands the
    event dispatched; a new handler reports no key as pressed. *)
Theorem isKeyPressed_reports_last_event (code k : string)
    (s : InputHandler.t * World) :
  isKeyPressed k (fst (handleKeyDown code s))
    = (if String.eqb k code then true else isKeyPressed k (fst s)) /\
  isKeyPressed k (fst (handleKeyUp code s))
    = (if String.eqb k code then false else isKeyPressed k (fst s)) /\
  isKeyPressed k InputHandler.new = false.
Proof.
  destruct s as [h w]. cbn [fst].
  split; [| split; [| reflexivity]].
  - unfold handleKeyDown. cbn [fst snd].
    match goal with
    | |- context [Map_forEach ?f ?ps ?s0] =>
        destruct (heldMore_forEach code ps s0) as (_ & Hk & _)
    end.
    rewrite <- isKeyPressed_set. unfold isKeyPressed at 1 2.
    cbn [fst] in Hk. rewrite Hk. reflexivity.
  - unfold handleKeyUp. cbn [fst snd].
    match goal with
    | |- context [Map_forEach ?f ?ps ?s0] =>
        destruct (keyUp_forEach code ps s0) as (_ & Hk & _)
    end.
    rewrite <- isKeyPressed_set. unfold isKeyPressed at 1 2.
    cbn [fst] in Hk. rewrite Hk. reflexivity.
Qed.

(** X20: releasing the mode-switch key re-arms it.  For every registered
    player whose switch key is [code] (and whose other bindings do not
    claim it), after the key-up of [code] the held mark of that player is
    cleared, so the next key-down of [code] maps to a [SwitchModeCommand]
    for that player and marks the key as held again. *)
Theorem switch_key_rearms_on_release (code : string) (pid : PlayerId)
    (pin : PlayerInput.t) (s : InputHandler.t * World) :
  In (pid, pin) (InputHandler.players (fst s)) ->
  keyRole code (PlayerInput.keyBindings pin) = RoleSwitchMode ->
  let h := fst (handleKeyUp code s) in
  Map_get PlayerId_eqb (InputHandler.switchModePressed h) pid = Some false /\
  fst (mapKeyToCommand code (PlayerInput.keyBindings pin) true pid h)
    = Some SwitchModeCommand /\
  Map_get PlayerId_eqb
    (InputHandler.switchModePressed
       (snd (mapKeyToCommand code (PlayerInput.keyBindings pin) true pid h))) pid
    = Some true /\
  fst (mapKeyToCommand code (PlayerInput.keyBindings pin) true pid
         (snd (mapKeyToCommand code (PlayerInput.keyBindings pin) true pid h)))
    = None.
Proof.
  intros Hin Hrole h.
  assert (Hc : String.eqb code
                 (KeyBindings.switchMode (PlayerInput.keyBindings pin)) = true).
  { revert Hrole. unfold keyRole.
    repeat match goal with
           | |- context [String.eqb code ?x] => destruct (String.eqb code x)
           end; (discriminate || reflexivity). }
  assert (Hf : Map_get PlayerId_eqb (InputHandler.switchModePressed h) pid
               = Some false).
  { unfold h, handleKeyUp. destruct s as [h0 w0]. cbn [fst snd] in *.
    match goal with
    | |- context [Map_forEach ?f ?ps ?s0] =>
        destruct (keyUp_forEach code ps s0) as (_ & _ & _ & H4)
    end.
    apply (H4 pid pin); [exact Hin | exact Hc]. }
  split; [exact Hf |].
  rewrite !mapKeyToCommand_down, Hrole, Hf. cbn [fst snd].
  cbn [set_switchModePressed InputHandler.switchModePressed].
  rewrite (@Map_get_set_same _ _ _ PlayerId_eqb_eq).
  repeat split; reflexivity.
Qed.

(** ** The loop and the restart *)

(** X21: one iteration of the game loop advances the round clock by the
    elapsed time, capped at a tenth of a second.  The iteration always
    completes; the round time grows by at most [1/10]; a stopped engine is
    left as it is; a paused engine keeps its players and its game state and
    only records the time of the iteration, so the time spent paused is
    never added to the round. *)
Theorem gameLoop_advances_clock_by_capped_delta (currentTime : Q)
    (e : GameEngine.t) :
  exists e',
    gameLoop currentTime e = Normal e' /\
    GameState.roundTime (GameEngine.gameState e')
      <= GameState.roundTime (GameEngine.gameState e) + (1 # 10) /\
    (GameEngine.isRunning e = false -> e' = e) /\
    (GameEngine.isRunning e = true -> GameEngine.lastTime e' = currentTime) /\
    (GameState.isPaused (GameEngine.gameState e) = true ->
     GameEngine.players e' = GameEngine.players e /\
     GameEngine.gameState e' = GameEngine.gameState e) /\
    (GameEngine.isRunning e = true ->
     GameState.isPaused (GameEngine.gameState e) = false ->
     GameEngine.players e <> None ->
     GameState.roundTime (GameEngine.gameState e')
       = GameState.roundTime (GameEngine.gameState e)
         + Qmin ((currentTime - GameEngine.lastTime e) / 1000) (1 # 10)).
Proof.
  assert (Hle : forall t : Q, t <= t + (1 # 10)) by (intro; lra).
  unfold gameLoop.
  destruct (GameEngine.isRunning e) eqn:Hr; cbn [negb].
  2: { exists e. repeat split; try congruence; apply Hle. }
  cbv zeta. cbn [GameEngine.gameState].
  destruct (GameState.isPaused (GameEngine.gameState e)) eqn:Hpz; cbn [negb].
  { eexists. split; [reflexivity |]. cbn.
    repeat split; try congruence; apply Hle. }
  set (dt := Qmin ((currentTime - GameEngine.lastTime e) / 1000) (1 # 10)).
  assert (Hdt : dt <= 1 # 10) by apply Q.le_min_r.
  destruct (GameEngine.players e) as [w |] eqn:Hp.
  - match goal with
    | |- context [GameEngine_update dt ?e1] =>
        destruct (@engine_frame dt e1 w eq_refl) as (w' & E & _); rewrite E
    end.
    eexists. split; [reflexivity |].
    match goal with
    | |- context [checkVictory ?x] =>
        destruct (checkVictory_players x) as (_ & _ & P3 & _ & P5 & P6 & _)
    end.
    rewrite P3, P5.
    cbn [GameEngine.gameState GameEngine.lastTime set_players set_gameState
         GameState.roundTime].
    clearbody dt.
    repeat split; try congruence; try discriminate.
    set (t := GameState.roundTime (GameEngine.gameState e)). clearbody t. lra.
  - unfold GameEngine_update. cbn [GameEngine.players].
    eexists. split; [reflexivity |]. cbn.
    repeat split; try congruence; apply Hle.
Qed.

(** X22: [restart] opens a live round.  With a positive [MAX_HEALTH], after
    [restart] no winner is recorded, the round clock is at zero and both
    combatants have full health; the frame that follows cannot end the
    round: both still have full health after it and still no winner is
    recorded. *)
Theorem restart_opens_a_live_round (dt : Q) (e : GameEngine.t) (w : World) :
  GameEngine.players e = Some w ->
  0 < MAX_HEALTH cfg ->
  GameState.winner (GameEngine.gameState (restart e)) = None /\
  GameState.roundTime (GameEngine.gameState (restart e)) = 0 /\
  exists w0 e' w',
    GameEngine.players (restart e) = Some w0 /\
    (forall r, health (getC r w0) = MAX_HEALTH cfg /\
               currentState (getC r w0) = Idle) /\
    GameEngine_update dt (restart e) = Normal e' /\
    GameEngine.players e' = Some w' /\
    (forall r, health (getC r w') = MAX_HEALTH cfg) /\
    GameState.winner (GameEngine.gameState e') = None.
Proof.
  intros Hp Hmax. unfold restart. rewrite Hp. cbv zeta.
  set (w0 := modify RefP2 (reset (PLAYER2_START cfg))
               (modify RefP1 (reset (PLAYER1_START cfg)) w)).
  split; [reflexivity |]. split; [reflexivity |].
  assert (H0 : forall r, health (getC r w0) = MAX_HEALTH cfg /\
                         currentState (getC r w0) = Idle).
  { intro r. unfold w0. destruct r.
    - rewrite getC_modify_other by discriminate. rewrite getC_modify_same.
      destruct (reset_fields (PLAYER1_START cfg) (getC RefP1 w))
        as (A & _ & _ & B & _).
      split; assumption.
    - rewrite getC_modify_same.
      destruct (reset_fields (PLAYER2_START cfg)
                  (getC RefP2 (modify RefP1 (reset (PLAYER1_START cfg)) w)))
        as (A & _ & _ & B & _).
      split; assumption. }
  exists w0.
  unfold GameEngine_update.
  cbn [GameEngine.players set_gameState set_players].
  destruct (update_effect RefP1 dt w0) as (w1 & E1 & Hh1 & _ & Ho1).
  destruct (update_effect RefP2 dt w1) as (w2 & E2 & Hh2 & _ & Ho2).
  cbv zeta. rewrite E1. cbn [bind]. rewrite E2. cbn [bind].
  destruct (H0 RefP1) as (M1 & S1). destruct (H0 RefP2) as (M2 & S2).
  assert (K1 : getC RefP2 w1 = getC RefP2 w0).
  { destruct (Ho1 RefP2) as [K | (Hatt & _)];
      [discriminate | exact K | congruence]. }
  assert (K2 : getC RefP1 w2 = getC RefP1 w1).
  { destruct (Ho2 RefP1) as [K | (Hatt & _)];
      [discriminate | exact K | rewrite K1 in Hatt; congruence]. }
  set (w3 := resolveCharacterCollision RefP1 RefP2 w2).
  assert (H3 : forall r, health (getC r w3) = MAX_HEALTH cfg).
  { intro r.
    destruct (sameCombat_all (sameCombat_resolve RefP1 RefP2 r w2))
      as (_ & R & _).
    fold w3 in R. rewrite R.
    destruct r; [rewrite K2, Hh1; exact M1 | rewrite Hh2, K1; exact M2]. }
  assert (Halive : forall r, isDefeated (getC r w3) = false).
  { intro r. unfold isDefeated. rewrite (H3 r).
    destruct (Qle_bool (MAX_HEALTH cfg) 0) eqn:Eb; [| reflexivity].
    apply Qle_bool_iff in Eb. lra. }
  eexists. exists w3. split; [reflexivity |]. split; [exact H0 |].
  split; [reflexivity |].
  unfold checkVictory. cbn [GameEngine.players set_players].
  rewrite (Halive RefP1), (Halive RefP2). cbn [andb].
  repeat split; try reflexivity. exact H3.
Qed.

Lemma execute_body (cmd : Command) (c : Character) :
  body (execute cmd c) = body c /\
  (match cmd with SwitchModeCommand => False | _ => True end ->
   elementalMode (execute cmd c) = elementalMode c /\
   notified (execute cmd c) = notified c).
Proof.
  destruct cmd as [d p | p |]; cbn [execute].
  - destruct c; split; [| intros _; split]; reflexivity.
  - destruct c; split; [| intros _; split]; reflexivity.
  - split; [| intros []].
    unfold switchElementalMode.
    destruct (isAttacking c || isHitStunned c); [reflexivity |].
    destruct c; reflexivity.
Qed.

Lemma keyDownFor_body (code : string) (pin : PlayerInput.t) (pid : PlayerId) s r :
  body (getC r (snd (keyDownFor code pin pid s))) = body (getC r (snd s)).
Proof.
  unfold keyDownFor.
  destruct (mapKeyToCommand code (PlayerInput.keyBindings pin) true pid (fst s))
    as [[cmd |] h]; cbn [snd runCommand]; [| reflexivity].
  destruct (Ref_eqb (PlayerInput.character pin) r) eqn:E.
  - apply Ref_eqb_eq in E. subst r. rewrite getC_modify_same.
    apply execute_body.
  - apply Ref_eqb_neq in E. now rewrite getC_modify_other.
Qed.

Lemma keyUpFor_body (code : string) (pin : PlayerInput.t) (pid : PlayerId) s r :
  body (getC r (snd (keyUpFor code pin pid s))) = body (getC r (snd s)) /\
  elementalMode (getC r (snd (keyUpFor code pin pid s)))
    = elementalMode (getC r (snd s)) /\
  notified (getC r (snd (keyUpFor code pin pid s))) = notified (getC r (snd s)).
Proof.
  unfold keyUpFor. rewrite mapKeyToCommand_up.
  assert (H : forall cmd : option Command,
             match cmd with Some SwitchModeCommand => False | _ => True end ->
             body (getC r (runCommand cmd (PlayerInput.character pin) (snd s)))
               = body (getC r (snd s)) /\
             elementalMode (getC r (runCommand cmd (PlayerInput.character pin) (snd s)))
               = elementalMode (getC r (snd s)) /\
             notified (getC r (runCommand cmd (PlayerInput.character pin) (snd s)))
               = notified (getC r (snd s))).
  { intros [cmd |] Hc; cbn [runCommand]; [| repeat split; reflexivity].
    destruct (Ref_eqb (PlayerInput.character pin) r) eqn:E.
    - apply Ref_eqb_eq in E. subst r. rewrite getC_modify_same.
      destruct (execute_body cmd (getC (PlayerInput.character pin) (snd s)))
        as (B & M).
      split; [exact B |]. apply M. destruct cmd; tauto.
    - apply Ref_eqb_neq in E. rewrite getC_modify_other by exact E.
      repeat split; reflexivity. }
  destruct (String.eqb code _); cbn [snd]; apply H;
    destruct (keyRole code (PlayerInput.keyBindings pin)); exact I.
Qed.

(** X23: a key event moves and hurts nobody.  Whatever key goes down or up
    and whoever is registered, every character keeps its transform, health,
    timers, flags of the state machine, state, hitbox and opponent: the
    event changes at most the input flags, the elemental mode and the
    emitted events, and a key-up changes the input flags only. *)
Theorem key_events_leave_the_body (code : string) (s : InputHandler.t * World)
    (r : Ref) :
  body (getC r (snd (handleKeyDown code s))) = body (getC r (snd s)) /\
  body (getC r (snd (handleKeyUp code s))) = body (getC r (snd s)) /\
  elementalMode (getC r (snd (handleKeyUp code s))) = elementalMode (getC r (snd s)) /\
  notified (getC r (snd (handleKeyUp code s))) = notified (getC r (snd s)).
Proof.
  assert (Hd : forall ps s0,
             body (getC r (snd (Map_forEach (keyDownFor code) ps s0)))
               = body (getC r (snd s0))).
  { induction ps as [| [pid pin] ps IH]; intro s0; cbn [Map_forEach];
      [reflexivity |].
    rewrite IH. apply keyDownFor_body. }
  assert (Hu : forall ps s0,
             body (getC r (snd (Map_forEach (keyUpFor code) ps s0)))
               = body (getC r (snd s0)) /\
             elementalMode (getC r (snd (Map_forEach (keyUpFor code) ps s0)))
               = elementalMode (getC r (snd s0)) /\
             notified (getC r (snd (Map_forEach (keyUpFor code) ps s0)))
               = notified (getC r (snd s0))).
  { induction ps as [| [pid pin] ps IH]; intro s0; cbn [Map_forEach];
      [repeat split; reflexivity |].
    destruct (IH (keyUpFor code pin pid s0)) as (-> & -> & ->).
    apply keyUpFor_body. }
  unfold handleKeyDown, handleKeyUp.
  split; [rewrite Hd; reflexivity |].
  match goal with
  | |- context [Map_forEach ?f ?ps ?s0] => destruct (Hu ps s0) as (-> & -> & ->)
  end.
  repeat split; reflexivity.
Qed.

Section Registration.

Context {keys : KeyConfig}.

Lemma Map_delete_set_fresh (K V : Type) (eqb : K -> K -> bool)
    (m : list (K * V)) (k : K) (v : V) :
  (forall a, eqb a a = true) ->
  Map_get eqb m k = None -> Map_delete eqb (Map_set eqb m k v) k = m.
Proof.
  intros Hrefl. induction m as [| [k0 v0] m IH]; cbn.
  - now rewrite Hrefl.
  - destruct (eqb k0 k) eqn:E; [discriminate |].
    intro H. cbn. rewrite E. now rewrite IH.
Qed.

(** X24: registration is a lookup table keyed by the player id.  After
    [registerPlayer] the player is found under its id, bound to its own
    character and to the key table of its id, with the switch key not held;
    registering the same character again changes nothing more; the entries
    of the other player are as before; and unregistering a player that was
    not registered before restores the handler. *)
Theorem registerPlayer_round_trip (character : Ref) (w : World)
    (h : InputHandler.t) :
  let pid := playerId (getC character w) in
  let h' := registerPlayer character w h in
  Map_get PlayerId_eqb (InputHandler.players h') pid
    = Some (PlayerInput.mk character
              (match pid with Player1 => PLAYER1_KEYS | Player2 => PLAYER2_KEYS end)) /\
  Map_get PlayerId_eqb (InputHandler.switchModePressed h') pid = Some false /\
  InputHandler.keyState h' = InputHandler.keyState h /\
  (forall k, k <> pid ->
     Map_get PlayerId_eqb (InputHandler.players h') k
       = Map_get PlayerId_eqb (InputHandler.players h) k /\
     Map_get PlayerId_eqb (InputHandler.switchModePressed h') k
       = Map_get PlayerId_eqb (InputHandler.switchModePressed h) k) /\
  registerPlayer character w h' = h' /\
  (Map_get PlayerId_eqb (InputHandler.players h) pid = None ->
   Map_get PlayerId_eqb (InputHandler.switchModePressed h) pid = None ->
   unregisterPlayer pid h' = h).
Proof.
  cbv zeta. unfold registerPlayer, unregisterPlayer.
  cbn [InputHandler.players InputHandler.keyState InputHandler.switchModePressed].
  assert (Hrefl : forall a, PlayerId_eqb a a = true) by (intros []; reflexivity).
  split; [apply (@Map_get_set_same _ _ _ PlayerId_eqb_eq) |].
  split; [apply (@Map_get_set_same _ _ _ PlayerId_eqb_eq) |].
  split; [reflexivity |].
  split.
  { intros k Hk.
    split; apply (@Map_get_set_other _ _ _ PlayerId_eqb_eq); congruence. }
  split.
  { now rewrite !(@Map_set_set _ _ _ PlayerId_eqb_eq). }
  intros H1 H2.
  rewrite !Map_delete_set_fresh by assumption.
  destruct h; reflexivity.
Qed.

End Registration.

End Properties.

(** * The concrete match: evaluations, counterexamples and witnesses *)

(** ** C1 on the sample: the hitbox overlaps the opponent in every frame
    of the activation, and the opponent is damaged once. *)
Example attack_hits_once_sample :
  currentState (getC RefP1 attacking) = Attack /\
  @activationHits sampleConfig sampleStrategies RefP1 fourFrames attacking = 1%nat /\
  notified (getC RefP2 (sampleRun fourFrames attacking)) =
    [HealthChangeEvent Player2 (170 # 2) 100 (30 # 2)].
Proof. vm_compute. repeat split. Qed.

(** ** C5: what [takeDamage] leaves behind when the victim was moving or
    already stunned *)

(** C5 at two inputs the match reaches.  [takeDamage] writes the knockback
    and the stun of the [AttackResult] and then calls [transitionTo], which
    first runs [exit] of the state the victim is leaving: [MoveState.exit]
    zeroes [velocity.x], so a walking victim keeps none of the horizontal
    knockback, and [HitState.exit] zeroes [lastHitStun], so a victim hit
    again while stunned forgets the stun of the new hit and [HitState.enter]
    falls back to the default duration. *)
Theorem takeDamage_exit_overwrites :
  (currentState movingVictim = Move /\
   velocity (@takeDamage sampleConfig sampleStrategies heavyBlow movingVictim)
     = Vector2.mk 0 (-100) /\
   ~ Vector2.x (velocity (@takeDamage sampleConfig sampleStrategies
                            heavyBlow movingVictim))
     == Vector2.x (AttackResult.knockback heavyBlow)) /\
  (currentState stunnedVictim = Hit /\
   lastHitStun (@takeDamage sampleConfig sampleStrategies heavyBlow stunnedVictim)
     = 0 /\
   ~ lastHitStun (@takeDamage sampleConfig sampleStrategies heavyBlow stunnedVictim)
     == AttackResult.hitStun heavyBlow /\
   stunDuration (@takeDamage sampleConfig sampleStrategies heavyBlow stunnedVictim)
     = HIT_STUN_DURATION sampleConfig).
Proof.
  vm_compute. repeat split; discriminate.
Qed.

(** The same through the attack itself: the second character walks left,
    the first attacks and its hitbox reaches the walker.  The strategy asks
    for a knockback of (200, -100); the victim is left with (0, -100). *)
Example knockback_lost_on_walking_victim :
  let w :=
    sampleRun
      [OpExecute RefP2 (MoveCommand DirLeft true); OpUpdate RefP2 (1 # 10);
       OpExecute RefP1 (AttackCommand true); OpUpdate RefP1 (1 # 10)]
      closeWorld in
  let w' := sampleRun [OpUpdate RefP1 (1 # 10)] w in
  currentState (getC RefP2 w) = Move /\
  AttackResult.knockback
    (IElementalMode.attack sampleFire (getC RefP1 w) (getC RefP2 w))
    = Vector2.mk 200 (-100) /\
  currentState (getC RefP2 w') = Hit /\
  velocity (getC RefP2 w') = Vector2.mk 0 (-100).
Proof. vm_compute. repeat split. Qed.

(** ** C6: the claim as stated fails *)

(** C6 as stated would make [checkAttackHit] throw here: the first
    character is in the Attack state with its hitbox and has no opponent.
    The call returns. *)
Lemma checkAttackHit_does_not_fail_fast :
  opponent (getC RefP1 loneAttacker) = None /\
  isSome (attackHitbox (getC RefP1 loneAttacker)) = true /\
  ~ failsFast (@checkAttackHit sampleConfig sampleStrategies RefP1 loneAttacker).
Proof.
  split; [reflexivity |]. split; [reflexivity |].
  intros [e He]. vm_compute in He. discriminate.
Qed.

Lemma checkAttackHit_without_opponent_witness :
  @checkAttackHit sampleConfig sampleStrategies RefP1 loneAttacker
    = Normal (false, loneAttacker) /\
  ~ failsFast (@checkAttackHit sampleConfig sampleStrategies RefP1 loneAttacker).
Proof.
  apply (@checkAttackHit_without_opponent sampleConfig sampleStrategies
           RefP1 loneAttacker).
  reflexivity.
Defined.

(** ** Witnesses *)

Lemma sample_defendNonNegative : @defendNonNegative sampleStrategies.
Proof.
  intros c c' d. unfold getElementalMode.
  destruct (elementalMode c); simpl; apply Q.le_max_l.
Qed.

Lemma health_bounds_preserved_witness :
  ~ @defendNonNegative scalingStrategies /\
  (exists w',
     @update sampleConfig scalingStrategies RefP1 (1 # 10) scaledFight = Normal w' /\
     @healthInv sampleConfig (getC RefP2 w')) /\
  @healthInv sampleConfig
    (@takeDamage sampleConfig scalingStrategies heavyBlow (getC RefP2 scaledFight)) /\
  health (@takeDamage sampleConfig scalingStrategies heavyBlow (getC RefP2 scaledFight))
    <= health (getC RefP2 scaledFight).
Proof.
  assert (Hneg : ~ @defendNonNegative scalingStrategies).
  { intro Hdef.
    pose proof (Hdef (getC RefP2 scaledFight) (getC RefP2 scaledFight) (-1)) as H.
    vm_compute in H. apply H. reflexivity. }
  assert (Hinv : @healthInv sampleConfig (getC RefP2 scaledFight))
    by (split; vm_compute; discriminate).
  assert (Hhit : @hitDamageNonNegative sampleConfig scalingStrategies
                   RefP1 (1 # 10) scaledFight).
  { unfold hitDamageNonNegative. cbv zeta. intros _ _ opp hb Hopp _ _.
    vm_compute in Hopp. injection Hopp as <-.
    vm_compute. discriminate. }
  assert (Hd : 0 <= IElementalMode.defend
                      (@getElementalMode scalingStrategies (getC RefP2 scaledFight))
                      (getC RefP2 scaledFight) (AttackResult.damage heavyBlow))
    by (vm_compute; discriminate).
  destruct (@health_bounds_preserved sampleConfig scalingStrategies) as [Hup Htd].
  split; [exact Hneg |].
  split; [exact (Hup RefP1 RefP2 (1 # 10) scaledFight Hhit Hinv) |].
  destruct (Htd heavyBlow (getC RefP2 scaledFight) Hd Hinv) as (H1 & _ & _ & H2).
  split; [exact H1 | exact H2].
Defined.

Lemma resolveCharacterCollision_spec_witness :
  Vector2.x (position (getC RefP1
     (@resolveCharacterCollision sampleConfig RefP1 RefP2 overlappingWorld))) == 90 /\
  Vector2.x (position (getC RefP2
     (@resolveCharacterCollision sampleConfig RefP1 RefP2 overlappingWorld))) == 140.
Proof.
  assert (Hne : RefP1 <> RefP2) by discriminate.
  destruct (@resolveCharacterCollision_spec sampleConfig RefP1 RefP2
              overlappingWorld Hne) as [Hhit _].
  destruct (Hhit eq_refl) as (_ & Hlt & _).
  destruct Hlt as [Ha Hb]; [vm_compute; reflexivity |].
  split; [rewrite Ha | rewrite Hb]; vm_compute; reflexivity.
Defined.

Lemma resolveCharacterCollision_identical_x_witness :
  Vector2.x (position (getC RefP1
     (@resolveCharacterCollision sampleConfig RefP1 RefP2 stackedWorld))) == 125 /\
  Vector2.x (position (getC RefP2
     (@resolveCharacterCollision sampleConfig RefP1 RefP2 stackedWorld))) == 75 /\
  @resolveCharacterCollision sampleConfig RefP1 RefP2
    (@resolveCharacterCollision sampleConfig RefP1 RefP2 stackedWorld)
  = @resolveCharacterCollision sampleConfig RefP1 RefP2 stackedWorld.
Proof.
  assert (Hne : RefP1 <> RefP2) by discriminate.
  assert (Hx : Vector2.x (position (getC RefP1 stackedWorld))
               == Vector2.x (position (getC RefP2 stackedWorld)))
    by (vm_compute; reflexivity).
  destruct (@resolveCharacterCollision_identical_x sampleConfig RefP1 RefP2
              stackedWorld Hne Hx eq_refl)
    as (_ & _ & Ha & Hb & _ & _ & Hagain).
  split; [rewrite Ha; vm_compute; reflexivity |].
  split; [rewrite Hb; vm_compute; reflexivity | exact Hagain].
Defined.

Lemma switchElementalMode_spec_witness :
  @switchElementalMode sampleStrategies (getC RefP1 attacking)
    = getC RefP1 attacking /\
  elementalMode (@switchElementalMode sampleStrategies (getC RefP1 closeWorld))
    = Water /\
  elementalMode
    (@switchElementalMode sampleStrategies
       (@switchElementalMode sampleStrategies (getC RefP1 closeWorld)))
    = Fire.
Proof.
  split.
  - apply (proj1 (@switchElementalMode_spec sampleStrategies (getC RefP1 attacking))).
    left. reflexivity.
  - destruct (proj2 (@switchElementalMode_spec sampleStrategies
                       (getC RefP1 closeWorld)) eq_refl eq_refl)
      as (Hfw & _ & _ & _ & Hback & _).
    split; [apply Hfw; reflexivity | exact Hback].
Defined.

Lemma checkAABB_spec_witness :
  checkAABB (Rectangle.mk 0 0 50 80) (Rectangle.mk 50 0 50 80) = false /\
  checkAABB (Rectangle.mk 0 0 50 80) (Rectangle.mk 49 0 50 80) = true.
Proof.
  destruct (checkAABB_spec (Rectangle.mk 0 0 50 80) (Rectangle.mk 50 0 50 80))
    as (_ & Htouch & _).
  split; [apply Htouch; reflexivity | reflexivity].
Defined.

(** ** C10 on the sample: three frames of the attack, then the frames stop
    because the character has left the Attack state. *)
Example attack_keeps_position_x_sample :
  @attackFrames sampleConfig sampleStrategies RefP1
    [1 # 10; 1 # 10; 1 # 10; 1 # 10] attacking
  = Normal (sampleRun [OpUpdate RefP1 (1 # 10); OpUpdate RefP1 (1 # 10);
                       OpUpdate RefP1 (1 # 10)] attacking) /\
  Vector2.x (position (getC RefP1
     (sampleRun [OpUpdate RefP1 (1 # 10); OpUpdate RefP1 (1 # 10);
                 OpUpdate RefP1 (1 # 10)] attacking))) = 100.
Proof. vm_compute. split; reflexivity. Qed.

(** ** Witnesses of the further properties *)

Lemma getCollisionPoint_inside_witness :
  getCollisionPoint (Rectangle.mk 0 0 50 80) (Rectangle.mk 40 20 60 40)
    = Some (Vector2.mk (90 # 2) (80 # 2)) /\
  exists q,
    getCollisionPoint (Rectangle.mk 40 20 60 40) (Rectangle.mk 0 0 50 80) = Some q /\
    Vector2.x q == 90 # 2 /\ Vector2.y q == 80 # 2.
Proof.
  assert (Hp : getCollisionPoint (Rectangle.mk 0 0 50 80) (Rectangle.mk 40 20 60 40)
               = Some (Vector2.mk (90 # 2) (80 # 2)))
    by (vm_compute; reflexivity).
  split; [exact Hp |].
  assert (H : (0 <= 50 /\ 0 <= 80) /\ (0 <= 60 /\ 0 <= 40))
    by (repeat split; discriminate).
  destruct H as [[H1 H2] [H3 H4]].
  destruct (getCollisionPoint_inside (Rectangle.mk 0 0 50 80)
              (Rectangle.mk 40 20 60 40) H1 H2 H3 H4) as (_ & Hin).
  destruct (Hin (Vector2.mk (90 # 2) (80 # 2)) Hp) as (_ & _ & _ & _ & Hq).
  exact Hq.
Defined.

Lemma resolveCharacterCollision_keeps_sides_witness :
  Vector2.x (position (getC RefP1 overlappingWorld))
    < Vector2.x (position (getC RefP2 overlappingWorld)) /\
  Vector2.x (position (getC RefP1
     (Nat.iter 2 (@resolveCharacterCollision sampleConfig RefP1 RefP2)
        overlappingWorld)))
    < Vector2.x (position (getC RefP2
     (Nat.iter 2 (@resolveCharacterCollision sampleConfig RefP1 RefP2)
        overlappingWorld))).
Proof.
  assert (Hlt : Vector2.x (position (getC RefP1 overlappingWorld))
                < Vector2.x (position (getC RefP2 overlappingWorld)))
    by (vm_compute; reflexivity).
  split; [exact Hlt |].
  assert (Hne : RefP1 <> RefP2) by discriminate.
  destruct (@resolveCharacterCollision_keeps_sides sampleConfig RefP1 RefP2 2
              overlappingWorld Hne) as [Hleft _].
  destruct (Hleft Hlt) as (_ & _ & Hside).
  exact Hside.
Defined.

Lemma hit_state_recovery_witness :
  currentState (getC RefP2 stunnedWorld) = Hit /\
  exists w',
    @update sampleConfig sampleStrategies RefP2 (1 # 10) stunnedWorld = Normal w' /\
    getC RefP1 w' = getC RefP1 stunnedWorld.
Proof.
  assert (Hs : currentState (getC RefP2 stunnedWorld) = Hit)
    by (vm_compute; reflexivity).
  split; [exact Hs |].
  destruct (@hit_state_recovery sampleConfig sampleStrategies RefP2 (1 # 10)
              stunnedWorld Hs) as (w' & E & Hother & _).
  exists w'. split; [exact E |]. apply Hother. discriminate.
Defined.

Lemma attack_state_duration_witness :
  currentState (getC RefP1 attacking) = Attack /\
  exists w',
    @update sampleConfig sampleStrategies RefP1 (1 # 10) attacking = Normal w' /\
    currentState (getC RefP1 w') = Attack.
Proof.
  assert (Hs : currentState (getC RefP1 attacking) = Attack)
    by (vm_compute; reflexivity).
  split; [exact Hs |].
  destruct (@attack_state_duration sampleConfig sampleStrategies RefP1 (1 # 10)
              attacking Hs) as (w' & E & _ & Hstay).
  exists w'. split; [exact E |]. apply Hstay. vm_compute. reflexivity.
Defined.

Lemma update_changes_others_by_one_hit_witness :
  RefP2 <> RefP1 /\
  exists w',
    @update sampleConfig sampleStrategies RefP1 (1 # 10) closeWorld = Normal w' /\
    getC RefP2 w' = getC RefP2 closeWorld.
Proof.
  assert (Hne : RefP2 <> RefP1) by discriminate.
  split; [exact Hne |].
  destruct (@update_changes_others_by_one_hit sampleConfig sampleStrategies
              RefP1 RefP2 (1 # 10) closeWorld Hne) as (w' & E & [Hsame | Hhit]).
  - exists w'. split; [exact E | exact Hsame].
  - destruct Hhit as (Hatt & _). vm_compute in Hatt. discriminate Hatt.
Defined.

Lemma hitbox_follows_character_witness :
  @hitboxInv (getC RefP1 attacking) /\
  exists w',
    @update sampleConfig sampleStrategies RefP1 (1 # 10) attacking = Normal w' /\
    forall hb, attackHitbox (getC RefP1 w') = Some hb ->
      Hitbox.active hb = true /\
      Hitbox.width hb = ATTACK_WIDTH sampleConfig.
Proof.
  assert (Hinv : @hitboxInv (getC RefP1 attacking)) by (vm_compute; reflexivity).
  split; [exact Hinv |].
  destruct (@hitbox_follows_character sampleConfig sampleStrategies RefP1 (1 # 10)
              attacking Hinv) as (w' & E & H).
  exists w'. split; [exact E |].
  intros hb Hhb.
  destruct (H hb Hhb) as (Hact & _ & _ & Hwid & _).
  split; [exact Hact | exact Hwid].
Defined.

Lemma update_never_damages_self_witness :
  opponent (getC RefP1 attacking) <> Some RefP1 /\
  exists w',
    @update sampleConfig sampleStrategies RefP1 (1 # 10) attacking = Normal w' /\
    health (getC RefP1 w') = health (getC RefP1 attacking) /\
    notified (getC RefP1 w') = notified (getC RefP1 attacking).
Proof.
  assert (Hown : opponent (getC RefP1 attacking) <> Some RefP1)
    by (intro H; vm_compute in H; discriminate H).
  split; [exact Hown |].
  exact (@update_never_damages_self sampleConfig sampleStrategies RefP1 (1 # 10)
           attacking Hown).
Defined.

Lemma move_and_hit_frames_stay_in_canvas_witness :
  currentState (getC RefP2 walkingWorld) = Move /\
  exists w',
    @update sampleConfig sampleStrategies RefP2 (1 # 10) walkingWorld = Normal w' /\
    0 <= Vector2.x (position (getC RefP2 w')) /\
    Vector2.x (position (getC RefP2 w')) + 50 <= 800.
Proof.
  assert (Hs : currentState (getC RefP2 walkingWorld) = Move)
    by (vm_compute; reflexivity).
  split; [exact Hs |].
  assert (Hw : CHARACTER_WIDTH sampleConfig <= CANVAS_WIDTH sampleConfig)
    by discriminate.
  exact (@move_and_hit_frames_stay_in_canvas sampleConfig sampleStrategies
           RefP2 (1 # 10) walkingWorld Hw (or_introl Hs)).
Defined.

Lemma idle_and_move_next_state_witness :
  currentState (getC RefP1 closeWorld) = Idle /\
  exists w',
    @update sampleConfig sampleStrategies RefP1 (1 # 10) closeWorld = Normal w' /\
    isAttacking (getC RefP1 w') = false.
Proof.
  assert (Hs : currentState (getC RefP1 closeWorld) = Idle)
    by (vm_compute; reflexivity).
  split; [exact Hs |].
  destruct (@idle_and_move_next_state sampleConfig sampleStrategies RefP1 (1 # 10)
              closeWorld (or_introl Hs)) as (w' & E & _).
  exists w'. split; [exact E |].
  vm_compute in E. injection E as <-. vm_compute. reflexivity.
Defined.

Lemma health_never_rises_without_reset_witness :
  exists w',
    @run sampleConfig sampleStrategies fourFrames attacking = Normal w' /\
    0 <= health (getC RefP2 w') /\
    health (getC RefP2 w') <= health (getC RefP2 attacking).
Proof.
  assert (H0 : 0 <= health (getC RefP2 attacking)) by (vm_compute; discriminate).
  assert (Hops : forallb (fun op => negb (isReset op)) fourFrames = true)
    by (vm_compute; reflexivity).
  exact (@health_never_rises_without_reset sampleConfig sampleStrategies
           fourFrames RefP2 attacking sample_defendNonNegative Hops H0).
Defined.

Lemma engine_frame_lands_at_most_one_hit_witness :
  GameEngine.players fightingEngine = Some attacking /\
  exists e' w',
    @GameEngine_update sampleConfig sampleStrategies (1 # 10) fightingEngine
      = Normal e' /\
    GameEngine.players e' = Some w' /\
    (emitted w' <= S (emitted attacking))%nat.
Proof.
  assert (Hp : GameEngine.players fightingEngine = Some attacking) by reflexivity.
  split; [exact Hp |].
  destruct (@engine_frame_lands_at_most_one_hit sampleConfig sampleStrategies
              (1 # 10) fightingEngine attacking Hp)
    as (e' & w' & E & Hp' & Hem & _).
  exists e', w'. split; [exact E |]. split; [exact Hp' | exact Hem].
Defined.

Lemma engine_frame_names_the_survivor_witness :
  GameState.winner (GameEngine.gameState fightingEngine) = None /\
  exists e' w',
    @GameEngine_update sampleConfig sampleStrategies (1 # 10) fightingEngine
      = Normal e' /\
    GameEngine.players e' = Some w' /\
    (isDefeated (getC RefP1 w') = false \/ isDefeated (getC RefP2 w') = false).
Proof.
  assert (Hp : GameEngine.players fightingEngine = Some attacking) by reflexivity.
  assert (Hw : GameState.winner (GameEngine.gameState fightingEngine) = None)
    by reflexivity.
  split; [exact Hw |].
  assert (H1 : 0 < health (getC RefP1 attacking)) by (vm_compute; reflexivity).
  assert (H2 : 0 < health (getC RefP2 attacking)) by (vm_compute; reflexivity).
  destruct (@engine_frame_names_the_survivor sampleConfig sampleStrategies
              (1 # 10) fightingEngine attacking Hp Hw H1 H2)
    as (e' & w' & E & Hp' & Hone & _).
  exists e', w'. split; [exact E |]. split; [exact Hp' | exact Hone].
Defined.

Lemma switch_key_rearms_on_release_witness :
  fst (mapKeyToCommand "KeyG" (@PLAYER1_KEYS sampleKeys) true Player1
         (fst (@handleKeyUp sampleStrategies "KeyG"
                 (@handleKeyDown sampleStrategies "KeyG"
                    (GameEngine.inputHandler sampleEngine, closeWorld)))))
  = Some SwitchModeCommand.
Proof.
  assert (Hin : In (Player1, PlayerInput.mk RefP1 (@PLAYER1_KEYS sampleKeys))
                  (InputHandler.players
                     (fst (@handleKeyDown sampleStrategies "KeyG"
                             (GameEngine.inputHandler sampleEngine, closeWorld)))))
    by (vm_compute; left; reflexivity).
  assert (Hrole : keyRole "KeyG"
                    (PlayerInput.keyBindings
                       (PlayerInput.mk RefP1 (@PLAYER1_KEYS sampleKeys)))
                  = RoleSwitchMode)
    by (vm_compute; reflexivity).
  exact (proj1 (proj2
    (@switch_key_rearms_on_release sampleStrategies "KeyG" Player1
       (PlayerInput.mk RefP1 (@PLAYER1_KEYS sampleKeys))
       (@handleKeyDown sampleStrategies "KeyG"
          (GameEngine.inputHandler sampleEngine, closeWorld))
       Hin Hrole))).
Defined.

Lemma restart_opens_a_live_round_witness :
  GameEngine.players fightingEngine = Some attacking /\
  0 < MAX_HEALTH sampleConfig /\
  GameState.winner
    (GameEngine.gameState (@restart sampleConfig sampleStrategies fightingEngine))
    = None.
Proof.
  assert (Hp : GameEngine.players fightingEngine = Some attacking) by reflexivity.
  split; [exact Hp |].
  assert (Hmax : 0 < MAX_HEALTH sampleConfig) by reflexivity.
  split; [exact Hmax |].
  exact (proj1 (@restart_opens_a_live_round sampleConfig sampleStrategies
                  (1 # 10) fightingEngine attacking Hp Hmax)).
Defined.
